(** * Knowledge folders: a shallow embedding of the folder feature

    The development follows the repository layout:
    - [Migration]      : migration/0.1.0/012_add_knowledge_folders.sql
    - [Folders]        : features/knowledge/types/folders.ts
    - [FolderService]  : features/knowledge/services (folderService)
    - [DragAndDrop]    : features/knowledge/hooks/useDragAndDrop.ts
    - [FolderQueries]  : features/knowledge/hooks/useFolderQueries.ts

    Definitions come first, one module per source file; the properties
    proved about them follow. *)

From Stdlib Require Import ZArith Lia.
From stdpp Require Import base option list gmap strings finite.

Local Open Scope Z_scope.

(* ===================================================================== *)
(** ** migration/0.1.0/012_add_knowledge_folders.sql *)
(* ===================================================================== *)

Module Migration.

(** A UUID is a 128-bit value; only equality on it is ever used. *)
Abbreviation uuid := N.

(** A row of [archon_knowledge_folders], keyed by its primary key [id]
    in the table below.  [parent_id] is the nullable self-reference. *)
Record folder_row := FolderRow {
  f_name : string;
  f_parent_id : option uuid;
}.

(** A row of [archon_sources]; [folder_id] is nullable.  The table has no
    key of interest here, so it is a bag of rows. *)
Record source_row := SourceRow {
  s_source_id : string;
  s_folder_id : option uuid;
}.

Record database := Database {
  archon_knowledge_folders : gmap uuid folder_row;
  archon_sources : list source_row;
}.

(** [CONSTRAINT archon_knowledge_folders_no_self_reference
     CHECK (parent_id IS DISTINCT FROM id)] on a row with key [id]. *)
Definition no_self_reference (id : uuid) (r : folder_row) : bool :=
  bool_decide (f_parent_id r ≠ Some id).

(** [parent_id UUID REFERENCES archon_knowledge_folders(id)] and
    [folder_id UUID REFERENCES archon_knowledge_folders(id)]. *)
Definition parent_fk (tbl : gmap uuid folder_row) : Prop :=
  ∀ id r p, tbl !! id = Some r → f_parent_id r = Some p → is_Some (tbl !! p).

Definition source_fk (db : database) : Prop :=
  ∀ s g, s ∈ archon_sources db → s_folder_id s = Some g →
         is_Some (archon_knowledge_folders db !! g).

(** [(SELECT parent_id FROM archon_knowledge_folders WHERE id = x)]:
    a scalar subquery, NULL when no row matches. *)
Definition select_parent_id (tbl : gmap uuid folder_row) (x : uuid) : option uuid :=
  tbl !! x ≫= f_parent_id.

Definition max_depth : Z := 100.

(** The [WHILE] loop of [archon_is_folder_descendant].  The loop variables
    are [current_parent_id] and [current_depth]; [fuel] bounds the number
    of iterations of the model and [None] means it ran out. *)
Fixpoint walk_loop (fuel : nat) (tbl : gmap uuid folder_row)
    (potential_ancestor_id : uuid)
    (current_parent_id : option uuid) (current_depth : Z) : option bool :=
  match current_parent_id with
  | Some c =>
      if current_depth <? max_depth then
        if decide (c = potential_ancestor_id) then Some true
        else match fuel with
             | O => None
             | S fuel' =>
                 walk_loop fuel' tbl potential_ancestor_id
                   (select_parent_id tbl c) (current_depth + 1)
             end
      else Some false
  | None => Some false
  end.

Definition archon_is_folder_descendant (tbl : gmap uuid folder_row)
    (target_folder_id potential_ancestor_id : option uuid) : option bool :=
  match target_folder_id, potential_ancestor_id with
  | Some t, Some a =>
      if decide (t = a) then Some true
      else walk_loop (Z.to_nat max_depth) tbl a (select_parent_id tbl t) 0
  | _, _ => Some false
  end.

(** [UPDATE archon_knowledge_folders SET parent_id = p WHERE id = f]; the
    statement fails ([None]) when the check constraint rejects the row. *)
Definition update_parent_id (tbl : gmap uuid folder_row) (f : uuid)
    (p : option uuid) : option (gmap uuid folder_row) :=
  match tbl !! f with
  | Some r =>
      let r' := FolderRow (f_name r) p in
      if no_self_reference f r' then Some (<[f := r']> tbl) else None
  | None => Some tbl
  end.

(** [WITH RECURSIVE folder_tree]: the non-recursive term. *)
Definition folder_tree_base (tbl : gmap uuid folder_row)
    (target_folder_id : option uuid) : list uuid :=
  match target_folder_id with
  | Some t => match tbl !! t with Some _ => [t] | None => [] end
  | None => []
  end.

(** The recursive term, evaluated against the working table [ft]:
    [SELECT f.id FROM archon_knowledge_folders f
     INNER JOIN folder_tree ft ON f.parent_id = ft.id]. *)
Definition folder_tree_step (tbl : gmap uuid folder_row)
    (ft : list uuid) : list uuid :=
  '(id, r) ← map_to_list tbl;
  w ← ft;
  if decide (f_parent_id r = Some w) then [id] else [].

(** Evaluation of a recursive CTE with [UNION ALL]: the working table is
    fed to the recursive term until it comes back empty; every working
    table is appended to the result.  [None] when [fuel] runs out. *)
Fixpoint folder_tree_rec (fuel : nat) (tbl : gmap uuid folder_row)
    (working : list uuid) : option (list uuid) :=
  match working with
  | [] => Some []
  | _ :: _ =>
      match fuel with
      | O => None
      | S fuel' =>
          rest ← folder_tree_rec fuel' tbl (folder_tree_step tbl working);
          Some (working ++ rest)
      end
  end.

Definition folder_tree (fuel : nat) (tbl : gmap uuid folder_row)
    (target_folder_id : option uuid) : option (list uuid) :=
  folder_tree_rec fuel tbl (folder_tree_base tbl target_folder_id).

(** [s.folder_id IN (SELECT id FROM folder_tree)]; NULL is never IN. *)
Definition folder_id_in (ft : list uuid) (s : source_row) : bool :=
  match s_folder_id s with
  | Some g => bool_decide (g ∈ ft)
  | None => false
  end.

(** [::INTEGER]: a 32-bit signed integer; the cast raises an error when
    the value is out of range. *)
Definition int4_max : Z := 2147483647.

Definition cast_integer (z : Z) : option Z :=
  if (- int4_max - 1 <=? z) && (z <=? int4_max) then Some z else None.

Definition archon_count_folder_sources (fuel : nat) (db : database)
    (target_folder_id : option uuid) : option Z :=
  ft ← folder_tree fuel (archon_knowledge_folders db) target_folder_id;
  cast_integer
    (Z.of_nat (length (filter (λ s, folder_id_in ft s = true) (archon_sources db)))).

(** *** Vocabulary for the statements *)

(** The [k]-th entry of [x]'s parent chain ([x] itself for [k = 0]). *)
Fixpoint nth_parent (tbl : gmap uuid folder_row) (k : nat) (x : uuid) : option uuid :=
  match k with
  | O => Some x
  | S k' => select_parent_id tbl x ≫= nth_parent tbl k'
  end.

Definition on_parent_chain (tbl : gmap uuid folder_row) (a x : uuid) : Prop :=
  ∃ k, (0 < k)%nat ∧ nth_parent tbl k x = Some a.

Definition no_folder_is_own_ancestor (tbl : gmap uuid folder_row) : Prop :=
  ∀ f, ¬ on_parent_chain tbl f f.

(** [g] is [f] or a transitive subfolder of [f]. *)
(** The parent chain of [x] ends within the depth cap of the walk. *)
Definition chain_within_cap (tbl : gmap uuid folder_row) (x : uuid) : Prop :=
  nth_parent tbl (S (Z.to_nat max_depth)) x = None.

(** The parent pointers form a finite forest: every parent exists and no
    folder is reached again from itself. *)
Definition forest (tbl : gmap uuid folder_row) : Prop :=
  parent_fk tbl ∧ no_folder_is_own_ancestor tbl.

Definition in_subtree (tbl : gmap uuid folder_row) (f g : uuid) : Prop :=
  ∃ k, nth_parent tbl k g = Some f.

(** The source sits in folder [f] or in one of its transitive subfolders. *)
Definition source_in_subtree (tbl : gmap uuid folder_row) (f : uuid)
    (s : source_row) : Prop :=
  ∃ g, s_folder_id s = Some g ∧ in_subtree tbl f g.

(** Number of elements of a list that satisfy a property. *)
Inductive count_of {A} (P : A → Prop) : list A → nat → Prop :=
| count_nil : count_of P [] 0
| count_yes x l n : P x → count_of P l n → count_of P (x :: l) (S n)
| count_no x l n : ¬ P x → count_of P l n → count_of P (x :: l) n.

(** The folders exactly [k] levels below an existing folder [f]: the
    working table of the recursive query at its [k]-th round. *)
Definition level (tbl : gmap uuid folder_row) (f : uuid) (k : nat) (g : uuid) : Prop :=
  is_Some (tbl !! f) ∧ nth_parent tbl k g = Some f.

(** The first [S n] entries of a parent chain, as a list. *)
Fixpoint chain_list (tbl : gmap uuid folder_row) (n : nat) (x : uuid) : list uuid :=
  x :: match n with
       | O => []
       | S n' => match select_parent_id tbl x with
                 | Some p => chain_list tbl n' p
                 | None => []
                 end
       end.

(** Executable checks of the schema constraints on a concrete table. *)
Definition parent_fk_check (tbl : gmap uuid folder_row) : bool :=
  forallb (λ '(_, r), match f_parent_id r with
                      | Some p => bool_decide (is_Some (tbl !! p))
                      | None => true
                      end) (map_to_list tbl).

Definition source_fk_check (db : database) : bool :=
  forallb (λ s, match s_folder_id s with
                | Some g => bool_decide (is_Some (archon_knowledge_folders db !! g))
                | None => true
                end) (archon_sources db).

(** Every parent key is smaller than the key of its child: a sufficient,
    executable condition for the absence of cycles. *)
Definition parents_decrease (tbl : gmap uuid folder_row) : bool :=
  forallb (λ '(id, r), match f_parent_id r with
                       | Some p => bool_decide (p < id)%N
                       | None => true
                       end) (map_to_list tbl).

(** A chain of [n + 1] folders: folder [0] is a root and folder [i + 1]
    has parent [i]. *)
Definition chain_row (i : nat) : uuid * folder_row :=
  (N.of_nat i,
   FolderRow "folder" (match i with O => None | S j => Some (N.of_nat j) end)).

Definition chain_table (n : nat) : gmap uuid folder_row :=
  list_to_map (chain_row <$> seq 0 (S n)).

End Migration.

(* ===================================================================== *)
(** ** JavaScript values used by the client code *)
(* ===================================================================== *)

Module JS.

(** A JavaScript string is a sequence of UTF-16 code units; [length] and
    the character tests of the code all work on code units. *)
Abbreviation js_string := (list N).

(** The code units of an ASCII literal. *)
Definition js (s : string) : js_string :=
  Ascii.N_of_ascii <$> String.list_ascii_of_string s.

(** A field declared [?: T | null]: absent, null or a value. *)
Inductive optional (A : Type) : Type :=
| Undefined
| Null
| Val (a : A).
Global Arguments Undefined {A}.
Global Arguments Null {A}.
Global Arguments Val {A} a.

Global Instance optional_eq_dec `{EqDecision A} : EqDecision (optional A).
Proof. solve_decision. Defined.

Definition optional_to_sum {A} (o : optional A) : bool + A :=
  match o with Undefined => inl false | Null => inl true | Val a => inr a end.

Definition optional_of_sum {A} (s : bool + A) : optional A :=
  match s with inl false => Undefined | inl true => Null | inr a => Val a end.

Global Instance optional_countable `{Countable A} : Countable (optional A).
Proof.
  apply (inj_countable' optional_to_sum optional_of_sum). by intros [].
Defined.

(** Truthiness of a [string | null | undefined]: only a non-empty string
    is truthy. *)
Definition truthy (o : optional js_string) : bool :=
  match o with
  | Val (_ :: _) => true
  | _ => false
  end.

(** [o || null]. *)
Definition or_null (o : optional js_string) : optional js_string :=
  if truthy o then o else Null.

(** [a === b] on [string | null | undefined]. *)
Definition strict_eq (a b : optional js_string) : bool := bool_decide (a = b).

(** [WhiteSpace] and [LineTerminator] of ECMAScript, the characters that
    [String.prototype.trim] strips: TAB, VT, FF, SP, NBSP, ZWNBSP, the
    other space separators, LF, CR, LS and PS. *)
Definition is_white_space (c : N) : bool :=
  bool_decide (c ∈ [9; 10; 11; 12; 13; 32; 160; 5760; 8232; 8233; 8239; 8287;
                    12288; 65279]%N)
  || ((8192 <=? c) && (c <=? 8202))%N.

Fixpoint trim_start (s : js_string) : js_string :=
  match s with
  | c :: s' => if is_white_space c then trim_start s' else s
  | [] => []
  end.

Definition trim_end (s : js_string) : js_string :=
  reverse (trim_start (reverse s)).

Definition trim (s : js_string) : js_string := trim_end (trim_start s).

(** [b.toString()] for a boolean. *)
Definition bool_toString (b : bool) : js_string :=
  if b then js "true" else js "false".

End JS.

(* ===================================================================== *)
(** ** features/knowledge/types/folders.ts *)
(* ===================================================================== *)

Module Folders.
Import JS.

(** [FolderMetadata]: free-form key-value pairs. *)
Abbreviation FolderMetadata := (list (js_string * js_string)).

(** [Folder], with the [_optimistic] marker that optimistic entities
    carry.  The counts and the position are JavaScript numbers that hold
    integers; they are kept as integers, on which the arithmetic of the
    code is exact. *)
Record Folder := mkFolder {
  id : js_string;
  name : js_string;
  description : optional js_string;
  parent_id : optional js_string;
  color : optional js_string;
  icon : optional js_string;
  position : Z;
  metadata : FolderMetadata;
  created_at : js_string;
  updated_at : js_string;
  source_count : Z;
  subfolder_count : Z;
  total_sources : Z;
  _optimistic : bool;
}.

Record FolderCreate := mkFolderCreate {
  fc_name : js_string;
  fc_description : optional js_string;
  fc_color : optional js_string;
  fc_icon : optional js_string;
  fc_position : Z;
  fc_metadata : FolderMetadata;
  fc_parent_id : optional js_string;
}.

Record SourceInFolder := mkSourceInFolder {
  src_id : js_string;
  src_source_id : js_string;
  src_title : optional js_string;
  src_folder_id : optional js_string;
  src_created_at : js_string;
  src_tags : list js_string;
}.

(** [FolderTreeNode | SourceInFolder], told apart by [node_type].  The
    induction principle for this nested type is [TreeNode_ind] below. *)
Local Unset Elimination Schemes.
Inductive TreeNode : Type :=
| FolderNode (folder : Folder) (children : list TreeNode)
| SourceNode (source : SourceInFolder).
Local Set Elimination Schemes.

Section TreeNode_ind.
Variable P : TreeNode → Prop.
Hypothesis P_folder : ∀ f ch, Forall P ch → P (FolderNode f ch).
Hypothesis P_source : ∀ s, P (SourceNode s).

Fixpoint TreeNode_ind (n : TreeNode) : P n :=
  match n with
  | FolderNode f ch =>
      P_folder f ch
        ((fix all (l : list TreeNode) : Forall P l :=
            match l with
            | [] => Forall_nil_2 P
            | n' :: l' => Forall_cons_2 P n' l' (TreeNode_ind n') (all l')
            end) ch)
  | SourceNode s => P_source s
  end.
End TreeNode_ind.

Record FolderTreeResponse := mkFolderTreeResponse {
  tree : list TreeNode;
  total_folders : Z;
  tree_total_sources : option Z;
}.

Record FolderListResponse := mkFolderListResponse {
  folders : list Folder;
  total : Z;
}.

Inductive NodeType := folder_type | source_type.

Record DragItemData := mkDragItemData {
  drag_type : NodeType;
  drag_id : js_string;
  drag_name : option js_string;
  drag_folder_id : optional js_string;
}.

Inductive DropZoneType := drop_folder | drop_root.

Record DropZoneData := mkDropZoneData {
  drop_type : DropZoneType;
  drop_folder_id : optional js_string;
}.

Record DragState := mkDragState {
  isDragging : bool;
  draggedItem : option DragItemData;
  draggedItems : list DragItemData;
  dropTarget : option DropZoneData;
  isValidDrop : bool;
}.

Global Instance NodeType_eq_dec : EqDecision NodeType.
Proof. solve_decision. Defined.
Global Instance DropZoneType_eq_dec : EqDecision DropZoneType.
Proof. solve_decision. Defined.

(** [{...node, subfolder_count: n}]. *)
Definition with_subfolder_count (f : Folder) (n : Z) : Folder :=
  mkFolder (id f) (name f) (description f) (parent_id f) (color f) (icon f)
    (position f) (metadata f) (created_at f) (updated_at f)
    (source_count f) n (total_sources f) (_optimistic f).

(** [for (const x of l) { const r = f(x); if (r) return r; } return null]. *)
Fixpoint first_result {A B} (f : A → option B) (l : list A) : option B :=
  match l with
  | [] => None
  | x :: l' => match f x with
               | Some r => Some r
               | None => first_result f l'
               end
  end.

(** [l.filter(p).map(f)] as one pass. *)
Fixpoint filter_map {A B} (p : A → bool) (f : A → B) (l : list A) : list B :=
  match l with
  | [] => []
  | x :: l' => if p x then f x :: filter_map p f l' else filter_map p f l'
  end.

(** *** Vocabulary for the statements *)

(** The identifiers of all folder nodes, in document order. *)
Fixpoint node_folder_ids (n : TreeNode) : list js_string :=
  match n with
  | FolderNode f ch => id f :: mjoin (node_folder_ids <$> ch)
  | SourceNode _ => []
  end.

Definition folder_ids (nodes : list TreeNode) : list js_string :=
  mjoin (node_folder_ids <$> nodes).

(** The number of nodes, folders and sources alike. *)
Fixpoint node_size (n : TreeNode) : nat :=
  match n with
  | FolderNode _ ch => S (list_sum (node_size <$> ch))
  | SourceNode _ => 1
  end.

Definition tree_size (nodes : list TreeNode) : nat :=
  list_sum (node_size <$> nodes).

(** [occurs nodes path n]: node [n] sits in the forest [nodes] below the
    folders whose identifiers, from the root down, are [path]. *)
Inductive occurs : list TreeNode → list js_string → TreeNode → Prop :=
| occurs_here nodes n :
    n ∈ nodes → occurs nodes [] n
| occurs_below nodes f ch path n :
    FolderNode f ch ∈ nodes → occurs ch path n →
    occurs nodes (id f :: path) n.

Definition is_folder_with_id (i : js_string) (n : TreeNode) : Prop :=
  match n with
  | FolderNode f _ => id f = i
  | SourceNode _ => False
  end.

(** Folder [T] is a descendant of folder [F]: [F] is on the path from the
    root to a folder node [T]. *)
Definition descendant_of (nodes : list TreeNode) (F T : js_string) : Prop :=
  ∃ path n, occurs nodes path n ∧ is_folder_with_id T n ∧ F ∈ path.

(** A folder with the given identifier and subfolder count, and an empty
    source, for examples. *)
Definition sample_folder (i : js_string) (subfolders : Z) : Folder :=
  mkFolder i (js "Folder") Null Null Null Null 0 [] (js "2024-01-01")
    (js "2024-01-01") 0 subfolders 0 false.

Definition sample_source (i : js_string) : SourceInFolder :=
  mkSourceInFolder i i Null Null (js "2024-01-01") [].

(** What identifies a node: its type and its identifier. *)
Definition node_key (n : TreeNode) : NodeType * js_string :=
  match n with
  | FolderNode f _ => (folder_type, id f)
  | SourceNode s => (source_type, src_id s)
  end.

End Folders.

(* ===================================================================== *)
(** ** features/knowledge/services: folderService *)
(* ===================================================================== *)

Module FolderService.
Import JS Folders.

Record ValidationResult := mkValidationResult {
  valid : bool;
  error : option string;
}.

(** The character class of the regular expression [invalidChars]:
    less-than, greater-than, colon, double quote, slash, backslash,
    vertical bar, question mark and asterisk. *)
Definition invalidChars : list N := [60; 62; 58; 34; 47; 92; 124; 63; 42]%N.

Definition invalidChars_test (s : js_string) : bool :=
  existsb (λ c, bool_decide (c ∈ invalidChars)) s.

Definition validateFolderName (name : js_string) : ValidationResult :=
  if bool_decide (name = []) || bool_decide (length (trim name) = 0%nat) then
    mkValidationResult false (Some "Folder name is required")
  else if bool_decide (255 < length name)%nat then
    mkValidationResult false (Some "Folder name must be 255 characters or less")
  else if invalidChars_test name then
    mkValidationResult false (Some "Folder name contains invalid characters")
  else mkValidationResult true None.

(** One round of the [for] loop of [findParentPath] on [node]. *)
Fixpoint findParentPath_node (nodeId : js_string) (path : list js_string)
    (node : TreeNode) : option (list js_string) :=
  match node with
  | FolderNode f children =>
      if decide (id f = nodeId) then Some path
      else first_result (findParentPath_node nodeId (path ++ [id f])) children
  | SourceNode _ => None
  end.

Definition findParentPath (nodeId : js_string) (tree : list TreeNode)
    (path : list js_string) : option (list js_string) :=
  first_result (findParentPath_node nodeId path) tree.

Definition wouldCreateCircularReference (folderId : js_string)
    (targetParentId : optional js_string) (folderTree : FolderTreeResponse) : bool :=
  match targetParentId with
  | Val (c :: t) =>
      let targetParentId := c :: t in
      if decide (folderId = targetParentId) then true
      else match findParentPath targetParentId (tree folderTree) [] with
           | Some targetPath => bool_decide (folderId ∈ targetPath)
           | None => false
           end
  | _ => false
  end.

(** One round of the [for] loop of [search] in [findFolderInTree]. *)
Fixpoint search_node (folderId : js_string) (node : TreeNode) : option TreeNode :=
  match node with
  | FolderNode f children =>
      if decide (id f = folderId) then Some node
      else first_result (search_node folderId) children
  | SourceNode _ => None
  end.

Definition findFolderInTree (folderId : js_string)
    (folderTree : FolderTreeResponse) : option TreeNode :=
  first_result (search_node folderId) (tree folderTree).

(** The request handed to [callAPIWithETag]. *)
Inductive Method := GET | POST | PUT | DELETE.

Record Request := mkRequest {
  endpoint : js_string;
  method : Method;
}.

(** [new URLSearchParams({ k: v }).toString()] for a key and a value made
    of letters and underscores, which the serialiser leaves as they are. *)
Definition URLSearchParams_toString (k v : js_string) : js_string :=
  k ++ js "=" ++ v.

(** [deleteFolder(folderId, moveContentsToParent = true)]: the default
    applies when the argument is absent. *)
Definition deleteFolder (folderId : js_string)
    (moveContentsToParent : option bool) : Request :=
  let moveContentsToParent := default true moveContentsToParent in
  let params :=
    URLSearchParams_toString (js "move_contents_to_parent")
      (bool_toString moveContentsToParent) in
  mkRequest (js "/api/folders/" ++ folderId ++ js "?" ++ params) DELETE.

End FolderService.

(* ===================================================================== *)
(** ** features/knowledge/hooks/useDragAndDrop.ts *)
(* ===================================================================== *)

Module DragAndDrop.
Import JS Folders FolderService.

Definition validateDrop (draggedItem : DragItemData)
    (draggedItems : list DragItemData) (dropZone : DropZoneData)
    (folderTree : option FolderTreeResponse) : bool :=
  (* Can't drop on itself *)
  if bool_decide (drag_type draggedItem = folder_type)
     && bool_decide (drop_type dropZone = drop_folder)
     && strict_eq (Val (drag_id draggedItem)) (drop_folder_id dropZone)
  then false
  (* If dragging a folder, check for circular reference *)
  else if
    match folderTree with
    | Some folderTree =>
        bool_decide (drag_type draggedItem = folder_type)
        && bool_decide (drop_type dropZone = drop_folder)
        && (let targetFolderId := drop_folder_id dropZone in
            truthy targetFolderId
            && wouldCreateCircularReference (drag_id draggedItem)
                 targetFolderId folderTree)
    | None => false
    end
  then false
  (* Can't drop source into its current folder *)
  else if
    bool_decide (drag_type draggedItem = source_type)
    && (let targetFolderId :=
          if bool_decide (drop_type dropZone = drop_root) then Null
          else or_null (drop_folder_id dropZone) in
        strict_eq (drag_folder_id draggedItem) targetFolderId)
  then false
  (* All multi-select items must be sources *)
  else if
    bool_decide (1 < length draggedItems)%nat
    && existsb (λ item, bool_decide (drag_type item ≠ source_type)) draggedItems
  then false
  else true.

(** The optional callbacks of the hook; each one resolves ([true]) or
    rejects ([false]). *)
Record Callbacks := mkCallbacks {
  onMoveSource : option (js_string → optional js_string → bool);
  onMoveFolder : option (js_string → optional js_string → bool);
  onBatchMove : option (list js_string → optional js_string → bool);
}.

(** What [handleDrop] does to the outside world. *)
Inductive Effect :=
| MoveFolderCall (folderId : js_string) (newParentId : optional js_string)
| BatchMoveCall (sourceIds : list js_string) (folderId : optional js_string)
| MoveSourceCall (sourceId : js_string) (folderId : optional js_string)
| ConsoleError.

(** [await cb?.(args)] inside [try { } catch { console.error }]. *)
Definition try_call {A} (cb : option (A → optional js_string → bool))
    (call : A → optional js_string → Effect) (a : A)
    (target : optional js_string) : list Effect :=
  match cb with
  | Some f => call a target :: (if f a target then [] else [ConsoleError])
  | None => []
  end.

Definition handleDragEnd : DragState :=
  mkDragState false None [] None false.

Definition handleDrop (cbs : Callbacks) (dragState : DragState)
    (dropZone : DropZoneData) : list Effect * DragState :=
  if negb (isDragging dragState) || negb (isValidDrop dragState)
     || negb (bool_decide (is_Some (draggedItem dragState)))
  then ([], dragState)
  else
    match draggedItem dragState with
    | Some draggedItem =>
        let draggedItems := draggedItems dragState in
        let targetFolderId :=
          if bool_decide (drop_type dropZone = drop_root) then Null
          else or_null (drop_folder_id dropZone) in
        let effects :=
          if bool_decide (drag_type draggedItem = folder_type) then
            (* Move folder *)
            try_call (onMoveFolder cbs) MoveFolderCall
              (drag_id draggedItem) targetFolderId
          else if bool_decide (1 < length draggedItems)%nat then
            (* Batch move sources *)
            let sourceIds := drag_id <$> draggedItems in
            try_call (onBatchMove cbs) BatchMoveCall sourceIds targetFolderId
          else
            (* Move single source *)
            try_call (onMoveSource cbs) MoveSourceCall
              (drag_id draggedItem) targetFolderId in
        (effects, handleDragEnd)
    | None => ([], dragState)
    end.

End DragAndDrop.

(* ===================================================================== *)
(** ** features/knowledge/hooks/useFolderQueries.ts *)
(* ===================================================================== *)

Module FolderQueries.
Import JS Folders FolderService.

(** *** Query keys *)

(** An element of a query key: a string, or the object [{ parentId }]. *)
Inductive KeyPart :=
| KStr (s : js_string)
| KObj (parentId : optional js_string).

Global Instance KeyPart_eq_dec : EqDecision KeyPart.
Proof. solve_decision. Defined.

Abbreviation QueryKey := (list KeyPart).

Module folderKeys.
Definition all : QueryKey := [KStr (js "folders")].
Definition lists : QueryKey := all ++ [KStr (js "list")].
Definition list (parentId : optional js_string) : QueryKey :=
  lists ++ [KObj parentId].
Definition tree : QueryKey := all ++ [KStr (js "tree")].
Definition details : QueryKey := all ++ [KStr (js "detail")].
Definition detail (id : js_string) : QueryKey := details ++ [KStr id].
Definition contents (id : js_string) : QueryKey :=
  all ++ [KStr (js "contents"); KStr id].
End folderKeys.

(** A query filter [{ queryKey }] selects the queries whose key starts
    with the given one. *)
Definition matches (filter key : QueryKey) : bool :=
  bool_decide (filter `prefix_of` key).

(** *** The query client *)

(** A plain object, as the folder under a detail query is handled: it is
    only read as a whole and spread. *)
Inductive JSValue :=
| VUndefined
| VNull
| VBool (b : bool)
| VNum (z : Z)
| VStr (s : js_string)
| VMeta (m : FolderMetadata).

Abbreviation JSObject := (gmap string JSValue).

(** The cached data of the folder queries, one store per kind of query.
    A query is present with data ([Some (Some d)]), present without data
    ([Some None]) or absent ([None]). *)
Record QueryCache := mkQueryCache {
  tree_query : option (option FolderTreeResponse);
  list_queries : gmap (optional js_string) (option FolderListResponse);
  detail_queries : gmap js_string (option JSObject);
}.

Inductive Event :=
| CancelQueries (queryKey : QueryKey)
| SetQueryData (queryKey : QueryKey)
| ShowToast (title : string).

(** The client: its cache and the calls made on it so far, oldest
    first. *)
Record QueryClient := mkQueryClient {
  cache : QueryCache;
  events : list Event;
}.

(** Handlers run against the query client. *)
Definition M (A : Type) : Type := QueryClient → A * QueryClient.

Global Instance M_ret : MRet M := λ A a qc, (a, qc).
Global Instance M_bind : MBind M := λ A B f m qc,
  let '(a, qc') := m qc in f a qc'.

Definition emit (e : Event) : M () := λ qc,
  ((), mkQueryClient (cache qc) (events qc ++ [e])).

Definition get_cache : M QueryCache := λ qc, (cache qc, qc).

Definition put_cache (c : QueryCache) : M () := λ qc,
  ((), mkQueryClient c (events qc)).

(** [await queryClient.cancelQueries({ queryKey })]: in-flight fetches of
    the matching queries are dropped; cached data is untouched. *)
Definition cancelQueries (queryKey : QueryKey) : M () :=
  emit (CancelQueries queryKey).

(** [queryClient.getQueryData(key)]: the data, or undefined. *)
Definition getQueryData_tree : M (option FolderTreeResponse) :=
  c ← get_cache; mret (mjoin (tree_query c)).

Definition getQueryData_detail (id : js_string) : M (option JSObject) :=
  c ← get_cache; mret (mjoin (detail_queries c !! id)).

(** [queryClient.getQueriesData({ queryKey: folderKeys.lists() })]: every
    list query with its data; [parentId] stands for its key. *)
Definition getQueriesData_lists
    : M (list (optional js_string * option FolderListResponse)) :=
  c ← get_cache; mret (map_to_list (list_queries c)).

(** [queryClient.setQueryData(key, updater)]: the updater is applied to
    the current data; an undefined result leaves the cache alone. *)
Definition setQueryData_tree
    (updater : option FolderTreeResponse → option FolderTreeResponse) : M () :=
  emit (SetQueryData folderKeys.tree);;
  c ← get_cache;
  match updater (mjoin (tree_query c)) with
  | Some data =>
      put_cache (mkQueryCache (Some (Some data)) (list_queries c) (detail_queries c))
  | None => mret ()
  end.

Definition setQueryData_list (parentId : optional js_string)
    (updater : option FolderListResponse → option FolderListResponse) : M () :=
  emit (SetQueryData (folderKeys.list parentId));;
  c ← get_cache;
  match updater (mjoin (list_queries c !! parentId)) with
  | Some data =>
      put_cache (mkQueryCache (tree_query c)
                   (<[parentId := Some data]> (list_queries c)) (detail_queries c))
  | None => mret ()
  end.

Definition setQueryData_detail (id : js_string)
    (updater : option JSObject → option JSObject) : M () :=
  emit (SetQueryData (folderKeys.detail id));;
  c ← get_cache;
  match updater (mjoin (detail_queries c !! id)) with
  | Some data =>
      put_cache (mkQueryCache (tree_query c) (list_queries c)
                   (<[id := Some data]> (detail_queries c)))
  | None => mret ()
  end.

Definition showToast (title : string) : M () := emit (ShowToast title).

(** [l.forEach(f)]. *)
Fixpoint forEach {A} (l : list A) (f : A → M ()) : M () :=
  match l with
  | [] => mret ()
  | x :: l' => f x;; forEach l' f
  end.

(** [if (c) { body }]. *)
Definition when (c : bool) (body : M ()) : M () :=
  if c then body else mret ().

(** *** Optimistic entities *)

(** What the handlers draw from outside: generated identifiers and the
    clock. *)
Record Env := mkEnv {
  optimistic_id : js_string;
  entity_id : js_string;
  now_created : js_string;
  now_updated : js_string;
}.

(** Modelled from the spec: the helpers of shared/utils/optimistic, which
    are not among the sources; as in the mock of the test suite,
    [createOptimisticId] returns a generated identifier and
    [createOptimisticEntity] returns its argument with a generated [id]
    and the [_optimistic] marker. *)
Definition createOptimisticId (env : Env) : js_string := optimistic_id env.

Definition createOptimisticEntity (env : Env)
    (data : js_string → bool → Folder) : Folder :=
  data (entity_id env) true.

(** *** useCreateFolder *)

Record CreateContext := mkCreateContext {
  create_previousTree : option FolderTreeResponse;
  create_previousLists : list (optional js_string * option FolderListResponse);
  tempFolderId : js_string;
}.

Definition optimisticFolder (env : Env) (folderData : FolderCreate) : Folder :=
  createOptimisticEntity env (λ id _optimistic,
    mkFolder id
      (fc_name folderData)
      (or_null (fc_description folderData))
      (or_null (fc_parent_id folderData))
      (or_null (fc_color folderData))
      (or_null (fc_icon folderData))
      (fc_position folderData)
      (fc_metadata folderData)
      (now_created env)
      (now_updated env)
      0 0 0
      _optimistic).

(** [addToParent], on one node of the mapped array. *)
Fixpoint addToParent_node (parent_id : js_string) (treeNode : TreeNode)
    (node : TreeNode) : TreeNode :=
  match node with
  | FolderNode f children =>
      if decide (id f = parent_id) then
        FolderNode (with_subfolder_count f (subfolder_count f + 1))
          (children ++ [treeNode])
      else FolderNode f (addToParent_node parent_id treeNode <$> children)
  | SourceNode _ => node
  end.

Definition addToParent (parent_id : js_string) (treeNode : TreeNode)
    (nodes : list TreeNode) : list TreeNode :=
  addToParent_node parent_id treeNode <$> nodes.

(** The updater handed to [setQueryData] for the tree. *)
Definition create_tree_updater (folderData : FolderCreate)
    (optimisticFolder : Folder) (old : option FolderTreeResponse)
    : option FolderTreeResponse :=
  match old with
  | None => None
  | Some old =>
      let treeNode := FolderNode optimisticFolder [] in
      match fc_parent_id folderData with
      | Val (c :: p) =>
          (* find parent and add to its children *)
          Some (mkFolderTreeResponse
                  (addToParent (c :: p) treeNode (tree old))
                  (total_folders old + 1) (tree_total_sources old))
      | _ =>
          (* no parent: add to root *)
          Some (mkFolderTreeResponse
                  (tree old ++ [treeNode])
                  (total_folders old + 1) (tree_total_sources old))
      end
  end.

Definition matchesParent (listKey_parentId folderData_parent_id : optional js_string)
    : bool :=
  strict_eq listKey_parentId folderData_parent_id
  || (negb (truthy listKey_parentId) && negb (truthy folderData_parent_id))
  || (strict_eq listKey_parentId Null && negb (truthy folderData_parent_id)).

(** The updater handed to [setQueryData] for the list with key
    [{ parentId }]. *)
Definition create_list_updater (folderData : FolderCreate)
    (optimisticFolder : Folder) (parentId : optional js_string)
    (old : option FolderListResponse) : option FolderListResponse :=
  match old with
  | None => None
  | Some old =>
      if matchesParent parentId (fc_parent_id folderData) then
        Some (mkFolderListResponse (folders old ++ [optimisticFolder]) (total old + 1))
      else Some old
  end.

Definition useCreateFolder_onMutate (env : Env) (folderData : FolderCreate)
    : M CreateContext :=
  (* Cancel any outgoing refetches *)
  cancelQueries folderKeys.tree;;
  cancelQueries folderKeys.lists;;
  (* Snapshot previous values *)
  previousTree ← getQueryData_tree;
  previousLists ← getQueriesData_lists;
  let tempFolderId := createOptimisticId env in
  let optimisticFolder := optimisticFolder env folderData in
  (* Optimistically update the tree *)
  when (bool_decide (is_Some previousTree))
    (setQueryData_tree (create_tree_updater folderData optimisticFolder));;
  (* Optimistically update the list queries *)
  forEach previousLists (λ '(parentId, _),
    setQueryData_list parentId
      (create_list_updater folderData optimisticFolder parentId));;
  mret (mkCreateContext previousTree previousLists tempFolderId).

Definition useCreateFolder_onError (context : option CreateContext) : M () :=
  (* Rollback optimistic updates *)
  match context ≫= create_previousTree with
  | Some previousTree => setQueryData_tree (λ _, Some previousTree)
  | None => mret ()
  end;;
  match context with
  | Some context =>
      forEach (create_previousLists context) (λ '(parentId, previousData),
        setQueryData_list parentId (λ _, previousData))
  | None => mret ()
  end;;
  showToast "Error creating folder".

(** *** useUpdateFolder *)

Record UpdateContext := mkUpdateContext {
  update_previousFolder : option JSObject;
  update_previousTree : option FolderTreeResponse;
}.

(** [{ ...old, ...updates, updated_at: now }]. *)
Definition update_detail_updater (env : Env) (updates : JSObject)
    (old : option JSObject) : option JSObject :=
  match old with
  | None => None
  | Some old => Some (<["updated_at" := VStr (now_updated env)]> (updates ∪ old))
  end.

Definition useUpdateFolder_onMutate (env : Env) (folderId : js_string)
    (updates : JSObject) : M UpdateContext :=
  (* Cancel outgoing queries *)
  cancelQueries (folderKeys.detail folderId);;
  cancelQueries folderKeys.tree;;
  (* Snapshot previous values *)
  previousFolder ← getQueryData_detail folderId;
  previousTree ← getQueryData_tree;
  (* Optimistically update folder detail *)
  when (bool_decide (is_Some previousFolder))
    (setQueryData_detail folderId (update_detail_updater env updates));;
  mret (mkUpdateContext previousFolder previousTree).

Definition useUpdateFolder_onError (folderId : js_string)
    (context : option UpdateContext) : M () :=
  (* Rollback *)
  match context ≫= update_previousFolder with
  | Some previousFolder => setQueryData_detail folderId (λ _, Some previousFolder)
  | None => mret ()
  end;;
  match context ≫= update_previousTree with
  | Some previousTree => setQueryData_tree (λ _, Some previousTree)
  | None => mret ()
  end;;
  showToast "Error updating folder".

(** *** useDeleteFolder *)

Record DeleteContext := mkDeleteContext {
  delete_previousTree : option FolderTreeResponse;
}.

(** The argument of the mutation: [{ folderId, moveContentsToParent? }]. *)
Record DeleteVariables := mkDeleteVariables {
  dv_folderId : js_string;
  dv_moveContentsToParent : option bool;
}.

(** [({ folderId, moveContentsToParent = true }) =>
     folderService.deleteFolder(folderId, moveContentsToParent)]. *)
Definition useDeleteFolder_mutationFn (variables : DeleteVariables) : Request :=
  let folderId := dv_folderId variables in
  let moveContentsToParent := default true (dv_moveContentsToParent variables) in
  deleteFolder folderId (Some moveContentsToParent).

(** The predicate of the [filter] in [removeFolder]. *)
Definition not_the_folder (folderId : js_string) (node : TreeNode) : bool :=
  match node with
  | FolderNode f _ => negb (bool_decide (id f = folderId))
  | SourceNode _ => true
  end.

(** The function of the [map] in [removeFolder]. *)
Fixpoint removeFolder_node (folderId : js_string) (node : TreeNode) : TreeNode :=
  match node with
  | FolderNode f children =>
      FolderNode f
        (filter_map (not_the_folder folderId) (removeFolder_node folderId) children)
  | SourceNode _ => node
  end.

Definition removeFolder (folderId : js_string) (nodes : list TreeNode)
    : list TreeNode :=
  filter_map (not_the_folder folderId) (removeFolder_node folderId) nodes.

Definition delete_tree_updater (folderId : js_string)
    (old : option FolderTreeResponse) : option FolderTreeResponse :=
  match old with
  | None => None
  | Some old =>
      Some (mkFolderTreeResponse
              (removeFolder folderId (tree old))
              (Z.max 0 (total_folders old - 1)) (tree_total_sources old))
  end.

Definition useDeleteFolder_onMutate (variables : DeleteVariables)
    : M DeleteContext :=
  let folderId := dv_folderId variables in
  (* Cancel outgoing queries *)
  cancelQueries folderKeys.tree;;
  (* Snapshot previous tree *)
  previousTree ← getQueryData_tree;
  (* Optimistically remove from tree *)
  when (bool_decide (is_Some previousTree))
    (setQueryData_tree (delete_tree_updater folderId));;
  mret (mkDeleteContext previousTree).

Definition useDeleteFolder_onError (context : option DeleteContext) : M () :=
  (* Rollback *)
  match context ≫= delete_previousTree with
  | Some previousTree => setQueryData_tree (λ _, Some previousTree)
  | None => mret ()
  end;;
  showToast "Error deleting folder".

(** *** Vocabulary for the statements *)

(** The parent node after the optimistic insertion of [treeNode]. *)
Definition with_new_child (treeNode : TreeNode) (node : TreeNode) : TreeNode :=
  match node with
  | FolderNode f children =>
      FolderNode (with_subfolder_count f (subfolder_count f + 1))
        (children ++ [treeNode])
  | SourceNode _ => node
  end.

(** The effect of one [setQueryData] on the cache. *)
Definition write_tree
    (updater : option FolderTreeResponse → option FolderTreeResponse)
    (c : QueryCache) : QueryCache :=
  match updater (mjoin (tree_query c)) with
  | Some data => mkQueryCache (Some (Some data)) (list_queries c) (detail_queries c)
  | None => c
  end.

Definition write_list (parentId : optional js_string)
    (updater : option FolderListResponse → option FolderListResponse)
    (c : QueryCache) : QueryCache :=
  match updater (mjoin (list_queries c !! parentId)) with
  | Some data =>
      mkQueryCache (tree_query c) (<[parentId := Some data]> (list_queries c))
        (detail_queries c)
  | None => c
  end.

Definition write_detail (id : js_string)
    (updater : option JSObject → option JSObject) (c : QueryCache) : QueryCache :=
  match updater (mjoin (detail_queries c !! id)) with
  | Some data =>
      mkQueryCache (tree_query c) (list_queries c)
        (<[id := Some data]> (detail_queries c))
  | None => c
  end.

(** The client a handler leaves behind, and the calls it added. *)
Definition exec {A} (m : M A) (qc : QueryClient) : QueryClient := (m qc).2.

Definition fresh_client (c : QueryCache) : QueryClient := mkQueryClient c [].


End FolderQueries.

(* ===================================================================== *)
(** ** migration/0.1.0/012_add_knowledge_folders.sql: the other helpers *)
(* ===================================================================== *)

Module MigrationHelpers.
Import Migration.

(** The [WHILE] loop of [archon_get_folder_path].  [SELECT name, parent_id
    INTO current_name, current_parent] leaves both NULL when no row
    matches; [name] is declared NOT NULL, so [current_name IS NULL] holds
    exactly in that case and the loop exits.  [fuel] bounds the number of
    iterations of the model and [None] means it ran out. *)
Fixpoint path_loop (fuel : nat) (tbl : gmap uuid folder_row)
    (path : list string) (current_id : option uuid) (current_depth : Z)
    : option (list string) :=
  match current_id with
  | Some c =>
      if current_depth <? max_depth then
        match tbl !! c with
        | None => Some path
        | Some r =>
            match fuel with
            | O => None
            | S fuel' =>
                (* array_prepend(current_name, path) *)
                path_loop fuel' tbl (f_name r :: path) (f_parent_id r)
                  (current_depth + 1)
            end
        end
      else Some path
  | None => Some path
  end.

Definition archon_get_folder_path (tbl : gmap uuid folder_row)
    (target_folder_id : option uuid) : option (list string) :=
  match target_folder_id with
  | None => Some []
  | Some _ => path_loop (Z.to_nat max_depth) tbl [] target_folder_id 0
  end.

(** [WHERE parent_id = target_folder_id]; never true for a NULL target. *)
Definition is_child_of (target_folder_id : option uuid)
    (row : uuid * folder_row) : Prop :=
  match target_folder_id with
  | Some t => f_parent_id row.2 = Some t
  | None => False
  end.

Global Instance is_child_of_dec target row : Decision (is_child_of target row).
Proof. destruct target; simpl; apply _. Defined.

Definition archon_count_subfolders (tbl : gmap uuid folder_row)
    (target_folder_id : option uuid) : option Z :=
  cast_integer
    (Z.of_nat (length (filter (is_child_of target_folder_id) (map_to_list tbl)))).

(** *** Vocabulary for the statements *)

(** The names met on the way up from [current_id], at most [n] of them,
    the starting folder first. *)
Fixpoint names_upto (n : nat) (tbl : gmap uuid folder_row)
    (current_id : option uuid) : list string :=
  match n, current_id with
  | S n', Some c =>
      match tbl !! c with
      | Some r => f_name r :: names_upto n' tbl (f_parent_id r)
      | None => []
      end
  | _, _ => []
  end.

(** A table whose every folder is its own parent's child in a cycle of
    length [n + 1]: folder [0] has parent [n], folder [i + 1] has parent
    [i]. *)
Definition ring_table (n : nat) : gmap uuid folder_row :=
  <[0%N := FolderRow "folder" (Some (N.of_nat n))]> (chain_table n).

End MigrationHelpers.

(* ===================================================================== *)
(** ** features/knowledge/services: folderService.getFolderPath *)
(* ===================================================================== *)

Module FolderServicePath.
Import JS Folders FolderService.

(** [for (const x of l) { if (f(x)) return true; } return false], where
    [f] may write to the array [path] that the closure shares. *)
Fixpoint first_true {A S} (f : A → S → bool * S) (l : list A) (s : S) : bool * S :=
  match l with
  | [] => (false, s)
  | x :: l' =>
      let '(b, s') := f x s in
      if b then (true, s') else first_true f l' s'
  end.

(** One round of the [for] loop of [findPath] on [node]; [path] is the
    array of the enclosing [getFolderPath], threaded through. *)
Fixpoint findPath_node (nodeId : js_string) (currentPath : list js_string)
    (node : TreeNode) (path : list js_string) : bool * list js_string :=
  match node with
  | FolderNode f children =>
      if decide (id f = nodeId) then
        (* path.push(...currentPath, node.name) *)
        (true, path ++ currentPath ++ [name f])
      else
        first_true (findPath_node nodeId (currentPath ++ [name f])) children path
  | SourceNode _ => (false, path)
  end.

Definition findPath (nodeId : js_string) (tree : list TreeNode)
    (currentPath : list js_string) (path : list js_string)
    : bool * list js_string :=
  first_true (findPath_node nodeId currentPath) tree path.

Definition getFolderPath (folderId : js_string) (folderTree : FolderTreeResponse)
    : list js_string :=
  (findPath folderId (tree folderTree) [] []).2.

(** *** Vocabulary for the statements *)

(** The three searches of the service walk the tree in the same order,
    so they find the same node: on a forest, they all fail or all
    succeed, and then the path of identifiers and the path of names lead
    to the node that [search] returns. *)
Definition searches_agree (T : js_string) (nodes : list TreeNode)
    (found : option TreeNode) (parentPath : option (list js_string))
    (idp cp path : list js_string) (r : bool * list js_string) : Prop :=
  match found with
  | None => parentPath = None ∧ r = (false, path)
  | Some m =>
      ∃ f ch ids names,
        m = FolderNode f ch ∧ id f = T ∧
        parentPath = Some (idp ++ ids) ∧ occurs nodes ids m ∧
        r = (true, path ++ cp ++ names ++ [name f]) ∧
        length names = length ids
  end.

End FolderServicePath.

(* ===================================================================== *)
(** ** features/knowledge/hooks/useDragAndDrop.ts: the drag state *)
(* ===================================================================== *)

Module DragAndDropHook.
Import JS Folders FolderService DragAndDrop.

(** The state [useState] starts with. *)
Definition initialDragState : DragState :=
  mkDragState false None [] None false.

(** [selectedSourceIds] is a [Set<string>]; it is kept as the list of its
    elements in insertion order, as [Array.from] walks it. *)
Definition handleDragStart (selectedSourceIds : list js_string)
    (item : DragItemData) : DragState :=
  (* If dragging a selected source, include all selected sources *)
  let draggedItems :=
    if bool_decide (drag_type item = source_type)
       && bool_decide (drag_id item ∈ selectedSourceIds)
    then (λ id, mkDragItemData source_type id None Undefined) <$> selectedSourceIds
    else [item] in
  mkDragState true (Some item) draggedItems None false.

Definition handleDragOver (folderTree : option FolderTreeResponse)
    (dragState : DragState) (dropZone : DropZoneData) : DragState :=
  if negb (isDragging dragState)
     || negb (bool_decide (is_Some (draggedItem dragState)))
  then dragState
  else
    match draggedItem dragState with
    | Some draggedItem =>
        let isValid :=
          validateDrop draggedItem (draggedItems dragState) dropZone folderTree in
        mkDragState (isDragging dragState) (Some draggedItem)
          (draggedItems dragState) (Some dropZone) isValid
    | None => dragState
    end.


(** *** Vocabulary for the statements *)



(** The target handed to the move callbacks for a drop zone. *)
Definition drop_target_id (dropZone : DropZoneData) : optional js_string :=
  if bool_decide (drop_type dropZone = drop_root) then Null
  else or_null (drop_folder_id dropZone).



(** The one callback that a drop of [item] stands for, with its
    arguments: the folder move for a folder, the batch move of the whole
    selection for a selected source when several are selected, the move
    of the source alone otherwise. *)
Definition move_call (selectedSourceIds : list js_string) (item : DragItemData)
    (target : optional js_string) : Effect :=
  if bool_decide (drag_type item = folder_type) then
    MoveFolderCall (drag_id item) target
  else if bool_decide (drag_id item ∈ selectedSourceIds)
          && bool_decide (1 < length selectedSourceIds)%nat then
    BatchMoveCall selectedSourceIds target
  else MoveSourceCall (drag_id item) target.

(** How that callback ends: it is absent ([None]), it resolves
    ([Some true]) or it rejects ([Some false]). *)
Definition move_result (cbs : Callbacks) (selectedSourceIds : list js_string)
    (item : DragItemData) (target : optional js_string) : option bool :=
  if bool_decide (drag_type item = folder_type) then
    (λ f, f (drag_id item) target) <$> onMoveFolder cbs
  else if bool_decide (drag_id item ∈ selectedSourceIds)
          && bool_decide (1 < length selectedSourceIds)%nat then
    (λ f, f selectedSourceIds target) <$> onBatchMove cbs
  else (λ f, f (drag_id item) target) <$> onMoveSource cbs.

End DragAndDropHook.

(* ===================================================================== *)
(** ** features/projects/hooks/useSelectedProject.ts *)
(* ===================================================================== *)

Module SelectedProject.
Import JS.

Definition STORAGE_KEY : js_string := js "archon:selectedProjectId".

(** [window.localStorage]: its items, and whether access to it throws
    (storage disabled or out of reach). *)
Record Storage := mkStorage {
  items : gmap js_string js_string;
  throws : bool;
}.

(** A [string | null] is truthy when it is a non-empty string. *)
Definition truthy_id (projectId : option js_string) : bool :=
  match projectId with
  | Some (_ :: _) => true
  | _ => false
  end.

Definition getInitialValue (localStorage : Storage) : option js_string :=
  if throws localStorage then None
  else items localStorage !! STORAGE_KEY.

(** [updateSelectedProjectId]: the new React state and the storage after
    the call. *)
Definition updateSelectedProjectId (projectId : option js_string)
    (localStorage : Storage) : option js_string * Storage :=
  (projectId,
   if throws localStorage then localStorage
   else
     match projectId with
     | Some (c :: p) =>
         mkStorage (<[STORAGE_KEY := c :: p]> (items localStorage)) false
     | _ => mkStorage (delete STORAGE_KEY (items localStorage)) false
     end).

End SelectedProject.

(* ===================================================================== *)
(** ** features/knowledge/components: FolderTree, CreateFolderDialog *)
(* ===================================================================== *)

Module FolderTreeComponent.
Import JS.

(** The updater of [handleToggleExpand] on the set of expanded folders. *)
Definition handleToggleExpand (folderId : js_string) (prev : gset js_string)
    : gset js_string :=
  if bool_decide (folderId ∈ prev) then prev ∖ {[folderId]}
  else prev ∪ {[folderId]}.

End FolderTreeComponent.

Module CreateFolderDialog.
Import JS Folders FolderService.

(** The form state of the dialog. *)
Record DialogState := mkDialogState {
  dlg_name : js_string;
  dlg_description : js_string;
  dlg_error : option string;
}.

(** How [createFolder.mutateAsync] ends: with a response, or with an
    exception that carries a message when it is an [Error]. *)
Inductive MutationOutcome :=
| Resolved (success : bool) (folder : option Folder)
| Rejected (message : option string).

(** How a call of the [onSuccess] callback ends: it returns, or it
    throws, with a message when what it throws is an [Error]. *)
Inductive CallOutcome :=
| Returns
| Throws (message : option string).

Inductive DialogEffect :=
| MutateAsync (folderData : FolderCreate)
| OnSuccess (folderId : js_string)
| OnOpenChange (open : bool).

(** [s.trim() || undefined]. *)
Definition trim_or_undefined (s : js_string) : optional js_string :=
  match trim s with
  | [] => Undefined
  | t => Val t
  end.

(** [validation.error || "Invalid folder name"]. *)
Definition error_or_default (error : option string) : string :=
  match error with
  | Some (String c e) => String c e
  | _ => "Invalid folder name"
  end.

Definition handleClose (st : DialogState) : list DialogEffect * DialogState :=
  ([OnOpenChange false], mkDialogState [] [] None).

(** The object handed to [createFolder.mutateAsync]. *)
Definition folderData_of (parentId : optional js_string) (st : DialogState)
    : FolderCreate :=
  mkFolderCreate (trim (dlg_name st))
    (trim_or_undefined (dlg_description st)) Undefined Undefined
    0 [] (or_null parentId).

(** [setError(err instanceof Error ? err.message : "Failed to create
    folder")] in the [catch] block. *)
Definition caught (message : option string) (st : DialogState) : DialogState :=
  mkDialogState (dlg_name st) (dlg_description st)
    (Some (default "Failed to create folder" message)).

(** [handleSubmit]: the optional [onSuccess] callback runs inside the
    [try] block, before [handleClose]; when it throws, the [catch] block
    takes over and the dialog is not closed. *)
Definition handleSubmit (parentId : optional js_string)
    (onSuccess : option (js_string → CallOutcome))
    (mutateAsync : FolderCreate → MutationOutcome) (st : DialogState)
    : list DialogEffect * DialogState :=
  (* setError(null) *)
  let st := mkDialogState (dlg_name st) (dlg_description st) None in
  (* Validate folder name *)
  let validation := validateFolderName (dlg_name st) in
  if negb (valid validation) then
    ([], mkDialogState (dlg_name st) (dlg_description st)
           (Some (error_or_default (error validation))))
  else
    let folderData := folderData_of parentId st in
    match mutateAsync folderData with
    | Resolved true (Some folder) =>
        (* onSuccess?.(result.folder.id); handleClose() *)
        match onSuccess with
        | Some cb =>
            match cb (id folder) with
            | Returns =>
                let '(closing, st') := handleClose st in
                (MutateAsync folderData :: OnSuccess (id folder) :: closing, st')
            | Throws message =>
                ([MutateAsync folderData; OnSuccess (id folder)],
                 caught message st)
            end
        | None =>
            let '(closing, st') := handleClose st in
            (MutateAsync folderData :: closing, st')
        end
    | Resolved _ _ => ([MutateAsync folderData], st)
    | Rejected message => ([MutateAsync folderData], caught message st)
    end.

(** *** Vocabulary for the statements *)


End CreateFolderDialog.

(* ===================================================================== *)
(** * Properties *)
(* ===================================================================== *)

Section examples.
Import Migration JS Folders FolderService DragAndDrop FolderQueries.

Example walk_finds_grandparent :
  archon_is_folder_descendant (chain_table 3) (Some 3%N) (Some 1%N) = Some true.
Proof. reflexivity. Qed.

Example walk_ignores_children :
  archon_is_folder_descendant (chain_table 3) (Some 1%N) (Some 3%N) = Some false.
Proof. reflexivity. Qed.

Example walk_null_target :
  archon_is_folder_descendant (chain_table 3) None (Some 1%N) = Some false.
Proof. reflexivity. Qed.

Example count_two_levels :
  archon_count_folder_sources 3
    (Database (chain_table 2)
       [SourceRow "a" (Some 0%N); SourceRow "b" (Some 1%N);
        SourceRow "c" (Some 2%N); SourceRow "d" None])
    (Some 1%N) = Some 2.
Proof. vm_compute. reflexivity. Qed.

Example trim_strips_both_ends : trim (js "  ab c  ") = js "ab c".
Proof. reflexivity. Qed.

Example name_ok : valid (validateFolderName (js "Research notes")) = true.
Proof. reflexivity. Qed.

Example name_with_slash : valid (validateFolderName (js "a/b")) = false.
Proof. reflexivity. Qed.

Example name_of_spaces : valid (validateFolderName (js "   ")) = false.
Proof. reflexivity. Qed.

Example name_too_long :
  valid (validateFolderName (replicate 256 97%N)) = false.
Proof. vm_compute. reflexivity. Qed.

Example path_to_grandchild :
  findParentPath (js "C")
    [FolderNode (sample_folder (js "A") 1)
       [FolderNode (sample_folder (js "B") 1)
          [FolderNode (sample_folder (js "C") 0) []]]] []
  = Some [js "A"; js "B"].
Proof. vm_compute. reflexivity. Qed.

Example drop_source_into_its_folder :
  validateDrop (mkDragItemData source_type (js "s") None (Val (js "A")))
    [mkDragItemData source_type (js "s") None (Val (js "A"))]
    (mkDropZoneData drop_folder (Val (js "A"))) None = false.
Proof. vm_compute. reflexivity. Qed.

Example drop_folder_on_root :
  validateDrop (mkDragItemData folder_type (js "A") None Null)
    [mkDragItemData folder_type (js "A") None Null]
    (mkDropZoneData drop_root Undefined) None = true.
Proof. vm_compute. reflexivity. Qed.

Example delete_with_explicit_cascade :
  deleteFolder (js "f1") (Some false)
  = mkRequest (js "/api/folders/f1?move_contents_to_parent=false") DELETE.
Proof. reflexivity. Qed.

End examples.

Section migration_facts.
Import Migration.
Implicit Types (tbl : gmap uuid folder_row) (x y f g a t : uuid) (k fuel : nat).

Lemma nth_parent_add tbl k1 k2 x :
  nth_parent tbl (k1 + k2) x = nth_parent tbl k1 x ≫= nth_parent tbl k2.
Proof.
  revert x. induction k1 as [|k1 IH]; intros x; simpl; [done|].
  destruct (select_parent_id tbl x) as [p|]; simpl; [apply IH|done].
Qed.

Lemma nth_parent_None_ge tbl k k' x :
  nth_parent tbl k x = None → (k ≤ k')%nat → nth_parent tbl k' x = None.
Proof.
  intros Hk Hle. replace k' with (k + (k' - k))%nat by lia.
  by rewrite nth_parent_add, Hk.
Qed.

(** The loop never runs out of fuel when given the remaining depth budget,
    and it answers whether the ancestor is met before the cap. *)
Lemma walk_loop_spec fuel tbl a cur d :
  0 ≤ d → (Z.to_nat (max_depth - d) ≤ fuel)%nat →
  ∃ b, walk_loop fuel tbl a cur d = Some b ∧
       (b = true ↔ ∃ j, Z.of_nat j + d < max_depth ∧
                        cur ≫= nth_parent tbl j = Some a).
Proof.
  revert cur d. induction fuel as [|fuel IH]; intros cur d Hd Hfuel.
  - destruct cur as [c|]; simpl.
    + destruct (Z.ltb_spec d max_depth) as [Hlt|Hge].
      * exfalso. unfold max_depth in *. lia.
      * exists false. split; [done|]. split; [done|].
        intros (j & Hj & _). lia.
    + exists false. split; [done|]. split; [done|]. by intros (j & _ & ?).
  - destruct cur as [c|]; simpl.
    + destruct (Z.ltb_spec d max_depth) as [Hlt|Hge].
      * destruct (decide (c = a)) as [->|Hne].
        { exists true. split; [done|]. split; [|done].
          intros _. exists 0%nat. split; [lia|done]. }
        destruct (IH (select_parent_id tbl c) (d + 1)) as (b & Hb & Hiff);
          [lia|unfold max_depth in *; lia|].
        exists b. split; [done|]. rewrite Hiff. split.
        -- intros (j & Hj & Hchain). exists (S j). split; [lia|done].
        -- intros ([|j] & Hj & Hchain); simpl in Hchain; [congruence|].
           exists j. split; [lia|done].
      * exists false. split; [done|]. split; [done|].
        intros (j & Hj & _). lia.
    + exists false. split; [done|]. split; [done|]. by intros (j & _ & ?).
Qed.

Lemma archon_is_folder_descendant_spec tbl t a :
  ∃ b, archon_is_folder_descendant tbl (Some t) (Some a) = Some b ∧
       (b = true ↔
        a = t ∨ ∃ k, (1 ≤ k ≤ Z.to_nat max_depth)%nat ∧ nth_parent tbl k t = Some a).
Proof.
  unfold archon_is_folder_descendant.
  destruct (decide (t = a)) as [->|Hne].
  { exists true. split; [done|]. split; [by left|done]. }
  destruct (walk_loop_spec (Z.to_nat max_depth) tbl a (select_parent_id tbl t) 0)
    as (b & Hb & Hiff); [lia|unfold max_depth; lia|].
  exists b. split; [done|]. rewrite Hiff. unfold max_depth. split.
  - intros (j & Hj & Hchain). right. exists (S j). split; [lia|done].
  - intros [->|(k & Hk & Hchain)]; [done|].
    destruct k as [|j]; [lia|]. exists j. split; [lia|done].
Qed.

(** *** A guarded move keeps the parent chains free of cycles *)

Lemma select_parent_id_insert tbl f r x :
  select_parent_id (<[f := r]> tbl) x =
  if decide (f = x) then f_parent_id r else select_parent_id tbl x.
Proof.
  unfold select_parent_id. rewrite lookup_insert.
  by destruct (decide (f = x)).
Qed.

(** A chain of the updated table either is a chain of the old table or
    passes through the updated folder. *)
Lemma nth_parent_insert tbl f r k x y :
  nth_parent (<[f := r]> tbl) k x = Some y →
  nth_parent tbl k x = Some y ∨
  ∃ j, (j < k)%nat ∧ nth_parent (<[f := r]> tbl) j x = Some f.
Proof.
  revert x. induction k as [|k IH]; intros x Hk; [by left|].
  destruct (decide (f = x)) as [->|Hne].
  { right. exists 0%nat. split; [lia|done]. }
  simpl in Hk. rewrite select_parent_id_insert in Hk.
  destruct (decide (f = x)) as [|_]; [done|].
  destruct (select_parent_id tbl x) as [z|] eqn:Hz; simpl in Hk; [|done].
  destruct (IH z Hk) as [Hold|(j & Hj & Hhit)].
  - left. simpl. by rewrite Hz.
  - right. exists (S j). split; [lia|]. simpl.
    rewrite select_parent_id_insert.
    destruct (decide (f = x)) as [|_]; [done|]. by rewrite Hz.
Qed.

Lemma update_keeps_chains_acyclic tbl f r q :
  no_folder_is_own_ancestor tbl →
  f_parent_id r = Some q →
  (∀ k, nth_parent tbl k q ≠ Some f) →
  no_folder_is_own_ancestor (<[f := r]> tbl).
Proof.
  intros Hacyc Hr Hnot.
  assert (Hq : ∀ k, nth_parent (<[f := r]> tbl) k q ≠ Some f).
  { intros k. induction (lt_wf k) as [k _ IH]. intros Hk.
    destruct (nth_parent_insert _ _ _ _ _ _ Hk) as [Hold|(j & Hj & Hhit)].
    - by apply (Hnot k).
    - by apply (IH j). }
  intros x (k & Hk & Hcyc).
  destruct (nth_parent_insert _ _ _ _ _ _ Hcyc) as [Hold|(j & Hj & Hhit)].
  { apply (Hacyc x). by exists k. }
  (* [f] lies on the cycle through [x], hence on a cycle through itself *)
  assert (Hf : nth_parent (<[f := r]> tbl) k f = Some f).
  { pose proof (nth_parent_add (<[f := r]> tbl) j k x) as H1.
    pose proof (nth_parent_add (<[f := r]> tbl) k j x) as H2.
    rewrite Hhit in H1. rewrite Hcyc in H2.
    simpl in H1, H2. rewrite Hhit in H2.
    replace (k + j)%nat with (j + k)%nat in H2 by lia. congruence. }
  destruct k as [|k]; [lia|]. simpl in Hf.
  rewrite select_parent_id_insert in Hf.
  destruct (decide (f = f)) as [_|]; [|done].
  rewrite Hr in Hf. simpl in Hf. by apply (Hq k).
Qed.

Lemma update_root_keeps_chains_acyclic tbl f r :
  no_folder_is_own_ancestor tbl →
  f_parent_id r = None →
  no_folder_is_own_ancestor (<[f := r]> tbl).
Proof.
  intros Hacyc Hr x (k & Hk & Hcyc).
  destruct (nth_parent_insert _ _ _ _ _ _ Hcyc) as [Hold|(j & Hj & Hhit)].
  { apply (Hacyc x). by exists k. }
  pose proof (nth_parent_add (<[f := r]> tbl) j (k - j) x) as H1.
  replace (j + (k - j))%nat with k in H1 by lia.
  rewrite Hcyc, Hhit in H1. simpl in H1.
  destruct (k - j)%nat as [|m] eqn:Hm; [lia|]. simpl in H1.
  rewrite select_parent_id_insert in H1.
  destruct (decide (f = f)) as [_|]; [|done]. by rewrite Hr in H1.
Qed.

Lemma guarded_update_keeps_chains_acyclic tbl f p tbl' :
  no_folder_is_own_ancestor tbl →
  (∀ q, p = Some q → chain_within_cap tbl q) →
  archon_is_folder_descendant tbl p (Some f) = Some false →
  update_parent_id tbl f p = Some tbl' →
  no_folder_is_own_ancestor tbl'.
Proof.
  intros Hacyc Hcap Hwalk Hupdate. unfold update_parent_id in Hupdate.
  destruct (tbl !! f) as [r|] eqn:Hrow; [|by simplify_eq].
  unfold no_self_reference in Hupdate. simpl in Hupdate.
  case_bool_decide as Hself; [|done]. simplify_eq.
  destruct p as [q|]; [|by apply update_root_keeps_chains_acyclic].
  apply (update_keeps_chains_acyclic _ _ _ q); [done..|].
  intros k Hk.
  destruct (archon_is_folder_descendant_spec tbl q f) as (b & Hb & Hiff).
  rewrite Hwalk in Hb. simplify_eq.
  assert (false = true); [|done]. apply Hiff.
  destruct k as [|k]; [left; simpl in Hk; congruence|]. right.
  exists (S k). split; [|done]. split; [lia|].
  destruct (decide (S k ≤ Z.to_nat max_depth)%nat) as [|Hgt]; [done|].
  rewrite (nth_parent_None_ge tbl (S (Z.to_nat max_depth)) (S k) q) in Hk;
    [done|by apply Hcap|lia].
Qed.

(** *** The recursive count *)

Lemma select_parent_id_Some tbl x p :
  select_parent_id tbl x = Some p ↔
  ∃ r, tbl !! x = Some r ∧ f_parent_id r = Some p.
Proof.
  unfold select_parent_id. destruct (tbl !! x) as [r|]; simpl.
  - split; [by exists r|]. by intros (r' & ? & ?); simplify_eq.
  - split; [done|]. by intros (r' & ? & ?).
Qed.

Lemma elem_of_folder_tree_step tbl ft g :
  g ∈ folder_tree_step tbl ft ↔
  ∃ w, w ∈ ft ∧ select_parent_id tbl g = Some w.
Proof.
  unfold folder_tree_step. rewrite list_elem_of_bind. split.
  - intros ([id r] & Hin & Hrow). apply elem_of_map_to_list in Hrow.
    apply list_elem_of_bind in Hin as (w & Hin & Hw).
    destruct (decide (f_parent_id r = Some w)) as [Hp|]; [|by inv Hin].
    apply list_elem_of_singleton in Hin as ->.
    exists w. split; [done|]. apply select_parent_id_Some. by exists r.
  - intros (w & Hw & Hsel). apply select_parent_id_Some in Hsel as (r & Hr & Hp).
    exists (g, r). split; [|by apply elem_of_map_to_list].
    apply list_elem_of_bind. exists w. split; [|done].
    destruct (decide (f_parent_id r = Some w)); [|done].
    by apply list_elem_of_singleton.
Qed.

Lemma level_step tbl f k ft :
  (∀ g, g ∈ ft ↔ level tbl f k g) →
  ∀ g, g ∈ folder_tree_step tbl ft ↔ level tbl f (S k) g.
Proof.
  intros Hft g. rewrite elem_of_folder_tree_step. unfold level. simpl. split.
  - intros (w & Hw & Hsel). apply Hft in Hw as [Hf Hw].
    split; [done|]. by rewrite Hsel.
  - intros [Hf Hchain].
    destruct (select_parent_id tbl g) as [w|] eqn:Hsel; [|done].
    exists w. split; [|done]. by apply Hft.
Qed.

Lemma level_empty_above tbl f k j g :
  (∀ y, ¬ level tbl f k y) → ¬ level tbl f (j + k) g.
Proof.
  intros Hempty [Hf Hchain]. rewrite nth_parent_add in Hchain.
  destruct (nth_parent tbl j g) as [y|] eqn:Hy; [|done].
  by apply (Hempty y).
Qed.

Lemma folder_tree_rec_spec tbl f n :
  ∀ k ft fuel,
    (∀ g, g ∈ ft ↔ level tbl f k g) →
    (∀ g, ¬ level tbl f (n + k) g) →
    (n ≤ fuel)%nat →
    ∃ res, folder_tree_rec fuel tbl ft = Some res ∧
           ∀ g, g ∈ res ↔ ∃ j, level tbl f (j + k) g.
Proof.
  induction n as [|n IH]; intros k ft fuel Hft Hend Hfuel.
  - assert (ft = []) as ->.
    { destruct ft as [|g ft]; [done|].
      destruct (Hend g). apply Hft. by left. }
    exists []. split; [by destruct fuel|]. intros g. split; [by inv 1|].
    intros (j & Hj). by destruct (level_empty_above tbl f k j g).
  - destruct ft as [|w ft].
    { exists []. split; [by destruct fuel|]. intros g. split; [by inv 1|].
      intros (j & Hj). destruct (level_empty_above tbl f k j g); [|done].
      intros y Hy. apply Hft in Hy. by inv Hy. }
    destruct fuel as [|fuel]; [lia|].
    destruct (IH (S k) (folder_tree_step tbl (w :: ft)) fuel)
      as (rest & Hrest & Hin); [by apply level_step| |lia|].
    { intros g. replace (n + S k)%nat with (S n + k)%nat by lia. apply Hend. }
    exists ((w :: ft) ++ rest). split; [simpl; by rewrite Hrest|].
    intros g. rewrite elem_of_app, Hft, Hin. split.
    + intros [H0|(j & Hj)]; [by exists 0%nat|].
      exists (S j). by replace (S j + k)%nat with (j + S k)%nat by lia.
    + intros ([|j] & Hj); [by left|]. right. exists j.
      by replace (j + S k)%nat with (S j + k)%nat by lia.
Qed.

Lemma chain_list_lookup tbl n x j y :
  chain_list tbl n x !! j = Some y → nth_parent tbl j x = Some y.
Proof.
  revert x j. induction n as [|n IH]; intros x [|j] Hj; simpl in *;
    try by simplify_eq.
  destruct (select_parent_id tbl x) as [p|]; simpl in *; [|done].
  by apply IH.
Qed.

Lemma chain_list_length tbl n x y :
  nth_parent tbl n x = Some y → length (chain_list tbl n x) = S n.
Proof.
  revert x. induction n as [|n IH]; intros x Hn; simpl in *; [done|].
  destruct (select_parent_id tbl x) as [p|]; simpl in *; [|done].
  f_equal. by apply IH.
Qed.

Lemma chain_list_rows tbl n x y :
  nth_parent tbl n x = Some y → is_Some (tbl !! y) →
  chain_list tbl n x ⊆ (map_to_list tbl).*1.
Proof.
  revert x. induction n as [|n IH]; intros x Hn Hy z Hz; simpl in *.
  - simplify_eq. apply list_elem_of_singleton in Hz as ->.
    destruct Hy as [r Hr]. apply list_elem_of_fmap. exists (y, r).
    split; [done|]. by apply elem_of_map_to_list.
  - destruct (select_parent_id tbl x) as [p|] eqn:Hsel; simpl in *; [|done].
    apply elem_of_cons in Hz as [->|Hz]; [|by apply (IH p)].
    apply select_parent_id_Some in Hsel as (r & Hr & _).
    apply list_elem_of_fmap. exists (x, r).
    split; [done|]. by apply elem_of_map_to_list.
Qed.

(** In a table without cycles no chain is longer than the table. *)
Lemma level_size_empty tbl f g :
  no_folder_is_own_ancestor tbl → ¬ level tbl f (size tbl) g.
Proof.
  intros Hacyc [Hf Hchain].
  destruct (list_pigeonhole (chain_list tbl (size tbl) g) (map_to_list tbl).*1)
    as (i1 & i2 & x & Hlt & H1 & H2).
  - by apply (chain_list_rows _ _ _ f).
  - rewrite (chain_list_length _ _ _ f), length_fmap, length_map_to_list; [lia|done].
  - apply chain_list_lookup in H1, H2.
    apply (Hacyc x). exists (i2 - i1)%nat. split; [lia|].
    replace i2 with (i1 + (i2 - i1))%nat in H2 by lia.
    rewrite nth_parent_add, H1 in H2. done.
Qed.

Lemma folder_tree_spec tbl f fuel :
  no_folder_is_own_ancestor tbl → (size tbl ≤ fuel)%nat →
  ∃ res, folder_tree fuel tbl (Some f) = Some res ∧
         ∀ g, g ∈ res ↔ is_Some (tbl !! f) ∧ in_subtree tbl f g.
Proof.
  intros Hacyc Hfuel. unfold folder_tree.
  destruct (folder_tree_rec_spec tbl f (size tbl) 0
              (folder_tree_base tbl (Some f)) fuel)
    as (res & Hres & Hin); [| |done|].
  - intros g. unfold level. simpl. destruct (tbl !! f) as [r|].
    + rewrite list_elem_of_singleton. split; [intros ->; eauto|].
      intros [_ ?]. congruence.
    + split; [by inv 1|]. by intros [[? ?] _].
  - intros g. rewrite Nat.add_0_r. by apply level_size_empty.
  - exists res. split; [done|]. intros g. rewrite Hin. unfold level, in_subtree.
    split.
    + intros (j & Hf & Hj). rewrite Nat.add_0_r in Hj. eauto.
    + intros (Hf & j & Hj). exists j. by rewrite Nat.add_0_r.
Qed.

Lemma nth_parent_row tbl k x y :
  parent_fk tbl → is_Some (tbl !! x) → nth_parent tbl k x = Some y →
  is_Some (tbl !! y).
Proof.
  intros Hfk. revert x. induction k as [|k IH]; intros x Hx Hk; simpl in Hk.
  - by simplify_eq.
  - destruct (select_parent_id tbl x) as [p|] eqn:Hsel; simpl in Hk; [|done].
    apply (IH p); [|done].
    apply select_parent_id_Some in Hsel as (r & Hr & Hp). by apply (Hfk x r).
Qed.

Lemma count_of_filter {A} (P : A → Prop) (Q : A → Prop)
    `{∀ e : A, Decision (Q e)} (l : list A) :
  (∀ e : A, e ∈ l → (Q e ↔ P e)) → count_of P l (length (filter Q l)).
Proof.
  induction l as [|e l IH]; intros HQ; [constructor|].
  assert (count_of P l (length (filter Q l))) as IH'.
  { apply IH. intros y Hy. apply HQ. by right. }
  rewrite filter_cons. destruct (decide (Q e)) as [Hq|Hq].
  - simpl. apply count_yes; [|done]. apply HQ; [by left|done].
  - apply count_no; [|done]. intros Hp. apply Hq, HQ; [by left|done].
Qed.

Lemma count_of_functional {A} (P : A → Prop) (l : list A) n m :
  count_of P l n → count_of P l m → n = m.
Proof.
  intros Hn. revert m. induction Hn; intros m Hm; inv Hm; try done.
  all: f_equal; eauto.
Qed.

(** *** Checking the constraints on a concrete table *)

Lemma parent_fk_check_sound tbl : parent_fk_check tbl = true → parent_fk tbl.
Proof.
  unfold parent_fk_check. rewrite List.forallb_forall. intros Hall id r p Hr Hp.
  assert (Hin : In (id, r) (map_to_list tbl)).
  { apply list_elem_of_In. by apply elem_of_map_to_list. }
  specialize (Hall _ Hin). simpl in Hall. rewrite Hp in Hall.
  by apply bool_decide_eq_true in Hall.
Qed.

Lemma source_fk_check_sound db : source_fk_check db = true → source_fk db.
Proof.
  unfold source_fk_check. rewrite List.forallb_forall. intros Hall s g Hs Hg.
  apply list_elem_of_In in Hs. specialize (Hall _ Hs). rewrite Hg in Hall.
  by apply bool_decide_eq_true in Hall.
Qed.

Lemma parents_decrease_sound tbl :
  parents_decrease tbl = true → no_folder_is_own_ancestor tbl.
Proof.
  unfold parents_decrease. rewrite List.forallb_forall. intros Hall.
  assert (Hlt : ∀ k x y, (0 < k)%nat → nth_parent tbl k x = Some y → (y < x)%N).
  { induction k as [|k IH]; intros x y Hk Hchain; [lia|]. simpl in Hchain.
    destruct (select_parent_id tbl x) as [p|] eqn:Hsel; simpl in Hchain; [|done].
    apply select_parent_id_Some in Hsel as (r & Hr & Hp).
    assert (Hin : In (x, r) (map_to_list tbl)).
    { apply list_elem_of_In. by apply elem_of_map_to_list. }
    specialize (Hall _ Hin). simpl in Hall. rewrite Hp in Hall.
    apply bool_decide_eq_true in Hall as Hpx.
    destruct k as [|k]; [simpl in Hchain; by simplify_eq|].
    assert (y < p)%N; [apply (IH p y); [lia|done]|lia]. }
  intros f (k & Hk & Hchain). apply Hlt in Hchain; [lia|done].
Qed.

End migration_facts.

Section tree_facts.
Import JS Folders FolderService.
Implicit Types (nodes ch : list TreeNode) (n : TreeNode) (path : list js_string).

Lemma first_result_app {A B} (f : A → option B) (l1 l2 : list A) :
  first_result f (l1 ++ l2) =
  match first_result f l1 with Some r => Some r | None => first_result f l2 end.
Proof.
  induction l1 as [|e l1 IH]; simpl; [done|]. by destruct (f e).
Qed.

Lemma first_result_None {A B} (f : A → option B) (l : list A) :
  Forall (λ e, f e = None) l → first_result f l = None.
Proof. induction 1 as [|e l He _ IH]; simpl; [done|]. by rewrite He. Qed.

Lemma first_result_Some {A B} (f : A → option B) (l : list A) r :
  first_result f l = Some r → ∃ e, e ∈ l ∧ f e = Some r.
Proof.
  induction l as [|e l IH]; simpl; [done|].
  destruct (f e) as [r'|] eqn:He.
  - intros [= <-]. exists e. split; [by left|done].
  - intros (e' & ? & ?)%IH. exists e'. split; [by right|done].
Qed.

Lemma elem_of_filter_map {A B} (p : A → bool) (f : A → B) (l : list A) y :
  y ∈ filter_map p f l ↔ ∃ e, e ∈ l ∧ p e = true ∧ y = f e.
Proof.
  induction l as [|e l IH]; simpl.
  - split; [by inv 1|]. by intros (e & He & _); inv He.
  - destruct (p e) eqn:Hp; rewrite ?elem_of_cons, IH; split.
    + intros [->|(e' & ? & ? & ?)]; [exists e|exists e']; rewrite elem_of_cons; eauto.
    + intros (e' & [->|?]%elem_of_cons & ? & ?); eauto.
    + intros (e' & ? & ? & ?). exists e'. rewrite elem_of_cons. eauto.
    + intros (e' & [->|?]%elem_of_cons & ? & ?); [congruence|eauto].
Qed.

Lemma filter_map_spec {A B} (p : A → bool) (f : A → B) (l : list A) :
  filter_map p f l = f <$> filter (λ e, p e = true) l.
Proof.
  induction l as [|e l IH]; simpl; [done|].
  rewrite filter_cons. destruct (decide (p e = true)) as [Hp|Hp].
  - rewrite Hp. simpl. by rewrite IH.
  - by destruct (p e).
Qed.

(** *** Occurrences *)

Lemma occurs_nil_iff nodes n : occurs nodes [] n ↔ n ∈ nodes.
Proof. split; [by inv 1|by constructor]. Qed.

Lemma occurs_cons_iff nodes i path n :
  occurs nodes (i :: path) n ↔
  ∃ f ch, FolderNode f ch ∈ nodes ∧ id f = i ∧ occurs ch path n.
Proof.
  split.
  - inv 1. eauto.
  - intros (f & ch & ? & <- & ?). by econstructor.
Qed.

Lemma elem_of_folder_ids nodes i :
  i ∈ folder_ids nodes ↔ ∃ n, n ∈ nodes ∧ i ∈ node_folder_ids n.
Proof.
  unfold folder_ids. rewrite list_elem_of_join. split.
  - intros (l & Hi & (n & -> & Hn)%list_elem_of_fmap). eauto.
  - intros (n & Hn & Hi). exists (node_folder_ids n). split; [done|].
    apply list_elem_of_fmap. eauto.
Qed.

Lemma occurs_folder_ids nodes path n i :
  occurs nodes path n → is_folder_with_id i n → i ∈ folder_ids nodes.
Proof.
  induction 1 as [nodes n Hn|nodes f ch path n Hf _ IH]; intros Hi.
  - apply elem_of_folder_ids. exists n. split; [done|].
    destruct n as [f ch|]; [|done]. simpl in *. subst. by left.
  - apply elem_of_folder_ids. exists (FolderNode f ch). split; [done|].
    simpl. right. by apply IH.
Qed.

Lemma NoDup_folder_ids_cons n nodes :
  NoDup (folder_ids (n :: nodes)) →
  NoDup (node_folder_ids n) ∧ NoDup (folder_ids nodes) ∧
  ∀ i, i ∈ node_folder_ids n → i ∉ folder_ids nodes.
Proof.
  unfold folder_ids. simpl. rewrite NoDup_app. by intros (? & ? & ?).
Qed.

(** *** findParentPath *)

Lemma findParentPath_node_sound T n :
  ∀ path r, findParentPath_node T path n = Some r →
    ∃ sub n', r = path ++ sub ∧ occurs [n] sub n' ∧ is_folder_with_id T n'.
Proof.
  induction n as [f ch IH|s] using TreeNode_ind; intros path r; simpl; [|done].
  destruct (decide (id f = T)) as [Hid|Hid].
  - intros [= <-]. exists [], (FolderNode f ch).
    rewrite app_nil_r. split; [done|]. split; [|done].
    constructor. by left.
  - intros (c & Hc & Hfound)%first_result_Some.
    rewrite Forall_forall in IH.
    destruct (IH c Hc _ _ Hfound) as (sub & n' & -> & Hocc & Hn').
    exists (id f :: sub), n'. rewrite <- app_assoc. split; [done|].
    split; [|done]. apply occurs_cons_iff. exists f, ch.
    split; [by left|]. split; [done|].
    clear -Hocc Hc. revert n' Hocc. induction sub as [|i sub _]; intros n'.
    + rewrite !occurs_nil_iff, list_elem_of_singleton. by intros ->.
    + rewrite !occurs_cons_iff. intros (f' & ch' & Hin & ? & ?).
      apply list_elem_of_singleton in Hin as <-. eauto.
Qed.

Lemma findParentPath_sound T nodes path r :
  findParentPath T nodes path = Some r →
  ∃ sub n', r = path ++ sub ∧ occurs nodes sub n' ∧ is_folder_with_id T n'.
Proof.
  intros (c & Hc & Hfound)%first_result_Some.
  destruct (findParentPath_node_sound _ _ _ _ Hfound) as (sub & n' & -> & Hocc & Hn').
  exists sub, n'. split; [done|]. split; [|done].
  destruct sub as [|i sub].
  - apply occurs_nil_iff in Hocc. apply list_elem_of_singleton in Hocc as ->.
    by constructor.
  - apply occurs_cons_iff in Hocc as (f' & ch' & Hin & ? & ?).
    apply list_elem_of_singleton in Hin as <-.
    apply occurs_cons_iff. eauto.
Qed.

Lemma findParentPath_node_absent T n :
  T ∉ node_folder_ids n → ∀ path, findParentPath_node T path n = None.
Proof.
  induction n as [f ch IH|s] using TreeNode_ind; intros HT path; simpl; [|done].
  simpl in HT. rewrite not_elem_of_cons in HT. destruct HT as [Hne HT].
  rewrite decide_False by done.
  apply first_result_None. rewrite Forall_forall in IH |- *.
  intros c Hc. apply IH; [done|]. intros Hin. apply HT.
  fold (folder_ids ch). apply elem_of_folder_ids. eauto.
Qed.

Lemma findParentPath_complete T nodes sub n' :
  occurs nodes sub n' → is_folder_with_id T n' →
  NoDup (folder_ids nodes) →
  ∀ path, findParentPath T nodes path = Some (path ++ sub).
Proof.
  induction 1 as [nodes n Hn|nodes f ch sub n Hf Hocc IH]; intros HT Hnd path.
  - destruct n as [f ch|]; [|done]. simpl in HT.
    apply list_elem_of_split in Hn as (l1 & l2 & ->).
    unfold findParentPath. rewrite first_result_app, first_result_None.
    + simpl. rewrite decide_True by done. by rewrite app_nil_r.
    + apply Forall_forall. intros m Hm. apply findParentPath_node_absent.
      intros Hin. unfold folder_ids in Hnd.
      rewrite fmap_app, join_app in Hnd. apply NoDup_app in Hnd as (_ & Hdisj & _).
      apply (Hdisj T); [apply (elem_of_folder_ids l1); eauto|].
      simpl. rewrite HT. by left.
  - pose proof (occurs_folder_ids _ _ _ _ Hocc HT) as HTch.
    apply list_elem_of_split in Hf as (l1 & l2 & ->).
    unfold folder_ids in Hnd.
    rewrite fmap_app, join_app in Hnd. apply NoDup_app in Hnd as (_ & Hdisj & Hnd).
    simpl in Hnd. apply NoDup_cons in Hnd as (Hf & Hnd).
    rewrite not_elem_of_app in Hf. destruct Hf as [Hf _].
    apply NoDup_app in Hnd as (Hnd & _ & _).
    unfold findParentPath. rewrite first_result_app, first_result_None.
    + simpl. rewrite decide_False by (intros Heq; apply Hf; by rewrite Heq).
      fold (findParentPath T ch (path ++ [id f])).
      rewrite IH by done. by rewrite <- app_assoc.
    + apply Forall_forall. intros m Hm. apply findParentPath_node_absent.
      intros Hin. apply (Hdisj T); [apply (elem_of_folder_ids l1); eauto|].
      simpl. right. apply elem_of_app. by left.
Qed.

End tree_facts.

Section service_facts.
Import JS Folders FolderService DragAndDrop.

Lemma trim_start_cases (s : js_string) :
  trim_start s = [] ∨ ∃ c s', trim_start s = c :: s' ∧ is_white_space c = false.
Proof.
  induction s as [|c s IH]; simpl; [by left|].
  destruct (is_white_space c) eqn:Hc; [done|]. right. eauto.
Qed.

Lemma trim_start_nil (s : js_string) :
  trim_start s = [] ↔ Forall (λ c, is_white_space c = true) s.
Proof.
  induction s as [|c s IH]; simpl; [done|].
  destruct (is_white_space c) eqn:Hc.
  - rewrite IH. split; [by constructor|by inv 1].
  - split; [done|]. inv 1. congruence.
Qed.

Lemma trim_nil (s : js_string) :
  trim s = [] ↔ Forall (λ c, is_white_space c = true) s.
Proof.
  unfold trim, trim_end. rewrite <- trim_start_nil. split.
  - intros Hrev. apply (f_equal reverse) in Hrev.
    rewrite reverse_involutive, reverse_nil in Hrev.
    apply trim_start_nil in Hrev. rewrite Forall_reverse in Hrev.
    destruct (trim_start_cases s) as [|(c & s' & Hs & Hc)]; [done|].
    rewrite Hs in Hrev. inv Hrev. congruence.
  - by intros ->.
Qed.

Lemma invalidChars_test_true (s : js_string) :
  invalidChars_test s = true ↔ Exists (λ c, c ∈ invalidChars) s.
Proof.
  unfold invalidChars_test. rewrite existsb_exists, Exists_exists. split.
  - intros (c & Hc%list_elem_of_In & Hin%bool_decide_eq_true). eauto.
  - intros (c & Hc & Hin). exists c. split; [by apply list_elem_of_In|].
    by apply bool_decide_eq_true.
Qed.

End service_facts.

Section optimistic_tree_facts.
Import JS Folders FolderService FolderQueries.
Implicit Types (nodes ch : list TreeNode) (n tn : TreeNode) (path : list js_string).

Lemma first_result_fmap {A B C} (g : B → option C) (f : A → B) (l : list A) :
  first_result g (f <$> l) = first_result (g ∘ f) l.
Proof. induction l as [|e l IH]; csimpl; [done|]. by rewrite IH. Qed.

Lemma first_result_ext {A B} (f g : A → option B) (l : list A) :
  Forall (λ e, f e = g e) l → first_result f l = first_result g l.
Proof. induction 1 as [|e l He _ IH]; simpl; [done|]. by rewrite He, IH. Qed.

Lemma first_result_post {A B C} (h : B → C) (f : A → option B) (l : list A) :
  first_result (λ e, h <$> f e) l = h <$> first_result f l.
Proof. induction l as [|e l IH]; simpl; [done|]. by destruct (f e). Qed.

(** *** addToParent *)

Lemma addToParent_node_absent p tn n :
  p ∉ node_folder_ids n → addToParent_node p tn n = n.
Proof.
  induction n as [f ch IH|s] using TreeNode_ind; intros Hp; csimpl; [|done].
  csimpl in Hp. apply not_elem_of_cons in Hp as [Hne Hp].
  rewrite decide_False by done. f_equal.
  induction IH as [|c ch Hc _ IHch]; csimpl; [done|].
  csimpl in Hp. apply not_elem_of_app in Hp as [Hpc Hpch].
  by rewrite Hc, IHch.
Qed.

Lemma addToParent_absent p tn nodes :
  p ∉ folder_ids nodes → addToParent p tn nodes = nodes.
Proof.
  unfold addToParent, folder_ids.
  induction nodes as [|c nodes IH]; csimpl; [done|].
  intros [Hpc Hp]%not_elem_of_app.
  by rewrite addToParent_node_absent, IH.
Qed.

Lemma addToParent_size_list p tn nodes :
  Forall (λ c, NoDup (node_folder_ids c) → p ∈ node_folder_ids c →
               node_size (addToParent_node p tn c) = (node_size c + node_size tn)%nat)
         nodes →
  NoDup (folder_ids nodes) → p ∈ folder_ids nodes →
  tree_size (addToParent p tn nodes) = (tree_size nodes + node_size tn)%nat.
Proof.
  unfold tree_size. induction 1 as [|c nodes Hc _ IH]; intros Hnd Hp.
  { by inv Hp. }
  apply NoDup_folder_ids_cons in Hnd as (Hndc & Hndn & Hdisj).
  unfold folder_ids in Hp. csimpl in Hp. apply elem_of_app in Hp as [Hp|Hp].
  - csimpl. rewrite Hc by done.
    fold (addToParent p tn nodes). rewrite addToParent_absent by eauto. lia.
  - csimpl. rewrite addToParent_node_absent.
    + fold (addToParent p tn nodes). rewrite IH by done. lia.
    + intros Hpc. by apply (Hdisj p).
Qed.

Lemma addToParent_node_size p tn n :
  NoDup (node_folder_ids n) → p ∈ node_folder_ids n →
  node_size (addToParent_node p tn n) = (node_size n + node_size tn)%nat.
Proof.
  induction n as [f ch IH|s] using TreeNode_ind; intros Hnd Hp; csimpl;
    [|by inv Hp].
  csimpl in Hnd; csimpl in Hp. apply NoDup_cons in Hnd as [Hf Hnd].
  destruct (decide (id f = p)) as [Hid|Hid]; csimpl.
  - rewrite fmap_app, list_sum_app. csimpl. lia.
  - apply elem_of_cons in Hp as [?|Hp]; [congruence|].
    f_equal. by apply addToParent_size_list.
Qed.

Lemma addToParent_size p tn nodes :
  NoDup (folder_ids nodes) → p ∈ folder_ids nodes →
  tree_size (addToParent p tn nodes) = (tree_size nodes + node_size tn)%nat.
Proof.
  apply addToParent_size_list, Forall_forall. intros c _.
  apply addToParent_node_size.
Qed.

Lemma search_node_addToParent p tn n :
  search_node p (addToParent_node p tn n) = with_new_child tn <$> search_node p n.
Proof.
  induction n as [f ch IH|s] using TreeNode_ind; csimpl; [|done].
  destruct (decide (id f = p)) as [Hid|Hid]; csimpl.
  - by rewrite decide_True.
  - rewrite decide_False by done.
    rewrite first_result_fmap, <- first_result_post.
    by apply first_result_ext.
Qed.

Lemma findFolderInTree_addToParent p tn old :
  findFolderInTree p
    (mkFolderTreeResponse (addToParent p tn (tree old)) (total_folders old + 1)
       (tree_total_sources old))
  = with_new_child tn <$> findFolderInTree p old.
Proof.
  unfold findFolderInTree, addToParent. simpl.
  rewrite first_result_fmap, <- first_result_post.
  apply first_result_ext, Forall_forall. intros c _.
  apply search_node_addToParent.
Qed.

Lemma tree_size_app nodes1 nodes2 :
  tree_size (nodes1 ++ nodes2) = (tree_size nodes1 + tree_size nodes2)%nat.
Proof. unfold tree_size. by rewrite fmap_app, list_sum_app. Qed.

(** *** removeFolder *)

Lemma removeFolder_node_key F n :
  node_key (removeFolder_node F n) = node_key n.
Proof. by destruct n. Qed.

Lemma not_the_folder_true F n :
  not_the_folder F n = true ↔ ¬ is_folder_with_id F n.
Proof.
  destruct n as [f ch|s]; simpl.
  - by rewrite negb_true_iff, bool_decide_eq_false.
  - split; [by intros _ []|done].
Qed.

Lemma occurs_removeFolder F path :
  ∀ nodes n',
    occurs (removeFolder F nodes) path n' ↔
    ∃ n, occurs nodes path n ∧ n' = removeFolder_node F n ∧ (F ∉ path) ∧
         (¬ is_folder_with_id F n).
Proof.
  induction path as [|i path IH]; intros nodes n'.
  - rewrite occurs_nil_iff. unfold removeFolder. rewrite elem_of_filter_map.
    split.
    + intros (n & Hn & Hkeep%not_the_folder_true & ->).
      exists n. rewrite occurs_nil_iff. split_and!; [done..|by inv 1|done].
    + intros (n & Hn%occurs_nil_iff & -> & _ & Hkeep).
      exists n. by rewrite not_the_folder_true.
  - rewrite occurs_cons_iff. split.
    + intros (f & ch' & Hin & <- & Hocc).
      unfold removeFolder in Hin. apply elem_of_filter_map in Hin
        as ([f0 ch|s] & Hn & Hkeep%not_the_folder_true & Heq); [|done].
      simpl in Heq, Hkeep. simplify_eq.
      fold (removeFolder F ch) in Hocc.
      apply IH in Hocc as (n & Hocc & -> & HF & Hn').
      exists n. split_and!; [|done| |done].
      * apply occurs_cons_iff. eauto.
      * rewrite not_elem_of_cons. split; [congruence|done].
    + intros (n & (f & ch & Hin & <- & Hocc)%occurs_cons_iff & -> & HF & Hn').
      apply not_elem_of_cons in HF as [Hf HF].
      exists f, (removeFolder F ch). split_and!; [|done|].
      * unfold removeFolder at 1. apply elem_of_filter_map.
        exists (FolderNode f ch). split_and!; [done| |done].
        apply not_the_folder_true. simpl. congruence.
      * apply IH. eauto.
Qed.

Lemma first_result_None_inv {A B} (f : A → option B) (l : list A) :
  first_result f l = None → Forall (λ e, f e = None) l.
Proof.
  induction l as [|e l IH]; simpl; [by constructor|].
  destruct (f e) eqn:He; [done|]. intros Hl. constructor; eauto.
Qed.

Lemma search_node_Some p n m :
  search_node p n = Some m →
  ∃ pf ch, m = FolderNode pf ch ∧ id pf = p.
Proof.
  revert m. induction n as [f ch IH|s] using TreeNode_ind; intros m; simpl;
    [|done].
  destruct (decide (id f = p)) as [Hid|Hid]; [intros [= <-]; eauto|].
  intros (c & Hc & Hfound)%first_result_Some.
  rewrite Forall_forall in IH. by apply (IH c Hc).
Qed.

Lemma search_node_None p n :
  search_node p n = None → p ∉ node_folder_ids n.
Proof.
  induction n as [f ch IH|s] using TreeNode_ind; simpl; [|by inv 2].
  destruct (decide (id f = p)) as [Hid|Hid]; [done|].
  intros Hnone%first_result_None_inv. apply not_elem_of_cons. split; [done|].
  intros (l & Hp & (c & -> & Hc)%list_elem_of_fmap)%list_elem_of_join.
  rewrite Forall_forall in IH, Hnone. by apply (IH c Hc (Hnone c Hc)).
Qed.

Lemma findFolderInTree_found p old :
  p ∈ folder_ids (tree old) →
  ∃ pf ch, findFolderInTree p old = Some (FolderNode pf ch) ∧ id pf = p.
Proof.
  unfold findFolderInTree, folder_ids.
  induction (tree old) as [|c nodes IH]; csimpl; [by inv 1|].
  intros Hp. destruct (search_node p c) as [m|] eqn:Hm.
  - apply search_node_Some in Hm as (pf & ch & -> & ?). eauto.
  - apply search_node_None in Hm.
    apply elem_of_app in Hp as [?|Hp]; [done|]. by apply IH.
Qed.

End optimistic_tree_facts.

Section query_client_facts.
Import JS Folders FolderService FolderQueries.

Lemma setQueryData_tree_run updater qc :
  setQueryData_tree updater qc =
  ((), mkQueryClient (write_tree updater (cache qc))
         (events qc ++ [SetQueryData folderKeys.tree])).
Proof.
  unfold setQueryData_tree, write_tree, emit, get_cache, put_cache,
    mbind, M_bind, mret, M_ret. simpl.
  by destruct (updater _).
Qed.

Lemma setQueryData_list_run parentId updater qc :
  setQueryData_list parentId updater qc =
  ((), mkQueryClient (write_list parentId updater (cache qc))
         (events qc ++ [SetQueryData (folderKeys.list parentId)])).
Proof.
  unfold setQueryData_list, write_list, emit, get_cache, put_cache,
    mbind, M_bind, mret, M_ret. simpl.
  by destruct (updater _).
Qed.

Lemma setQueryData_detail_run id updater qc :
  setQueryData_detail id updater qc =
  ((), mkQueryClient (write_detail id updater (cache qc))
         (events qc ++ [SetQueryData (folderKeys.detail id)])).
Proof.
  unfold setQueryData_detail, write_detail, emit, get_cache, put_cache,
    mbind, M_bind, mret, M_ret. simpl.
  by destruct (updater _).
Qed.

(** A [forEach] whose body is one write per element. *)
Lemma forEach_run {A} (l : list A) (f : A → M ())
    (w : A → QueryCache → QueryCache) (e : A → Event) :
  (∀ x qc, f x qc = ((), mkQueryClient (w x (cache qc)) (events qc ++ [e x]))) →
  ∀ qc, forEach l f qc =
        ((), mkQueryClient (foldl (λ c x, w x c) (cache qc) l)
               (events qc ++ (e <$> l))).
Proof.
  intros Hf. induction l as [|x l IH]; intros qc; csimpl.
  - unfold mret, M_ret. rewrite app_nil_r. by destruct qc.
  - unfold mbind, M_bind. rewrite Hf, IH. simpl.
    by rewrite <- app_assoc.
Qed.

Section list_writes.
Context {A : Type} (key : A → optional js_string)
        (g : A → option FolderListResponse → option FolderListResponse).

Lemma foldl_write_list_others (l : list A) c :
  tree_query (foldl (λ c x, write_list (key x) (g x) c) c l) = tree_query c ∧
  detail_queries (foldl (λ c x, write_list (key x) (g x) c) c l)
  = detail_queries c.
Proof.
  revert c. induction l as [|x l IH]; intros c; simpl; [done|].
  destruct (IH (write_list (key x) (g x) c)) as [-> ->]. unfold write_list.
  by destruct (g x _).
Qed.

Lemma foldl_write_list_notin (l : list A) c k :
  k ∉ key <$> l →
  list_queries (foldl (λ c x, write_list (key x) (g x) c) c l) !! k
  = list_queries c !! k.
Proof.
  revert c. induction l as [|x l IH]; intros c Hk; csimpl; [done|].
  csimpl in Hk. apply not_elem_of_cons in Hk as [Hne Hk].
  rewrite IH by done. unfold write_list.
  destruct (g x _); simpl; [|done]. by rewrite lookup_insert_ne.
Qed.

Lemma foldl_write_list_in (l : list A) c x :
  NoDup (key <$> l) → x ∈ l →
  list_queries (foldl (λ c x, write_list (key x) (g x) c) c l) !! key x =
  match g x (mjoin (list_queries c !! key x)) with
  | Some d => Some (Some d)
  | None => list_queries c !! key x
  end.
Proof.
  revert c. induction l as [|y l IH]; intros c Hnd Hx; [by inv Hx|].
  csimpl in Hnd. apply NoDup_cons in Hnd as [Hy Hnd].
  apply elem_of_cons in Hx as [->|Hx]; simpl.
  - rewrite foldl_write_list_notin by done. unfold write_list.
    destruct (g y _); simpl; [|done]. by rewrite lookup_insert_eq.
  - assert (key y ≠ key x) as Hne.
    { intros Heq. apply Hy. rewrite Heq. apply list_elem_of_fmap. eauto. }
    rewrite IH by done.
    assert (list_queries (write_list (key y) (g y) c) !! key x
            = list_queries c !! key x) as ->; [|done].
    unfold write_list.
    destruct (g y _); simpl; [|done]. by rewrite lookup_insert_ne.
Qed.
End list_writes.

Lemma mjoin_Some {A} (o : option (option A)) (a : A) :
  mjoin o = Some a ↔ o = Some (Some a).
Proof. destruct o as [[?|]|]; simpl; naive_solver. Qed.

(** *** The handlers, run *)

Lemma when_run (b : bool) (body : M ()) w es :
  (∀ qc, body qc = ((), mkQueryClient (w (cache qc)) (events qc ++ es))) →
  ∀ qc, when b body qc =
        ((), mkQueryClient (if b then w (cache qc) else cache qc)
               (events qc ++ if b then es else [])).
Proof.
  intros Hbody qc. destruct b; simpl; [done|].
  unfold mret, M_ret. rewrite app_nil_r. by destruct qc.
Qed.

Lemma useCreateFolder_onMutate_run env folderData qc :
  let previousTree := mjoin (tree_query (cache qc)) in
  let previousLists := map_to_list (list_queries (cache qc)) in
  let opt := optimisticFolder env folderData in
  let has_tree := bool_decide (is_Some previousTree) in
  useCreateFolder_onMutate env folderData qc =
  (mkCreateContext previousTree previousLists (createOptimisticId env),
   mkQueryClient
     (foldl (λ c x, write_list x.1 (create_list_updater folderData opt x.1) c)
        (if has_tree then write_tree (create_tree_updater folderData opt) (cache qc)
         else cache qc)
        previousLists)
     (events qc
      ++ [CancelQueries folderKeys.tree; CancelQueries folderKeys.lists]
      ++ (if has_tree then [SetQueryData folderKeys.tree] else [])
      ++ ((λ x, SetQueryData (folderKeys.list x.1)) <$> previousLists))).
Proof.
  intros previousTree previousLists opt has_tree.
  unfold useCreateFolder_onMutate, cancelQueries, getQueryData_tree,
    getQueriesData_lists, get_cache, emit.
  unfold mbind at 1 2 3 4 5 6 7 8, M_bind, mret at 1 2 3, M_ret. simpl.
  fold previousTree previousLists opt has_tree.
  rewrite (when_run has_tree _ (write_tree (create_tree_updater folderData opt))
             [SetQueryData folderKeys.tree]) by apply setQueryData_tree_run.
  simpl.
  rewrite (forEach_run previousLists _
             (λ x, write_list x.1 (create_list_updater folderData opt x.1))
             (λ x, SetQueryData (folderKeys.list x.1))).
  2:{ intros [k v] qc'. apply setQueryData_list_run. }
  simpl. rewrite <- !app_assoc. done.
Qed.

Lemma useCreateFolder_onError_run (context : CreateContext) qc :
  let restore_tree c :=
    match create_previousTree context with
    | Some previousTree => write_tree (λ _, Some previousTree) c
    | None => c
    end in
  useCreateFolder_onError (Some context) qc =
  ((), mkQueryClient
         (foldl (λ c x, write_list x.1 (λ _, x.2) c) (restore_tree (cache qc))
            (create_previousLists context))
         (events qc
          ++ (match create_previousTree context with
               | Some _ => [SetQueryData folderKeys.tree]
               | None => []
               end)
          ++ ((λ x, SetQueryData (folderKeys.list x.1))
                <$> create_previousLists context)
          ++ [ShowToast "Error creating folder"])).
Proof.
  intros restore_tree. unfold useCreateFolder_onError, showToast, emit.
  unfold mbind at 1 2, M_bind. simpl.
  assert (Htree :
    (match create_previousTree context with
     | Some previousTree => setQueryData_tree (λ _, Some previousTree)
     | None => mret ()
     end) qc =
    ((), mkQueryClient (restore_tree (cache qc))
           (events qc ++ match create_previousTree context with
                         | Some _ => [SetQueryData folderKeys.tree]
                         | None => []
                         end))).
  { unfold restore_tree. destruct (create_previousTree context).
    - apply setQueryData_tree_run.
    - unfold mret, M_ret. rewrite app_nil_r. by destruct qc. }
  rewrite Htree.
  rewrite (forEach_run (create_previousLists context) _
             (λ x, write_list x.1 (λ _, x.2))
             (λ x, SetQueryData (folderKeys.list x.1))).
  2:{ intros [k v] qc'. apply setQueryData_list_run. }
  simpl. by rewrite <- !app_assoc.
Qed.

Lemma useUpdateFolder_onMutate_run env folderId updates qc :
  let previousFolder := mjoin (detail_queries (cache qc) !! folderId) in
  let previousTree := mjoin (tree_query (cache qc)) in
  let has_folder := bool_decide (is_Some previousFolder) in
  useUpdateFolder_onMutate env folderId updates qc =
  (mkUpdateContext previousFolder previousTree,
   mkQueryClient
     (if has_folder
      then write_detail folderId (update_detail_updater env updates) (cache qc)
      else cache qc)
     (events qc
      ++ [CancelQueries (folderKeys.detail folderId); CancelQueries folderKeys.tree]
      ++ (if has_folder then [SetQueryData (folderKeys.detail folderId)] else []))).
Proof.
  intros previousFolder previousTree has_folder.
  unfold useUpdateFolder_onMutate, cancelQueries, getQueryData_tree,
    getQueryData_detail, get_cache, emit.
  unfold mbind at 1 2 3 4 5 6 7, M_bind, mret at 1 2 3, M_ret. simpl.
  fold previousFolder previousTree has_folder.
  rewrite (when_run has_folder _
             (write_detail folderId (update_detail_updater env updates))
             [SetQueryData (folderKeys.detail folderId)])
    by apply setQueryData_detail_run.
  simpl. by rewrite <- !app_assoc.
Qed.

Lemma useUpdateFolder_onError_run folderId (context : UpdateContext) qc :
  let restore_detail c :=
    match update_previousFolder context with
    | Some previousFolder => write_detail folderId (λ _, Some previousFolder) c
    | None => c
    end in
  let restore_tree c :=
    match update_previousTree context with
    | Some previousTree => write_tree (λ _, Some previousTree) c
    | None => c
    end in
  useUpdateFolder_onError folderId (Some context) qc =
  ((), mkQueryClient (restore_tree (restore_detail (cache qc)))
         (events qc
          ++ (match update_previousFolder context with
               | Some _ => [SetQueryData (folderKeys.detail folderId)]
               | None => []
               end)
          ++ (match update_previousTree context with
               | Some _ => [SetQueryData folderKeys.tree]
               | None => []
               end)
          ++ [ShowToast "Error updating folder"])).
Proof.
  intros restore_detail restore_tree.
  unfold useUpdateFolder_onError, showToast, emit, restore_detail, restore_tree.
  unfold mbind at 1 2, M_bind. simpl.
  destruct (update_previousFolder context), (update_previousTree context);
    rewrite ?setQueryData_detail_run; unfold mret, M_ret; simpl;
    rewrite ?setQueryData_tree_run; simpl;
    rewrite <- ?app_assoc, ?app_nil_r; done.
Qed.

Lemma useDeleteFolder_onMutate_run variables qc :
  let previousTree := mjoin (tree_query (cache qc)) in
  let has_tree := bool_decide (is_Some previousTree) in
  useDeleteFolder_onMutate variables qc =
  (mkDeleteContext previousTree,
   mkQueryClient
     (if has_tree
      then write_tree (delete_tree_updater (dv_folderId variables)) (cache qc)
      else cache qc)
     (events qc
      ++ [CancelQueries folderKeys.tree]
      ++ (if has_tree then [SetQueryData folderKeys.tree] else []))).
Proof.
  intros previousTree has_tree.
  unfold useDeleteFolder_onMutate, cancelQueries, getQueryData_tree,
    get_cache, emit.
  unfold mbind at 1 2 3 4, M_bind, mret at 1 2, M_ret. simpl.
  fold previousTree has_tree.
  rewrite (when_run has_tree _
             (write_tree (delete_tree_updater (dv_folderId variables)))
             [SetQueryData folderKeys.tree])
    by apply setQueryData_tree_run.
  simpl. by rewrite <- !app_assoc.
Qed.

Lemma useDeleteFolder_onError_run (context : DeleteContext) qc :
  useDeleteFolder_onError (Some context) qc =
  ((), mkQueryClient
         (match delete_previousTree context with
          | Some previousTree => write_tree (λ _, Some previousTree) (cache qc)
          | None => cache qc
          end)
         (events qc
          ++ (match delete_previousTree context with
               | Some _ => [SetQueryData folderKeys.tree]
               | None => []
               end)
          ++ [ShowToast "Error deleting folder"])).
Proof.
  unfold useDeleteFolder_onError, showToast, emit.
  unfold mbind at 1, M_bind. simpl.
  destruct (delete_previousTree context);
    rewrite ?setQueryData_tree_run; unfold mret, M_ret; simpl;
    rewrite <- ?app_assoc, ?app_nil_r; done.
Qed.

(** *** Rolling back *)

Lemma QueryCache_eq (c c' : QueryCache) :
  tree_query c = tree_query c' → list_queries c = list_queries c' →
  detail_queries c = detail_queries c' → c = c'.
Proof. destruct c, c'. simpl. by intros -> -> ->. Qed.

Lemma create_rollback env folderData qc :
  cache (exec (useCreateFolder_onError
                 (Some (useCreateFolder_onMutate env folderData qc).1))
           (useCreateFolder_onMutate env folderData qc).2)
  = cache qc.
Proof.
  unfold exec. rewrite useCreateFolder_onMutate_run. cbn zeta. simpl.
  rewrite useCreateFolder_onError_run. cbn zeta. simpl.
  set (c0 := cache qc). set (opt := optimisticFolder env folderData).
  set (L := map_to_list (list_queries c0)).
  set (c_tree := if bool_decide (is_Some (mjoin (tree_query c0)))
                 then write_tree (create_tree_updater folderData opt) c0 else c0).
  set (c1 := foldl _ c_tree L).
  set (c1' := match mjoin (tree_query c0) with
              | Some previousTree => write_tree (λ _, Some previousTree) c1
              | None => c1
              end).
  destruct (foldl_write_list_others fst (λ x _, x.2) L c1') as [Ht2 Hd2].
  destruct (foldl_write_list_others fst
              (λ x, create_list_updater folderData opt x.1) L c_tree) as [Ht1 Hd1].
  fold c1 in Ht1, Hd1.
  assert (Hl_tree : list_queries c_tree = list_queries c0).
  { unfold c_tree, write_tree. case_bool_decide; [|done].
    by destruct (create_tree_updater _ _ _). }
  assert (Hd_tree : detail_queries c_tree = detail_queries c0).
  { unfold c_tree, write_tree. case_bool_decide; [|done].
    by destruct (create_tree_updater _ _ _). }
  assert (Hl1' : list_queries c1' = list_queries c1).
  { unfold c1'. by destruct (mjoin (tree_query c0)). }
  assert (Hd1' : detail_queries c1' = detail_queries c1).
  { unfold c1'. by destruct (mjoin (tree_query c0)). }
  assert (HndL : NoDup (fst <$> L)) by apply NoDup_fst_map_to_list.
  apply QueryCache_eq.
  - rewrite Ht2. unfold c1'.
    destruct (mjoin (tree_query c0)) as [t|] eqn:Ht; simpl.
    + by apply mjoin_Some in Ht.
    + rewrite Ht1. unfold c_tree.
      by rewrite bool_decide_eq_false_2 by (by intros []).
  - apply map_eq. intros k.
    destruct (list_queries c0 !! k) as [v|] eqn:Hk.
    + assert ((k, v) ∈ L) as Hin by by apply elem_of_map_to_list.
      pose proof (foldl_write_list_in fst (λ x _, x.2) L c1' (k, v) HndL Hin) as H2.
      simpl in H2. rewrite H2. destruct v as [d|]; [done|].
      rewrite Hl1'.
      pose proof (foldl_write_list_in fst
                    (λ x, create_list_updater folderData opt x.1) L c_tree
                    (k, None) HndL Hin) as H1.
      simpl in H1. fold c1 in H1. rewrite H1, Hl_tree, Hk. done.
    + assert (k ∉ fst <$> L) as Hnotin.
      { intros ([k' v] & -> & Hin%elem_of_map_to_list)%list_elem_of_fmap.
        simpl in Hk. congruence. }
      rewrite (foldl_write_list_notin fst (λ x _, x.2) L c1' k Hnotin), Hl1'.
      unfold c1.
      rewrite (foldl_write_list_notin fst
                 (λ x, create_list_updater folderData opt x.1) L c_tree k Hnotin).
      by rewrite Hl_tree.
  - by rewrite Hd2, Hd1', Hd1, Hd_tree.
Qed.

Lemma update_rollback env folderId updates qc :
  cache (exec (useUpdateFolder_onError folderId
                 (Some (useUpdateFolder_onMutate env folderId updates qc).1))
           (useUpdateFolder_onMutate env folderId updates qc).2)
  = cache qc.
Proof.
  unfold exec. rewrite useUpdateFolder_onMutate_run. cbn zeta. simpl.
  rewrite useUpdateFolder_onError_run. cbn zeta. simpl.
  destruct qc as [[tq lq dq] evs]. simpl.
  unfold write_detail, write_tree, update_detail_updater. simpl.
  destruct (dq !! folderId) as [[d|]|] eqn:Hd; simpl;
    destruct tq as [[t|]|]; simpl;
    rewrite ?insert_insert_eq, ?(insert_id dq folderId (Some d)); done.
Qed.

Lemma delete_rollback variables qc :
  cache (exec (useDeleteFolder_onError
                 (Some (useDeleteFolder_onMutate variables qc).1))
           (useDeleteFolder_onMutate variables qc).2)
  = cache qc.
Proof.
  unfold exec. rewrite useDeleteFolder_onMutate_run. cbn zeta. simpl.
  rewrite useDeleteFolder_onError_run. simpl.
  destruct qc as [[tq lq dq] evs]. simpl.
  unfold write_tree, delete_tree_updater. simpl.
  by destruct tq as [[t|]|].
Qed.

(** *** The order of the calls *)




End query_client_facts.

(* ===================================================================== *)
(** * Main results *)
(* ===================================================================== *)

Section migration_results.
Import Migration.

(** C1 (as amended).  The ancestor walk always returns, and it returns
    TRUE exactly when the ancestor equals the target or is one of the
    first 100 folders on the target's parent chain: the walk is capped at
    100 steps.  Consequently, in a table where no folder is its own
    ancestor, an update of a folder's parent that passes the
    self-reference check constraint, and that the walk does not report as
    a move below the folder itself, leaves no folder on its own ancestor
    chain, as long as the parent chain of the new parent ends within the
    cap. *)
Theorem folder_descendant_walk_capped :
  (∀ (tbl : gmap uuid folder_row) (t a : uuid),
     ∃ b, archon_is_folder_descendant tbl (Some t) (Some a) = Some b ∧
          (b = true ↔
           a = t ∨ ∃ k, (1 ≤ k ≤ 100)%nat ∧ nth_parent tbl k t = Some a)) ∧
  (∀ (tbl tbl' : gmap uuid folder_row) (f : uuid) (p : option uuid),
     no_folder_is_own_ancestor tbl →
     (∀ q, p = Some q → chain_within_cap tbl q) →
     archon_is_folder_descendant tbl p (Some f) = Some false →
     update_parent_id tbl f p = Some tbl' →
     no_folder_is_own_ancestor tbl').
Proof.
  split.
  - intros tbl t a. apply archon_is_folder_descendant_spec.
  - intros tbl tbl' f p. apply guarded_update_keeps_chains_acyclic.
Qed.

(** Folders 0 <- 1 <- 2 and a separate root 3; folder 3 is moved under
    folder 2. *)
Lemma folder_descendant_walk_capped_witness :
  (∃ b, archon_is_folder_descendant (chain_table 2) (Some 2%N) (Some 0%N) = Some b ∧
        (b = true ↔
         0%N = 2%N ∨
         ∃ k, (1 ≤ k ≤ 100)%nat ∧ nth_parent (chain_table 2) k 2%N = Some 0%N)) ∧
  no_folder_is_own_ancestor
    (<[3%N := FolderRow "c" (Some 2%N)]> (<[3%N := FolderRow "c" None]> (chain_table 2))).
Proof.
  split.
  - apply (proj1 folder_descendant_walk_capped).
  - apply (proj2 folder_descendant_walk_capped
             (<[3%N := FolderRow "c" None]> (chain_table 2)) _ 3%N (Some 2%N)).
    + apply parents_decrease_sound. vm_compute. reflexivity.
    + intros q [= <-]. vm_compute. reflexivity.
    + vm_compute. reflexivity.
    + vm_compute. reflexivity.
Defined.

(** C1 (as stated) fails on a chain of 102 folders 0 <- 1 <- ... <- 101:
    folder 0 is on the parent chain of folder 101, yet the walk answers
    FALSE; the update that puts folder 0 under folder 101 passes the check
    constraint, and afterwards folder 0 is on its own ancestor chain. *)
Lemma folder_descendant_walk_deep_chain :
  on_parent_chain (chain_table 101) 0%N 101%N ∧
  archon_is_folder_descendant (chain_table 101) (Some 101%N) (Some 0%N) = Some false ∧
  ∃ tbl', update_parent_id (chain_table 101) 0%N (Some 101%N) = Some tbl' ∧
          on_parent_chain tbl' 0%N 0%N.
Proof.
  split; [|split].
  - exists 101%nat. split; [lia|]. vm_compute. reflexivity.
  - vm_compute. reflexivity.
  - eexists. split; [vm_compute; reflexivity|].
    exists 102%nat. split; [lia|]. vm_compute. reflexivity.
Qed.

(** C7.  On a table whose parent pointers form a finite forest (with the
    schema's foreign keys in force and a source count that fits the
    INTEGER result), the recursive query terminates and
    [archon_count_folder_sources(f)] is the number of sources whose
    folder is [f] or a transitive subfolder of [f]. *)
Theorem archon_count_folder_sources_counts_subtree (db : database) (f : uuid) :
  forest (archon_knowledge_folders db) →
  source_fk db →
  Z.of_nat (length (archon_sources db)) ≤ int4_max →
  ∃ c : nat,
    count_of (source_in_subtree (archon_knowledge_folders db) f) (archon_sources db) c ∧
    ∀ fuel, (size (archon_knowledge_folders db) ≤ fuel)%nat →
            archon_count_folder_sources fuel db (Some f) = Some (Z.of_nat c).
Proof.
  destruct db as [tbl srcs]. simpl. intros [Hpfk Hacyc] Hsfk Hint.
  assert (Hres : ∀ fuel, (size tbl ≤ fuel)%nat →
    ∃ c, count_of (source_in_subtree tbl f) srcs c ∧
         archon_count_folder_sources fuel (Database tbl srcs) (Some f)
         = Some (Z.of_nat c)).
  { intros fuel Hfuel.
    destruct (folder_tree_spec tbl f fuel Hacyc Hfuel) as (res & Hres & Hin).
    exists (length (filter (λ s, folder_id_in res s = true) srcs)). split.
    - apply count_of_filter. intros s Hs.
      unfold folder_id_in, source_in_subtree.
      destruct (s_folder_id s) as [g|] eqn:Hg.
      + rewrite bool_decide_eq_true, Hin. split.
        * intros [_ ?]. by exists g.
        * intros (g' & [= <-] & Hsub). split; [|done].
          destruct Hsub as (k & Hk).
          apply (nth_parent_row tbl k g f); [done| |done].
          by apply (Hsfk s g).
      + split; [done|]. by intros (g' & ? & _).
    - unfold archon_count_folder_sources. simpl. rewrite Hres. simpl.
      unfold cast_integer.
      pose proof (length_filter (λ s, folder_id_in res s = true) srcs).
      case_match eqn:Hrange; [done|].
      apply andb_false_iff in Hrange as [Hr|Hr];
        [apply Z.leb_gt in Hr|apply Z.leb_gt in Hr]; unfold int4_max in *; lia. }
  destruct (Hres (size tbl)) as (c & Hc & _); [done|].
  exists c. split; [done|]. intros fuel Hfuel.
  destruct (Hres fuel Hfuel) as (c' & Hc' & ->).
  by rewrite (count_of_functional _ _ _ _ Hc Hc').
Qed.

(** Folders 0 <- 1 <- 2 with one source in each and one source at the
    root; the count is asked for folder 1. *)
Lemma archon_count_folder_sources_witness :
  let db := Database (chain_table 2)
              [SourceRow "a" (Some 0%N); SourceRow "b" (Some 1%N);
               SourceRow "c" (Some 2%N); SourceRow "d" None] in
  ∃ c : nat,
    count_of (source_in_subtree (archon_knowledge_folders db) 1%N)
      (archon_sources db) c ∧
    ∀ fuel, (size (archon_knowledge_folders db) ≤ fuel)%nat →
            archon_count_folder_sources fuel db (Some 1%N) = Some (Z.of_nat c).
Proof.
  intros db. apply (archon_count_folder_sources_counts_subtree db 1%N).
  - split.
    + apply parent_fk_check_sound. vm_compute. reflexivity.
    + apply parents_decrease_sound. vm_compute. reflexivity.
  - apply source_fk_check_sound. vm_compute. reflexivity.
  - vm_compute. discriminate.
Defined.

End migration_results.

Section service_results.
Import JS Folders FolderService DragAndDrop FolderQueries.

(** C2.  Over a cached folder tree, whose folder identifiers are unique,
    and for the identifier [T] of a folder drop zone, which is not empty
    (identifiers are the UUID primary keys of the folders):
    [wouldCreateCircularReference(F, T, tree)] returns true exactly when
    [T] equals [F] or [F] lies on the path from the root to [T], and
    [validateDrop] returns false for a folder [F] dragged onto the folder
    drop zone [T] whenever [T] equals [F] or [T] is a descendant of
    [F]. *)
Theorem move_into_descendant_rejected
    (folderTree : FolderTreeResponse) (F T : js_string)
    (draggedItem : DragItemData) (draggedItems : list DragItemData) :
  NoDup (folder_ids (tree folderTree)) →
  T ≠ [] →
  drag_type draggedItem = folder_type →
  drag_id draggedItem = F →
  (wouldCreateCircularReference F (Val T) folderTree = true ↔
   T = F ∨ descendant_of (tree folderTree) F T) ∧
  (T = F ∨ descendant_of (tree folderTree) F T →
   validateDrop draggedItem draggedItems (mkDropZoneData drop_folder (Val T))
     (Some folderTree) = false).
Proof.
  intros Hnd HT Htype Hid.
  assert (Hiff : wouldCreateCircularReference F (Val T) folderTree = true ↔
                 T = F ∨ descendant_of (tree folderTree) F T).
  { unfold wouldCreateCircularReference. destruct T as [|c T]; [done|].
    destruct (decide (F = c :: T)) as [->|Hne]; [by split; [left|]|].
    destruct (findParentPath (c :: T) (tree folderTree) []) as [targetPath|] eqn:Hpath.
    - rewrite bool_decide_eq_true. split.
      + intros HF. right.
        apply findParentPath_sound in Hpath as (sub & n' & -> & Hocc & Hn').
        by exists sub, n'.
      + intros [?|(sub & n' & Hocc & Hn' & HF)]; [congruence|].
        rewrite (findParentPath_complete _ _ _ _ Hocc Hn' Hnd []) in Hpath.
        by simplify_eq.
    - split; [done|]. intros [?|(sub & n' & Hocc & Hn' & HF)]; [congruence|].
      by rewrite (findParentPath_complete _ _ _ _ Hocc Hn' Hnd []) in Hpath. }
  split; [done|]. intros Hcirc. apply Hiff in Hcirc.
  unfold validateDrop. cbn -[wouldCreateCircularReference].
  rewrite Htype, Hid, Hcirc. rewrite !bool_decide_eq_true_2 by done.
  unfold strict_eq. case_bool_decide as Heq; [done|].
  by destruct T.
Qed.

(** The tree [A > B]: folder [B] is dragged onto nothing, folder [A] onto
    its child [B]. *)
Lemma move_into_descendant_rejected_witness :
  let folderTree :=
    mkFolderTreeResponse
      [FolderNode (sample_folder (js "A") 1)
         [FolderNode (sample_folder (js "B") 0) []]] 2 None in
  let draggedItem := mkDragItemData folder_type (js "A") None Null in
  (wouldCreateCircularReference (js "A") (Val (js "B")) folderTree = true ↔
   js "B" = js "A" ∨ descendant_of (tree folderTree) (js "A") (js "B")) ∧
  (js "B" = js "A" ∨ descendant_of (tree folderTree) (js "A") (js "B") →
   validateDrop draggedItem [draggedItem] (mkDropZoneData drop_folder (Val (js "B")))
     (Some folderTree) = false).
Proof.
  intros folderTree draggedItem.
  apply (move_into_descendant_rejected folderTree (js "A") (js "B")
           draggedItem [draggedItem]).
  - apply (bool_decide_unpack _). vm_compute. exact I.
  - discriminate.
  - reflexivity.
  - reflexivity.
Defined.

(** Both conditions on the identifiers are used.  The check tests its
    target for truthiness, so the empty identifier is taken for the root;
    and [findParentPath] stops at the first node with the identifier, so
    in a tree that repeated an identifier only the first occurrence would
    be looked at. *)
Remark move_into_descendant_empty_id :
  wouldCreateCircularReference [] (Val []) (mkFolderTreeResponse [] 0 None) = false ∧
  (let folderTree :=
     mkFolderTreeResponse
       [FolderNode (sample_folder (js "F") 1)
          [FolderNode (sample_folder [] 0) []]] 2 None in
   let draggedItem := mkDragItemData folder_type (js "F") None Null in
   descendant_of (tree folderTree) (js "F") [] ∧
   validateDrop draggedItem [draggedItem] (mkDropZoneData drop_folder (Val []))
     (Some folderTree) = true) ∧
  (let folderTree :=
     mkFolderTreeResponse
       [FolderNode (sample_folder (js "T") 0) [];
        FolderNode (sample_folder (js "F") 1)
          [FolderNode (sample_folder (js "T") 0) []]] 3 None in
   descendant_of (tree folderTree) (js "F") (js "T") ∧
   wouldCreateCircularReference (js "F") (Val (js "T")) folderTree = false).
Proof.
  split; [reflexivity|]. split.
  - split; [|vm_compute; reflexivity].
    exists [js "F"], (FolderNode (sample_folder [] 0) []).
    split; [|split; [reflexivity|by left]].
    eapply (occurs_below _ (sample_folder (js "F") 1)); [by left|].
    constructor. by left.
  - split; [|vm_compute; reflexivity].
    exists [js "F"], (FolderNode (sample_folder (js "T") 0) []).
    split; [|split; [reflexivity|by left]].
    eapply (occurs_below _ (sample_folder (js "F") 1)); [right; by left|].
    constructor. by left.
Qed.

(** C6.  [validateFolderName] answers [valid = false] exactly for the
    names that are empty or made of white space only, that are longer
    than 255 code units, or that contain one of the characters
    less-than, greater-than, colon, double quote (code 34), slash,
    backslash, vertical bar, question mark and asterisk; every other name
    is valid. *)
Theorem validateFolderName_rejects (name : js_string) :
  let rejected :=
    (name = [] ∨ Forall (λ c, is_white_space c = true) name)
    ∨ (255 < length name)%nat
    ∨ Exists (λ c, c ∈ js "<>:/\|?*" ∨ c = 34%N) name in
  (valid (validateFolderName name) = false ↔ rejected) ∧
  (valid (validateFolderName name) = true ↔ ¬ rejected).
Proof.
  intros rejected.
  assert (Hfalse : valid (validateFolderName name) = false ↔ rejected).
  2:{ split; [done|]. rewrite <- Hfalse. by destruct (valid _). }
  unfold rejected.
  assert (Hchars : Exists (λ c, c ∈ js "<>:/\|?*" ∨ c = 34%N) name ↔
                   invalidChars_test name = true).
  { rewrite invalidChars_test_true. apply Exists_proper; [|done].
    intros c. unfold invalidChars. vm_compute js.
    rewrite !elem_of_cons, !elem_of_nil. tauto. }
  rewrite Hchars. unfold validateFolderName.
  destruct (bool_decide (name = [])) eqn:Hempty; simpl.
  { apply bool_decide_eq_true in Hempty. split; [|done]. intros _. by left; left. }
  apply bool_decide_eq_false in Hempty.
  case_bool_decide as Htrim; simpl.
  { split; [|done]. intros _. left. right. apply trim_nil.
    by apply nil_length_inv. }
  assert (¬ Forall (λ c, is_white_space c = true) name) as Hws.
  { intros Hws%trim_nil. by rewrite Hws in Htrim. }
  case_bool_decide as Hlen; simpl.
  { split; [|done]. intros _. right. by left. }
  destruct (invalidChars_test name); simpl.
  { split; [|done]. intros _. right. by right. }
  split; [done|]. intros [[?|?]|[?|?]]; done.
Qed.

(** C9.  Unless a drag is in progress, the drop is valid and a dragged
    item is present, [handleDrop] calls none of the move callbacks and
    leaves the drag state as it is. *)
Theorem handleDrop_guard (cbs : Callbacks) (dragState : DragState)
    (dropZone : DropZoneData) :
  ¬ (isDragging dragState = true ∧ isValidDrop dragState = true ∧
     is_Some (draggedItem dragState)) →
  handleDrop cbs dragState dropZone = ([], dragState).
Proof.
  intros Hguard. unfold handleDrop.
  destruct (isDragging dragState), (isValidDrop dragState); simpl; try done.
  case_bool_decide as Hitem; simpl; [|done]. destruct Hguard. eauto.
Qed.

(** A folder is being dragged but the drop was found invalid; every
    callback is present. *)
Lemma handleDrop_guard_witness :
  let cbs := mkCallbacks (Some (λ _ _, true)) (Some (λ _ _, true))
               (Some (λ _ _, true)) in
  let item := mkDragItemData folder_type (js "A") None Null in
  let dragState := mkDragState true (Some item) [item] None false in
  handleDrop cbs dragState (mkDropZoneData drop_folder (Val (js "B")))
  = ([], dragState).
Proof.
  intros cbs item dragState. apply handleDrop_guard.
  simpl. intros (_ & Hvalid & _). discriminate.
Defined.

(** C10.  Without the [moveContentsToParent] argument, both
    [folderService.deleteFolder] and the mutation function of
    [useDeleteFolder] send a DELETE request whose query string is
    [move_contents_to_parent=true]. *)
Theorem deleteFolder_defaults_to_reparenting (folderId : js_string) :
  deleteFolder folderId None
  = mkRequest (js "/api/folders/" ++ folderId ++ js "?move_contents_to_parent=true")
      DELETE ∧
  useDeleteFolder_mutationFn (mkDeleteVariables folderId None)
  = mkRequest (js "/api/folders/" ++ folderId ++ js "?move_contents_to_parent=true")
      DELETE.
Proof. done. Qed.

End service_results.

Section query_results.
Import JS Folders FolderService FolderQueries.

(** C3.  For the three mutations with optimistic updates, running
    [onError] with the context returned by [onMutate] puts the cache back
    to what it was before [onMutate]: the tree, every list query and the
    folder detail hold their earlier values. *)
Theorem optimistic_updates_rolled_back :
  (∀ env folderData qc,
     let r := useCreateFolder_onMutate env folderData qc in
     cache (exec (useCreateFolder_onError (Some r.1)) r.2) = cache qc) ∧
  (∀ env folderId updates qc,
     let r := useUpdateFolder_onMutate env folderId updates qc in
     cache (exec (useUpdateFolder_onError folderId (Some r.1)) r.2) = cache qc) ∧
  (∀ variables qc,
     let r := useDeleteFolder_onMutate variables qc in
     cache (exec (useDeleteFolder_onError (Some r.1)) r.2) = cache qc).
Proof.
  split_and!.
  - intros env folderData qc. apply create_rollback.
  - intros env folderId updates qc. apply update_rollback.
  - intros variables qc. apply delete_rollback.
Qed.


Lemma matchesParent_spec (listKey_parentId parent_id : optional js_string) :
  matchesParent listKey_parentId parent_id = true ↔
  or_null listKey_parentId = or_null parent_id.
Proof.
  unfold matchesParent, strict_eq, or_null.
  destruct listKey_parentId as [| |[|c k]], parent_id as [| |[|d q]]; simpl;
    rewrite ?orb_false_r, ?orb_true_r, ?bool_decide_eq_true; try done.
  all: split; congruence.
Qed.

(** C4 (as amended).  With a cached tree whose folder identifiers are
    unique, and a new folder whose [parent_id] is absent (or empty) or
    names a folder of that tree, [useCreateFolder.onMutate] adds exactly
    one node to the tree: at the end of the root when there is no parent,
    otherwise as the last child of the parent, whose [subfolder_count]
    grows by one; [total_folders] grows by one; and every cached list
    whose [parentId] stands for the same parent as the new folder's
    [parent_id] gets the new folder appended and its [total] increased by
    one, while the other lists stay as they are. *)
Theorem create_adds_one_node (env : Env) (folderData : FolderCreate)
    (qc : QueryClient) (old : FolderTreeResponse) :
  tree_query (cache qc) = Some (Some old) →
  NoDup (folder_ids (tree old)) →
  (truthy (fc_parent_id folderData) = false ∨
   ∃ p, fc_parent_id folderData = Val p ∧ p ∈ folder_ids (tree old)) →
  let opt := optimisticFolder env folderData in
  let treeNode := FolderNode opt [] in
  let qc' := exec (useCreateFolder_onMutate env folderData) qc in
  ∃ new,
    tree_query (cache qc') = Some (Some new) ∧
    tree_size (tree new) = S (tree_size (tree old)) ∧
    total_folders new = total_folders old + 1 ∧
    (truthy (fc_parent_id folderData) = false →
     tree new = tree old ++ [treeNode]) ∧
    (∀ p, fc_parent_id folderData = Val p → p ≠ [] →
       ∃ pf ch,
         findFolderInTree p old = Some (FolderNode pf ch) ∧
         findFolderInTree p new =
         Some (FolderNode (with_subfolder_count pf (subfolder_count pf + 1))
                 (ch ++ [treeNode]))) ∧
    (∀ parentId l,
       list_queries (cache qc) !! parentId = Some (Some l) →
       list_queries (cache qc') !! parentId =
       Some (Some (if bool_decide (or_null parentId = parent_id opt)
                   then mkFolderListResponse (folders l ++ [opt]) (total l + 1)
                   else l))).
Proof.
  intros Hold Hnd Hparent opt treeNode qc'. unfold qc', exec.
  rewrite useCreateFolder_onMutate_run. cbn zeta. simpl.
  fold opt. rewrite Hold. simpl.
  set (L := map_to_list (list_queries (cache qc))).
  set (c_tree := write_tree (create_tree_updater folderData opt) (cache qc)).
  destruct (foldl_write_list_others fst
              (λ x, create_list_updater folderData opt x.1) L c_tree) as [Ht _].
  assert (Hlists : ∀ parentId l,
    list_queries (cache qc) !! parentId = Some (Some l) →
    list_queries (foldl (λ c x, write_list x.1
                           (create_list_updater folderData opt x.1) c) c_tree L)
      !! parentId =
    Some (Some (if bool_decide (or_null parentId = parent_id opt)
                then mkFolderListResponse (folders l ++ [opt]) (total l + 1)
                else l))).
  { intros k l Hk.
    assert ((k, Some l) ∈ L) as Hin by by apply elem_of_map_to_list.
    pose proof (foldl_write_list_in fst
                  (λ x, create_list_updater folderData opt x.1) L c_tree
                  (k, Some l) (NoDup_fst_map_to_list _) Hin) as Hw.
    simpl in Hw. rewrite Hw.
    assert (list_queries c_tree = list_queries (cache qc)) as ->.
    { unfold c_tree, write_tree. by destruct (create_tree_updater _ _ _). }
    rewrite Hk. simpl.
    destruct (matchesParent k (fc_parent_id folderData)) eqn:Hm.
    - apply matchesParent_spec in Hm. by rewrite bool_decide_eq_true_2.
    - rewrite bool_decide_eq_false_2; [done|].
      intros Heq. apply matchesParent_spec in Heq. congruence. }
  destruct (create_tree_updater folderData opt (Some old)) as [new|] eqn:Hnew.
  2:{ unfold create_tree_updater in Hnew.
      by destruct (fc_parent_id folderData) as [| |[|c p]]. }
  exists new. split.
  { rewrite Ht. unfold c_tree, write_tree. rewrite Hold.
    change (mjoin (Some (Some old))) with (Some old). by rewrite Hnew. }
  unfold create_tree_updater in Hnew. fold treeNode in Hnew.
  destruct (fc_parent_id folderData) as [| |[|c p]] eqn:Hpid;
    simpl in Hnew; simplify_eq; simpl.
  all: split_and!; try done;
    try (intros k l Hk; rewrite (Hlists k l Hk); simpl; by rewrite Hpid).
  1-3: rewrite tree_size_app; change (tree_size [treeNode]) with 1%nat; lia.
  1: by intros p [= <-].
  all: destruct Hparent as [?|(p' & [= <-] & Hp)]; [done|].
  - rewrite addToParent_size by done.
    change (node_size treeNode) with 1%nat. lia.
  - intros p' [= <-] _.
    destruct (findFolderInTree_found (c :: p) old Hp) as (pf & ch & Hfound & _).
    exists pf, ch. split; [done|].
    by rewrite findFolderInTree_addToParent, Hfound.
Qed.

(** The tree holds the folder [P]; a folder is created under [P] while
    the lists of the root and of [P] are cached. *)
Lemma create_adds_one_node_witness :
  let env := mkEnv (js "temp-1") (js "temp-2") (js "now") (js "now") in
  let folderData := mkFolderCreate (js "New") Undefined Undefined Undefined 0 []
                      (Val (js "P")) in
  let old := mkFolderTreeResponse [FolderNode (sample_folder (js "P") 0) []] 1 None in
  let qc := fresh_client
              (mkQueryCache (Some (Some old))
                 {[ Null := Some (mkFolderListResponse [sample_folder (js "P") 0] 1);
                    Val (js "P") := Some (mkFolderListResponse [] 0) ]} ∅) in
  let opt := optimisticFolder env folderData in
  let qc' := exec (useCreateFolder_onMutate env folderData) qc in
  ∃ new,
    tree_query (cache qc') = Some (Some new) ∧
    tree_size (tree new) = S (tree_size (tree old)) ∧
    total_folders new = total_folders old + 1 ∧
    (truthy (fc_parent_id folderData) = false →
     tree new = tree old ++ [FolderNode opt []]) ∧
    (∀ p, fc_parent_id folderData = Val p → p ≠ [] →
       ∃ pf ch,
         findFolderInTree p old = Some (FolderNode pf ch) ∧
         findFolderInTree p new =
         Some (FolderNode (with_subfolder_count pf (subfolder_count pf + 1))
                 (ch ++ [FolderNode opt []]))) ∧
    (∀ parentId l,
       list_queries (cache qc) !! parentId = Some (Some l) →
       list_queries (cache qc') !! parentId =
       Some (Some (if bool_decide (or_null parentId = parent_id opt)
                   then mkFolderListResponse (folders l ++ [opt]) (total l + 1)
                   else l))).
Proof.
  intros env folderData old qc opt qc'.
  apply (create_adds_one_node env folderData qc old).
  - reflexivity.
  - apply (bool_decide_unpack _). vm_compute. exact I.
  - right. exists (js "P"). split; [reflexivity|]. by left.
Defined.

(** C4 (as stated) fails when the parent is not in the cached tree: no
    node is added, and [total_folders] is increased all the same. *)
Lemma create_under_unknown_parent_adds_no_node :
  let env := mkEnv (js "temp-1") (js "temp-2") (js "now") (js "now") in
  let folderData := mkFolderCreate (js "New") Undefined Undefined Undefined 0 []
                      (Val (js "P")) in
  let old := mkFolderTreeResponse [FolderNode (sample_folder (js "Q") 0) []] 1 None in
  let qc := fresh_client (mkQueryCache (Some (Some old)) ∅ ∅) in
  NoDup (folder_ids (tree old)) ∧
  tree_query (cache (exec (useCreateFolder_onMutate env folderData) qc))
  = Some (Some (mkFolderTreeResponse (tree old) 2 None)).
Proof.
  split; [apply (bool_decide_unpack _); vm_compute; exact I|].
  vm_compute. reflexivity.
Qed.

(** C5 (as amended).  With a cached tree, [useDeleteFolder.onMutate]
    removes every folder node with the given identifier together with what
    is below it, keeps every other node where it was, and lowers
    [total_folders] by one, not below zero. *)
Theorem delete_removes_folder (variables : DeleteVariables) (qc : QueryClient)
    (old : FolderTreeResponse) :
  tree_query (cache qc) = Some (Some old) →
  let F := dv_folderId variables in
  let qc' := exec (useDeleteFolder_onMutate variables) qc in
  ∃ new,
    tree_query (cache qc') = Some (Some new) ∧
    (∀ path n', occurs (tree new) path n' →
                (¬ is_folder_with_id F n') ∧ (F ∉ path)) ∧
    (∀ path key,
       (∃ n', occurs (tree new) path n' ∧ node_key n' = key) ↔
       (∃ n, occurs (tree old) path n ∧ node_key n = key ∧
             (F ∉ path) ∧ key ≠ (folder_type, F))) ∧
    total_folders new = Z.max 0 (total_folders old - 1).
Proof.
  intros Hold F qc'. unfold qc', exec.
  rewrite useDeleteFolder_onMutate_run. cbn zeta. simpl.
  rewrite Hold. simpl. unfold write_tree. rewrite Hold. simpl.
  eexists. split; [done|]. simpl. fold F. split_and!; [| |done].
  - intros path n' (n & _ & -> & HF & Hn)%occurs_removeFolder.
    split; [|done]. by destruct n.
  - intros path key. split.
    + intros (n' & (n & Hocc & -> & HF & Hn)%occurs_removeFolder & <-).
      exists n. rewrite removeFolder_node_key. split_and!; [done..|].
      destruct n as [f ch|s]; simpl in *; congruence.
    + intros (n & Hocc & <- & HF & Hkey).
      exists (removeFolder_node F n). rewrite removeFolder_node_key.
      split; [|done]. apply occurs_removeFolder. exists n.
      split_and!; [done|done|done|].
      destruct n as [f ch|s]; simpl in *; [congruence|by intros []].
Qed.

(** The tree [P > (F > G), s]: folder [F] is deleted. *)
Lemma delete_removes_folder_witness :
  let variables := mkDeleteVariables (js "F") None in
  let old :=
    mkFolderTreeResponse
      [FolderNode (sample_folder (js "P") 1)
         [FolderNode (sample_folder (js "F") 1)
            [FolderNode (sample_folder (js "G") 0) []];
          SourceNode (sample_source (js "s"))]] 3 None in
  let qc := fresh_client (mkQueryCache (Some (Some old)) ∅ ∅) in
  let qc' := exec (useDeleteFolder_onMutate variables) qc in
  ∃ new,
    tree_query (cache qc') = Some (Some new) ∧
    (∀ path n', occurs (tree new) path n' →
                (¬ is_folder_with_id (js "F") n') ∧ (js "F" ∉ path)) ∧
    (∀ path key,
       (∃ n', occurs (tree new) path n' ∧ node_key n' = key) ↔
       (∃ n, occurs (tree old) path n ∧ node_key n = key ∧
             (js "F" ∉ path) ∧ key ≠ (folder_type, js "F"))) ∧
    total_folders new = Z.max 0 (total_folders old - 1).
Proof.
  intros variables old qc qc'.
  apply (delete_removes_folder variables qc old). reflexivity.
Defined.

(** C5 (as stated) fails on the counts: after the only subfolder [F] of
    [P] is deleted, [P] is left without children and its
    [subfolder_count] is still 1. *)
Lemma delete_leaves_parent_counts :
  let variables := mkDeleteVariables (js "F") None in
  let old :=
    mkFolderTreeResponse
      [FolderNode (sample_folder (js "P") 1)
         [FolderNode (sample_folder (js "F") 0) []]] 2 None in
  let qc := fresh_client (mkQueryCache (Some (Some old)) ∅ ∅) in
  tree_query (cache (exec (useDeleteFolder_onMutate variables) qc))
  = Some (Some (mkFolderTreeResponse
                  [FolderNode (sample_folder (js "P") 1) []] 1 None)) ∧
  subfolder_count (sample_folder (js "P") 1) = 1.
Proof. split; vm_compute; reflexivity. Qed.

End query_results.

(* ===================================================================== *)
(** * Further properties of the code *)
(* ===================================================================== *)

Section migration_helper_facts.
Import Migration MigrationHelpers.
Implicit Types (tbl : gmap uuid folder_row) (f g t a b : uuid).

(** On a cycle of parent pointers the walk stops at the cap of 100. *)
Example path_on_a_cycle :
  length <$> archon_get_folder_path (ring_table 2) (Some 1%N) = Some 100%nat.
Proof. vm_compute. reflexivity. Qed.

Lemma names_upto_None n tbl : names_upto n tbl None = [].
Proof. by destruct n. Qed.

Lemma names_upto_S n tbl c :
  names_upto (S n) tbl (Some c) =
  match tbl !! c with
  | Some r => f_name r :: names_upto n tbl (f_parent_id r)
  | None => []
  end.
Proof. done. Qed.

Lemma names_upto_length n tbl cur : (length (names_upto n tbl cur) ≤ n)%nat.
Proof.
  revert cur. induction n as [|n IH]; intros [c|]; simpl; try lia.
  destruct (tbl !! c) as [r|]; simpl; [|lia]. specialize (IH (f_parent_id r)). lia.
Qed.

Lemma path_loop_spec fuel tbl acc cur d :
  0 ≤ d → (Z.to_nat (max_depth - d) ≤ fuel)%nat →
  path_loop fuel tbl acc cur d =
  Some (reverse (names_upto (Z.to_nat (max_depth - d)) tbl cur) ++ acc).
Proof.
  revert acc cur d. induction fuel as [|fuel IH]; intros acc cur d Hd Hfuel;
    (destruct cur as [c|]; simpl; [|by rewrite names_upto_None]).
  - destruct (Z.ltb_spec d max_depth) as [Hlt|Hge];
      [exfalso; unfold max_depth in *; lia|].
    by replace (Z.to_nat (max_depth - d)) with 0%nat by lia.
  - destruct (Z.ltb_spec d max_depth) as [Hlt|Hge].
    + replace (Z.to_nat (max_depth - d))
        with (S (Z.to_nat (max_depth - (d + 1)))) by lia.
      simpl. destruct (tbl !! c) as [r|]; [|done].
      rewrite IH by lia. by rewrite reverse_cons, <- app_assoc.
    + by replace (Z.to_nat (max_depth - d)) with 0%nat by lia.
Qed.

Lemma archon_get_folder_path_names tbl target :
  archon_get_folder_path tbl target =
  Some (reverse (names_upto 100 tbl target)).
Proof.
  destruct target as [t|]; [|by rewrite names_upto_None].
  unfold archon_get_folder_path.
  rewrite path_loop_spec by (unfold max_depth; lia).
  rewrite app_nil_r, Z.sub_0_r.
  by replace (Z.to_nat max_depth) with 100%nat by reflexivity.
Qed.

(** Once a chain has ended, asking for more names changes nothing. *)
Lemma names_upto_stable tbl n m x :
  nth_parent tbl n x = None → (n ≤ m)%nat →
  names_upto m tbl (Some x) = names_upto n tbl (Some x).
Proof.
  revert m x. induction n as [|n IH]; intros m x Hn Hm; [done|].
  destruct m as [|m]; [lia|]. simpl in *.
  unfold select_parent_id in Hn.
  destruct (tbl !! x) as [r|]; simpl in *; [|done].
  destruct (f_parent_id r) as [p|]; simpl in *.
  - f_equal. apply IH; [done|lia].
  - by rewrite !names_upto_None.
Qed.

Lemma filter_length_le {A} (P Q : A → Prop) `{∀ e : A, Decision (P e)}
    `{∀ e : A, Decision (Q e)} (l : list A) :
  (∀ e : A, e ∈ l → P e → Q e) →
  (length (filter P l) ≤ length (filter Q l))%nat.
Proof.
  induction l as [|e l IH]; intros HPQ; [done|].
  assert (length (filter P l) ≤ length (filter Q l))%nat as IH'.
  { apply IH. intros y Hy. apply HPQ. by right. }
  rewrite !filter_cons.
  destruct (decide (P e)) as [Hp|Hp], (decide (Q e)) as [Hq|Hq]; simpl; try lia.
  destruct Hq. apply HPQ; [by left|done].
Qed.

Lemma filter_length_ext {A} (P Q : A → Prop) `{∀ e : A, Decision (P e)}
    `{∀ e : A, Decision (Q e)} (l : list A) :
  (∀ e : A, e ∈ l → (P e ↔ Q e)) →
  length (filter P l) = length (filter Q l).
Proof.
  intros HPQ. apply Nat.le_antisymm; apply filter_length_le;
    intros e He; by apply HPQ.
Qed.

Lemma cast_integer_small (n m : nat) :
  (n ≤ m)%nat → Z.of_nat m ≤ int4_max →
  cast_integer (Z.of_nat n) = Some (Z.of_nat n).
Proof.
  intros Hn Hm. unfold cast_integer.
  rewrite andb_true_intro; [done|].
  split; apply Z.leb_le; unfold int4_max in *; lia.
Qed.

Lemma archon_count_folder_sources_run fuel db f :
  no_folder_is_own_ancestor (archon_knowledge_folders db) →
  (size (archon_knowledge_folders db) ≤ fuel)%nat →
  Z.of_nat (length (archon_sources db)) ≤ int4_max →
  ∃ res,
    (∀ g, g ∈ res ↔ is_Some (archon_knowledge_folders db !! f) ∧
                     in_subtree (archon_knowledge_folders db) f g) ∧
    archon_count_folder_sources fuel db (Some f) =
    Some (Z.of_nat (length (filter (λ s, folder_id_in res s = true)
                              (archon_sources db)))).
Proof.
  intros Hacyc Hfuel Hint.
  destruct (folder_tree_spec _ f fuel Hacyc Hfuel) as (res & Hres & Hin).
  exists res. split; [done|].
  unfold archon_count_folder_sources. rewrite Hres. simpl.
  apply cast_integer_small with (m := length (archon_sources db)); [|done].
  apply length_filter.
Qed.

End migration_helper_facts.

Section migration_helper_results.
Import Migration MigrationHelpers.

(** X1.  [archon_get_folder_path] always returns, on any table and for
    any argument; the path has at most 100 names, and it is empty exactly
    when the argument is NULL or is not the id of a folder. *)
Theorem archon_get_folder_path_bounded
    (tbl : gmap uuid folder_row) (target : option uuid) :
  ∃ path, archon_get_folder_path tbl target = Some path ∧
          (length path ≤ 100)%nat ∧
          (path = [] ↔ target ≫= (tbl !!.) = None).
Proof.
  rewrite archon_get_folder_path_names. eexists. split; [done|]. split.
  - rewrite length_reverse. apply names_upto_length.
  - destruct target as [t|]; [|by rewrite names_upto_None].
    rewrite (names_upto_S 99).
    change (Some t ≫= (tbl !!.)) with (tbl !! t).
    destruct (tbl !! t) as [r|]; [|done].
    rewrite reverse_cons. split; [|done].
    intros Hnil. by apply app_nil in Hnil as [_ ?].
Qed.

(** X2.  For a folder whose parent chain ends before the depth cap, the
    path is the path of its parent followed by its own name: the path
    runs from the root down to the folder. *)
Theorem archon_get_folder_path_extends_parent
    (tbl : gmap uuid folder_row) (t : uuid) (r : folder_row) :
  tbl !! t = Some r →
  nth_parent tbl 100 t = None →
  ∃ parent_path,
    archon_get_folder_path tbl (f_parent_id r) = Some parent_path ∧
    archon_get_folder_path tbl (Some t) = Some (parent_path ++ [f_name r]).
Proof.
  intros Hr Hend. rewrite !archon_get_folder_path_names.
  eexists. split; [reflexivity|].
  assert (Hnames : names_upto 100 tbl (Some t)
                   = f_name r :: names_upto 99 tbl (f_parent_id r)).
  { rewrite (names_upto_S 99). destruct (tbl !! t); by simplify_eq. }
  assert (Hparent : names_upto 99 tbl (f_parent_id r)
                    = names_upto 100 tbl (f_parent_id r)).
  { destruct (f_parent_id r) as [p|] eqn:Hp; [|by rewrite !names_upto_None].
    symmetry. apply names_upto_stable; [|lia].
    assert (nth_parent tbl (1 + 99) t = None) as Hsplit by exact Hend.
    rewrite (nth_parent_add tbl 1 99 t) in Hsplit.
    assert (nth_parent tbl 1 t = Some p) as Hone.
    { cbn [nth_parent]. unfold select_parent_id. rewrite Hr. cbn. by rewrite Hp. }
    by rewrite Hone in Hsplit. }
  by rewrite Hnames, Hparent, reverse_cons.
Qed.

Lemma archon_get_folder_path_extends_parent_witness :
  ∃ parent_path,
    archon_get_folder_path (chain_table 2) (Some 1%N) = Some parent_path ∧
    archon_get_folder_path (chain_table 2) (Some 2%N)
    = Some (parent_path ++ ["folder"]).
Proof.
  apply (archon_get_folder_path_extends_parent (chain_table 2) 2%N
           (FolderRow "folder" (Some 1%N))).
  - vm_compute. reflexivity.
  - vm_compute. reflexivity.
Defined.

(** X3.  On a table in which no folder is its own ancestor the walk is
    antisymmetric: when a folder is reported as a descendant of another
    folder, the walk in the other direction returns false. *)
Theorem archon_is_folder_descendant_antisymmetric
    (tbl : gmap uuid folder_row) (a b : uuid) :
  no_folder_is_own_ancestor tbl →
  a ≠ b →
  archon_is_folder_descendant tbl (Some a) (Some b) = Some true →
  archon_is_folder_descendant tbl (Some b) (Some a) = Some false.
Proof.
  intros Hacyc Hne Hab.
  destruct (archon_is_folder_descendant_spec tbl a b) as (x & Hx & Hxiff).
  destruct (archon_is_folder_descendant_spec tbl b a) as (y & Hy & Hyiff).
  rewrite Hab in Hx. simplify_eq. rewrite Hy. f_equal.
  destruct y; [|done]. exfalso.
  destruct (proj1 Hxiff eq_refl) as [?|(k & [Hk _] & Hka)]; [done|].
  destruct (proj1 Hyiff eq_refl) as [?|(j & [Hj _] & Hjb)]; [done|].
  destruct (Hacyc a). exists (k + j)%nat. split; [lia|].
  by rewrite nth_parent_add, Hka.
Qed.

(** In the chain [3 > 2 > 1 > 0] folder 1 is an ancestor of folder 3. *)
Lemma archon_is_folder_descendant_antisymmetric_witness :
  archon_is_folder_descendant (chain_table 3) (Some 1%N) (Some 3%N) = Some false.
Proof.
  apply (archon_is_folder_descendant_antisymmetric (chain_table 3) 3%N 1%N).
  - apply parents_decrease_sound. vm_compute. reflexivity.
  - discriminate.
  - vm_compute. reflexivity.
Defined.

(** X4.  For a folder without subfolders ([archon_count_subfolders] gives
    0) the recursive count needs a single round and is the number of
    sources that sit in the folder itself. *)
Theorem archon_count_folder_sources_of_leaf (db : database) (f : uuid) :
  is_Some (archon_knowledge_folders db !! f) →
  archon_count_subfolders (archon_knowledge_folders db) (Some f) = Some 0 →
  Z.of_nat (length (archon_sources db)) ≤ int4_max →
  ∀ fuel, (1 ≤ fuel)%nat →
    archon_count_folder_sources fuel db (Some f) =
    Some (Z.of_nat (length (filter (λ s, s_folder_id s = Some f)
                              (archon_sources db)))).
Proof.
  destruct db as [tbl srcs]. simpl. intros [r Hr] Hleaf Hint fuel Hfuel.
  assert (Hstep : folder_tree_step tbl [f] = []).
  { destruct (folder_tree_step tbl [f]) as [|g rest] eqn:Hs; [done|].
    assert (g ∈ folder_tree_step tbl [f]) as Hg by (rewrite Hs; by left).
    apply elem_of_folder_tree_step in Hg as (w & Hw%list_elem_of_singleton & Hsel).
    subst w. apply select_parent_id_Some in Hsel as (rg & Hrg & Hpg).
    unfold archon_count_subfolders, cast_integer in Hleaf.
    case_match; [|done]. simplify_eq.
    assert ((g, rg) ∈ filter (is_child_of (Some f)) (map_to_list tbl)) as Hin.
    { apply list_elem_of_filter. split; [done|]. by apply elem_of_map_to_list. }
    destruct (filter (is_child_of (Some f)) (map_to_list tbl)); [by inv Hin|].
    simpl in *. lia. }
  destruct fuel as [|fuel]; [lia|].
  unfold archon_count_folder_sources, folder_tree, folder_tree_base. simpl.
  rewrite Hr. simpl. rewrite Hstep. simpl.
  assert (folder_tree_rec fuel tbl [] = Some []) as -> by by destruct fuel.
  simpl.
  rewrite (filter_length_ext (λ s, folder_id_in [f] s = true)
             (λ s, s_folder_id s = Some f)).
  - apply cast_integer_small with (m := length srcs); [|done]. apply length_filter.
  - intros s _. unfold folder_id_in. destruct (s_folder_id s) as [g|]; [|done].
    rewrite bool_decide_eq_true, list_elem_of_singleton. split; congruence.
Qed.

Lemma archon_count_folder_sources_of_leaf_witness :
  let db := Database (chain_table 2)
              [SourceRow "a" (Some 0%N); SourceRow "b" (Some 2%N);
               SourceRow "c" (Some 2%N); SourceRow "d" None] in
  archon_count_folder_sources 1 db (Some 2%N) =
  Some (Z.of_nat (length (filter (λ s, s_folder_id s = Some 2%N)
                            (archon_sources db)))).
Proof.
  intros db. apply (archon_count_folder_sources_of_leaf db 2%N).
  - vm_compute. eauto.
  - vm_compute. reflexivity.
  - vm_compute. discriminate.
  - lia.
Defined.

(** X5.  On a table without cycles the recursive count of a folder is at
    least the recursive count of each of its subfolders. *)
Theorem archon_count_folder_sources_monotone (db : database) (f g : uuid) :
  no_folder_is_own_ancestor (archon_knowledge_folders db) →
  is_Some (archon_knowledge_folders db !! f) →
  select_parent_id (archon_knowledge_folders db) g = Some f →
  Z.of_nat (length (archon_sources db)) ≤ int4_max →
  ∀ fuel, (size (archon_knowledge_folders db) ≤ fuel)%nat →
    ∃ cf cg,
      archon_count_folder_sources fuel db (Some f) = Some cf ∧
      archon_count_folder_sources fuel db (Some g) = Some cg ∧
      0 ≤ cg ≤ cf.
Proof.
  intros Hacyc Hf Hparent Hint fuel Hfuel.
  destruct (archon_count_folder_sources_run fuel db f Hacyc Hfuel Hint)
    as (resf & Hinf & ->).
  destruct (archon_count_folder_sources_run fuel db g Hacyc Hfuel Hint)
    as (resg & Hing & ->).
  do 2 eexists. split_and!; [done|done|lia|].
  apply inj_le, filter_length_le. intros s _. unfold folder_id_in.
  destruct (s_folder_id s) as [x|]; [|done].
  rewrite !bool_decide_eq_true, Hinf, Hing. intros [_ (k & Hk)].
  split; [done|]. exists (k + 1)%nat.
  rewrite nth_parent_add, Hk. simpl. by rewrite Hparent.
Qed.

Lemma archon_count_folder_sources_monotone_witness :
  let db := Database (chain_table 2)
              [SourceRow "a" (Some 0%N); SourceRow "b" (Some 1%N);
               SourceRow "c" (Some 2%N); SourceRow "d" None] in
  ∃ cf cg,
    archon_count_folder_sources 3 db (Some 1%N) = Some cf ∧
    archon_count_folder_sources 3 db (Some 2%N) = Some cg ∧
    0 ≤ cg ≤ cf.
Proof.
  intros db. apply (archon_count_folder_sources_monotone db 1%N 2%N).
  - apply parents_decrease_sound. vm_compute. reflexivity.
  - vm_compute. eauto.
  - vm_compute. reflexivity.
  - vm_compute. discriminate.
  - vm_compute. lia.
Defined.

End migration_helper_results.

Section folder_tree_helper_facts.
Import JS Folders FolderService FolderServicePath FolderQueries.
Implicit Types (nodes ch : list TreeNode) (n m tn : TreeNode)
  (path : list js_string).

Lemma occurs_mono nodes nodes' path n :
  (∀ c, c ∈ nodes → c ∈ nodes') → occurs nodes path n → occurs nodes' path n.
Proof.
  intros Hsub. destruct 1 as [nodes n Hin|nodes f ch path n Hin Hocc].
  - constructor. by apply Hsub.
  - econstructor; [|done]. by apply Hsub.
Qed.

Lemma folder_ids_cons n nodes :
  folder_ids (n :: nodes) = node_folder_ids n ++ folder_ids nodes.
Proof. done. Qed.

Lemma folder_ids_app nodes1 nodes2 :
  folder_ids (nodes1 ++ nodes2) = folder_ids nodes1 ++ folder_ids nodes2.
Proof. unfold folder_ids. by rewrite fmap_app, join_app. Qed.

Lemma tree_size_cons n nodes :
  tree_size (n :: nodes) = (node_size n + tree_size nodes)%nat.
Proof. done. Qed.

Lemma is_folder_with_id_ids F n :
  is_folder_with_id F n → F ∈ node_folder_ids n.
Proof. destruct n as [f ch|s]; simpl; [|done]. intros <-. by left. Qed.

Lemma searches_agree_list T nodes :
  Forall (λ n, ∀ cp idp path,
            searches_agree T [n] (search_node T n)
              (findParentPath_node T idp n) idp cp path
              (findPath_node T cp n path)) nodes →
  ∀ cp idp path,
    searches_agree T nodes (first_result (search_node T) nodes)
      (first_result (findParentPath_node T idp) nodes) idp cp path
      (first_true (findPath_node T cp) nodes path).
Proof.
  induction 1 as [|c nodes Hc _ IH]; intros cp idp path; [done|].
  specialize (Hc cp idp path). specialize (IH cp idp path).
  cbn [first_result first_true].
  destruct (search_node T c) as [m|]; cbn [searches_agree] in Hc |- *.
  - destruct Hc as (f & ch & ids & names & -> & Hid & -> & Hocc & -> & Hlen).
    exists f, ch, ids, names. repeat split; try done.
    apply (occurs_mono [c]); [|done].
    intros e ->%list_elem_of_singleton. by left.
  - destruct Hc as [-> ->].
    destruct (first_result (search_node T) nodes) as [m|];
      cbn [searches_agree] in IH |- *; [|done].
    destruct IH as (f & ch & ids & names & -> & Hid & -> & Hocc & -> & Hlen).
    exists f, ch, ids, names. repeat split; try done.
    apply (occurs_mono nodes); [|done]. intros e He. by right.
Qed.

Lemma searches_agree_node T n :
  ∀ cp idp path,
    searches_agree T [n] (search_node T n) (findParentPath_node T idp n)
      idp cp path (findPath_node T cp n path).
Proof.
  induction n as [f ch IH|s] using TreeNode_ind; intros cp idp path;
    cbn [search_node findParentPath_node findPath_node]; [|done].
  destruct (decide (id f = T)) as [Hid|Hid].
  - exists f, ch, [], []. rewrite app_nil_r. repeat split; try done.
    constructor. by left.
  - pose proof (searches_agree_list T ch IH (cp ++ [name f]) (idp ++ [id f]) path)
      as Hch.
    destruct (first_result (search_node T) ch) as [m|];
      cbn [searches_agree] in Hch |- *; [|done].
    destruct Hch as (f' & ch' & ids & names & -> & Hid' & -> & Hocc & -> & Hlen).
    exists f', ch', (id f :: ids), (name f :: names).
    rewrite <- !app_assoc. repeat split; try done.
    + econstructor; [|done]. by left.
    + cbn [length]. by rewrite Hlen.
Qed.

Lemma searches_agree_tree T nodes cp idp path :
  searches_agree T nodes (first_result (search_node T) nodes)
    (findParentPath T nodes idp) idp cp path (findPath T nodes cp path).
Proof.
  apply searches_agree_list, Forall_forall. intros n _.
  apply searches_agree_node.
Qed.

Lemma search_node_in F n m : search_node F n = Some m → F ∈ node_folder_ids n.
Proof.
  intros Hs. pose proof (searches_agree_node F n [] [] []) as H.
  rewrite Hs in H.
  destruct H as (f & ch & ids & names & -> & Hid & _ & Hocc & _).
  apply (occurs_folder_ids _ _ _ F) in Hocc; [|done].
  unfold folder_ids in Hocc. csimpl in Hocc. by rewrite app_nil_r in Hocc.
Qed.

(** *** removeFolder *)

Lemma removeFolder_cons F c nodes :
  removeFolder F (c :: nodes) =
  if not_the_folder F c then removeFolder_node F c :: removeFolder F nodes
  else removeFolder F nodes.
Proof. done. Qed.

Lemma removeFolder_node_folder F f ch :
  removeFolder_node F (FolderNode f ch) = FolderNode f (removeFolder F ch).
Proof. done. Qed.

Lemma not_the_folder_absent F c :
  F ∉ node_folder_ids c → not_the_folder F c = true.
Proof.
  intros HF. apply not_the_folder_true. intros Hc.
  by apply HF, is_folder_with_id_ids.
Qed.

Lemma removeFolder_absent_list F nodes :
  Forall (λ c, F ∉ node_folder_ids c → removeFolder_node F c = c) nodes →
  F ∉ folder_ids nodes → removeFolder F nodes = nodes.
Proof.
  induction 1 as [|c nodes Hc _ IH]; [done|].
  rewrite folder_ids_cons, removeFolder_cons.
  intros [HFc HF]%not_elem_of_app.
  by rewrite not_the_folder_absent, Hc, IH.
Qed.

Lemma removeFolder_node_absent F n :
  F ∉ node_folder_ids n → removeFolder_node F n = n.
Proof.
  induction n as [f ch IH|s] using TreeNode_ind; [|done].
  rewrite removeFolder_node_folder. cbn [node_folder_ids].
  intros [_ HF]%not_elem_of_cons. f_equal.
  by apply removeFolder_absent_list.
Qed.

Lemma removeFolder_absent F nodes :
  F ∉ folder_ids nodes → removeFolder F nodes = nodes.
Proof.
  apply removeFolder_absent_list, Forall_forall. intros c _.
  apply removeFolder_node_absent.
Qed.

Lemma removeFolder_ids_list F nodes :
  Forall (λ c, not_the_folder F c = true →
               (F ∉ node_folder_ids (removeFolder_node F c)) ∧
               (node_folder_ids (removeFolder_node F c)
                  `sublist_of` node_folder_ids c)) nodes →
  (F ∉ folder_ids (removeFolder F nodes)) ∧
  (folder_ids (removeFolder F nodes) `sublist_of` folder_ids nodes).
Proof.
  induction 1 as [|c nodes Hc _ [IH1 IH2]].
  { split; [by inv 1|done]. }
  rewrite removeFolder_cons. destruct (not_the_folder F c).
  - destruct Hc as [Hc1 Hc2]; [done|]. rewrite !folder_ids_cons. split.
    + rewrite not_elem_of_app. by split.
    + by apply sublist_app.
  - rewrite folder_ids_cons. split; [done|]. by apply sublist_inserts_l.
Qed.

Lemma removeFolder_node_ids F n :
  not_the_folder F n = true →
  (F ∉ node_folder_ids (removeFolder_node F n)) ∧
  (node_folder_ids (removeFolder_node F n) `sublist_of` node_folder_ids n).
Proof.
  induction n as [f ch IH|s] using TreeNode_ind; [|split; [by inv 1|done]].
  intros Hkeep. apply not_the_folder_true in Hkeep.
  rewrite removeFolder_node_folder.
  destruct (removeFolder_ids_list F ch IH) as [H1 H2].
  cbn [node_folder_ids]. fold (folder_ids (removeFolder F ch)) (folder_ids ch).
  split.
  - apply not_elem_of_cons. split; [|done]. intros ->. by apply Hkeep.
  - by apply sublist_skip.
Qed.

Lemma removeFolder_ids F nodes :
  (F ∉ folder_ids (removeFolder F nodes)) ∧
  (folder_ids (removeFolder F nodes) `sublist_of` folder_ids nodes).
Proof.
  apply removeFolder_ids_list, Forall_forall. intros c _.
  apply removeFolder_node_ids.
Qed.

Lemma removeFolder_size_list F nodes m :
  Forall (λ c, NoDup (node_folder_ids c) → not_the_folder F c = true →
               search_node F c = Some m →
               (node_size (removeFolder_node F c) + node_size m)%nat = node_size c)
         nodes →
  NoDup (folder_ids nodes) →
  first_result (search_node F) nodes = Some m →
  (tree_size (removeFolder F nodes) + node_size m)%nat = tree_size nodes.
Proof.
  induction 1 as [|c nodes Hc _ IH]; intros Hnd; [done|].
  apply NoDup_folder_ids_cons in Hnd as (Hndc & Hndn & Hdisj).
  cbn [first_result]. rewrite removeFolder_cons, tree_size_cons.
  destruct (search_node F c) as [m'|] eqn:Hs.
  - intros [= ->]. pose proof (search_node_in _ _ _ Hs) as HF.
    rewrite (removeFolder_absent F nodes) by (by apply Hdisj).
    destruct (not_the_folder F c) eqn:Hkeep.
    + rewrite tree_size_cons. rewrite <- (Hc Hndc eq_refl eq_refl). lia.
    + destruct c as [f ch|s]; [|done]. cbn [search_node] in Hs.
      cbn [not_the_folder] in Hkeep.
      apply negb_false_iff, bool_decide_eq_true in Hkeep.
      rewrite decide_True in Hs by done. injection Hs as <-. lia.
  - intros Hrest. apply search_node_None in Hs.
    rewrite not_the_folder_absent, removeFolder_node_absent by done.
    rewrite tree_size_cons, <- (IH Hndn Hrest). lia.
Qed.

Lemma removeFolder_node_size F n m :
  NoDup (node_folder_ids n) → not_the_folder F n = true →
  search_node F n = Some m →
  (node_size (removeFolder_node F n) + node_size m)%nat = node_size n.
Proof.
  induction n as [f ch IH|s] using TreeNode_ind; [|done].
  intros Hnd Hkeep. rewrite removeFolder_node_folder.
  cbn [node_folder_ids] in Hnd. apply NoDup_cons in Hnd as [_ Hnd].
  cbn [not_the_folder] in Hkeep.
  apply negb_true_iff, bool_decide_eq_false in Hkeep.
  cbn [search_node]. rewrite decide_False by done. intros Hs.
  cbn [node_size]. fold (tree_size (removeFolder F ch)) (tree_size ch).
  rewrite <- (removeFolder_size_list F ch m IH Hnd Hs). lia.
Qed.

(** *** addToParent *)

Lemma addToParent_ids_list p tn nodes :
  Forall (λ c, NoDup (node_folder_ids c) → p ∈ node_folder_ids c →
               node_folder_ids (addToParent_node p tn c)
               ≡ₚ node_folder_ids tn ++ node_folder_ids c) nodes →
  NoDup (folder_ids nodes) → p ∈ folder_ids nodes →
  folder_ids (addToParent p tn nodes) ≡ₚ node_folder_ids tn ++ folder_ids nodes.
Proof.
  induction 1 as [|c nodes Hc _ IH]; intros Hnd Hp; [by inv Hp|].
  apply NoDup_folder_ids_cons in Hnd as (Hndc & Hndn & Hdisj).
  rewrite folder_ids_cons in Hp. apply elem_of_app in Hp as [Hp|Hp].
  - change (addToParent p tn (c :: nodes))
      with (addToParent_node p tn c :: addToParent p tn nodes).
    rewrite addToParent_absent by eauto.
    rewrite !folder_ids_cons, Hc by done. by rewrite <- app_assoc.
  - change (addToParent p tn (c :: nodes))
      with (addToParent_node p tn c :: addToParent p tn nodes).
    rewrite addToParent_node_absent by (intros Hpc; by apply (Hdisj p)).
    rewrite !folder_ids_cons, IH by done.
    rewrite !app_assoc. f_equiv. apply Permutation_app_comm.
Qed.

Lemma addToParent_node_ids p tn n :
  NoDup (node_folder_ids n) → p ∈ node_folder_ids n →
  node_folder_ids (addToParent_node p tn n)
  ≡ₚ node_folder_ids tn ++ node_folder_ids n.
Proof.
  induction n as [f ch IH|s] using TreeNode_ind; intros Hnd Hp; [|by inv Hp].
  cbn [node_folder_ids] in Hnd, Hp. apply NoDup_cons in Hnd as [Hf Hnd].
  cbn [addToParent_node]. destruct (decide (id f = p)) as [Hid|Hid].
  - cbn [node_folder_ids with_subfolder_count id].
    fold (folder_ids (ch ++ [tn])) (folder_ids ch).
    rewrite folder_ids_app, folder_ids_cons.
    change (folder_ids []) with (@nil js_string). rewrite app_nil_r.
    rewrite <- Permutation_middle. f_equiv. apply Permutation_app_comm.
  - apply elem_of_cons in Hp as [?|Hp]; [congruence|].
    cbn [node_folder_ids].
    fold (addToParent p tn ch) (folder_ids (addToParent p tn ch)) (folder_ids ch).
    rewrite (addToParent_ids_list p tn ch IH Hnd Hp).
    by rewrite <- Permutation_middle.
Qed.

Lemma addToParent_ids p tn nodes :
  NoDup (folder_ids nodes) → p ∈ folder_ids nodes →
  folder_ids (addToParent p tn nodes) ≡ₚ node_folder_ids tn ++ folder_ids nodes.
Proof.
  apply addToParent_ids_list, Forall_forall. intros c _.
  apply addToParent_node_ids.
Qed.

End folder_tree_helper_facts.

Section folder_tree_helper_results.
Import JS Folders FolderService FolderServicePath FolderQueries.

(** X6.  [findFolderInTree] returns null exactly when no folder node of
    the tree has the identifier; otherwise it returns a folder node with
    that identifier, and this node sits in the tree below the very
    folders that [findParentPath] lists for the identifier. *)
Theorem findFolderInTree_spec (folderId : js_string)
    (folderTree : FolderTreeResponse) :
  match findFolderInTree folderId folderTree with
  | None => folderId ∉ folder_ids (tree folderTree)
  | Some n =>
      ∃ f ch path,
        n = FolderNode f ch ∧ id f = folderId ∧
        folderId ∈ folder_ids (tree folderTree) ∧
        findParentPath folderId (tree folderTree) [] = Some path ∧
        occurs (tree folderTree) path n
  end.
Proof.
  pose proof (searches_agree_tree folderId (tree folderTree) [] [] []) as H.
  unfold findFolderInTree.
  destruct (first_result (search_node folderId) (tree folderTree)) as [n|] eqn:Hs.
  - destruct H as (f & ch & ids & names & -> & Hid & Hpp & Hocc & _).
    exists f, ch, ids. repeat split; try done.
    by apply (occurs_folder_ids _ ids (FolderNode f ch)).
  - apply first_result_None_inv in Hs. rewrite Forall_forall in Hs.
    intros (c & Hc & Hin)%elem_of_folder_ids.
    by apply (search_node_None folderId c); [apply Hs|].
Qed.

(** X7.  [getFolderPath] agrees with the other two searches: it returns
    the empty array exactly when [findFolderInTree] finds nothing, and
    otherwise an array that ends with the name of the folder that
    [findFolderInTree] returns and has one name before it for every
    ancestor that [findParentPath] lists. *)
Theorem getFolderPath_agrees (folderId : js_string)
    (folderTree : FolderTreeResponse) :
  match findFolderInTree folderId folderTree with
  | None =>
      getFolderPath folderId folderTree = [] ∧
      findParentPath folderId (tree folderTree) [] = None
  | Some n =>
      ∃ f ch ids names,
        n = FolderNode f ch ∧
        findParentPath folderId (tree folderTree) [] = Some ids ∧
        getFolderPath folderId folderTree = names ++ [name f] ∧
        length names = length ids
  end.
Proof.
  pose proof (searches_agree_tree folderId (tree folderTree) [] [] []) as H.
  unfold findFolderInTree, getFolderPath.
  destruct (first_result (search_node folderId) (tree folderTree)) as [n|].
  - destruct H as (f & ch & ids & names & -> & Hid & -> & Hocc & -> & Hlen).
    by exists f, ch, ids, names.
  - by destruct H as [-> ->].
Qed.

(** X8.  Deleting a folder that the cached tree does not hold leaves the
    nodes of the tree as they are, and still lowers [total_folders] by
    one, down to zero. *)
Theorem delete_of_absent_folder (folderId : js_string)
    (old : FolderTreeResponse) :
  folderId ∉ folder_ids (tree old) →
  delete_tree_updater folderId (Some old) =
  Some (mkFolderTreeResponse (tree old) (Z.max 0 (total_folders old - 1))
          (tree_total_sources old)).
Proof.
  intros HF. unfold delete_tree_updater. by rewrite removeFolder_absent.
Qed.

(** The tree holds [P] alone, with a count of one; [F] is deleted. *)
Lemma delete_of_absent_folder_witness :
  let old := mkFolderTreeResponse [FolderNode (sample_folder (js "P") 0) []] 1 None in
  delete_tree_updater (js "F") (Some old) =
  Some (mkFolderTreeResponse (tree old) 0 None).
Proof.
  intros old. apply (delete_of_absent_folder (js "F") old).
  apply (bool_decide_unpack _). vm_compute. exact I.
Defined.

(** X9.  [removeFolder] leaves no folder with the given identifier at any
    depth, so removing the same folder again changes nothing. *)
Theorem removeFolder_idempotent (folderId : js_string) (nodes : list TreeNode) :
  (folderId ∉ folder_ids (removeFolder folderId nodes)) ∧
  removeFolder folderId (removeFolder folderId nodes) = removeFolder folderId nodes.
Proof.
  destruct (removeFolder_ids folderId nodes) as [HF _].
  split; [done|]. by apply removeFolder_absent.
Qed.

(** X10.  In a tree whose folder identifiers are unique, the optimistic
    delete takes out as many nodes as the deleted folder's subtree holds,
    the folder included, while [total_folders] goes down by one only. *)
Theorem delete_removes_whole_subtree (folderId : js_string)
    (old : FolderTreeResponse) (n : TreeNode) :
  NoDup (folder_ids (tree old)) →
  findFolderInTree folderId old = Some n →
  ∃ new,
    delete_tree_updater folderId (Some old) = Some new ∧
    (tree_size (tree new) + node_size n)%nat = tree_size (tree old) ∧
    total_folders new = Z.max 0 (total_folders old - 1).
Proof.
  intros Hnd Hfind. eexists. split; [done|]. split; [|done].
  cbn [tree]. revert Hnd Hfind. unfold findFolderInTree.
  apply removeFolder_size_list, Forall_forall. intros c _.
  apply removeFolder_node_size.
Qed.

(** The tree [P > (F > G), s] with three folders: [F] is deleted, and
    with it [G]. *)
Lemma delete_removes_whole_subtree_witness :
  let sub := FolderNode (sample_folder (js "F") 1)
               [FolderNode (sample_folder (js "G") 0) []] in
  let old :=
    mkFolderTreeResponse
      [FolderNode (sample_folder (js "P") 1)
         [sub; SourceNode (sample_source (js "s"))]] 3 None in
  ∃ new,
    delete_tree_updater (js "F") (Some old) = Some new ∧
    (tree_size (tree new) + 2)%nat = 4%nat ∧
    total_folders new = 2.
Proof.
  intros sub old. apply (delete_removes_whole_subtree (js "F") old sub).
  - apply (bool_decide_unpack _). vm_compute. exact I.
  - vm_compute. reflexivity.
Defined.

(** X11.  The optimistic create keeps the folder identifiers of the tree
    unique when the generated identifier is not yet in the tree, whether
    the parent is absent, present in the tree or unknown; the identifiers
    of the new tree are the old ones and possibly the generated one. *)
Theorem create_keeps_ids_unique (env : Env) (folderData : FolderCreate)
    (old : FolderTreeResponse) :
  NoDup (folder_ids (tree old)) →
  entity_id env ∉ folder_ids (tree old) →
  ∃ new,
    create_tree_updater folderData (optimisticFolder env folderData) (Some old)
    = Some new ∧
    NoDup (folder_ids (tree new)) ∧
    (∀ i, i ∈ folder_ids (tree old) → i ∈ folder_ids (tree new)) ∧
    (∀ i, i ∈ folder_ids (tree new) →
          i = entity_id env ∨ i ∈ folder_ids (tree old)).
Proof.
  intros Hnd Hfresh. unfold create_tree_updater.
  set (tn := FolderNode (optimisticFolder env folderData) []).
  assert (node_folder_ids tn = [entity_id env]) as Htn by done.
  assert (NoDup (folder_ids (tree old ++ [tn])) ∧
          (∀ i, i ∈ folder_ids (tree old) → i ∈ folder_ids (tree old ++ [tn])) ∧
          (∀ i, i ∈ folder_ids (tree old ++ [tn]) →
                i = entity_id env ∨ i ∈ folder_ids (tree old))) as Hroot.
  { rewrite folder_ids_app, folder_ids_cons, Htn.
    change (folder_ids []) with (@nil js_string). split_and!.
    - apply NoDup_app. split; [done|]. split; [|apply NoDup_singleton].
      intros i Hi ->%list_elem_of_singleton. by apply Hfresh.
    - intros i Hi. apply elem_of_app. by left.
    - intros i [Hi| ->%list_elem_of_singleton]%elem_of_app; [by right|by left]. }
  destruct (fc_parent_id folderData) as [| |[|c p]];
    try (eexists; split; [done|]; exact Hroot).
  eexists. split; [done|]. cbn [tree].
  destruct (decide (c :: p ∈ folder_ids (tree old))) as [Hp|Hp].
  - pose proof (addToParent_ids (c :: p) tn (tree old) Hnd Hp) as Hperm.
    rewrite Htn in Hperm. split_and!.
    + rewrite Hperm. apply NoDup_cons. by split.
    + intros i Hi. rewrite Hperm. by right.
    + intros i Hi. rewrite Hperm in Hi.
      apply elem_of_cons in Hi as [->|Hi]; [by left|by right].
  - rewrite addToParent_absent by done. split_and!; [done|done|].
    intros i Hi. by right.
Qed.

(** The tree holds [P]; a folder with the generated identifier [temp-2]
    is created under [P]. *)
Lemma create_keeps_ids_unique_witness :
  let env := mkEnv (js "temp-1") (js "temp-2") (js "now") (js "now") in
  let folderData := mkFolderCreate (js "New") Undefined Undefined Undefined 0 []
                      (Val (js "P")) in
  let old := mkFolderTreeResponse [FolderNode (sample_folder (js "P") 0) []] 1 None in
  ∃ new,
    create_tree_updater folderData (optimisticFolder env folderData) (Some old)
    = Some new ∧
    NoDup (folder_ids (tree new)) ∧
    (∀ i, i ∈ folder_ids (tree old) → i ∈ folder_ids (tree new)) ∧
    (∀ i, i ∈ folder_ids (tree new) →
          i = js "temp-2" ∨ i ∈ folder_ids (tree old)).
Proof.
  intros env folderData old.
  apply (create_keeps_ids_unique env folderData old);
    apply (bool_decide_unpack _); vm_compute; exact I.
Defined.

(** X12.  The optimistic delete keeps the folder identifiers of the tree
    unique: the identifiers of the new tree are identifiers of the old
    one, in the same order, without the deleted one. *)
Theorem delete_keeps_ids_unique (folderId : js_string)
    (old : FolderTreeResponse) :
  NoDup (folder_ids (tree old)) →
  ∃ new,
    delete_tree_updater folderId (Some old) = Some new ∧
    NoDup (folder_ids (tree new)) ∧
    (folder_ids (tree new) `sublist_of` folder_ids (tree old)) ∧
    (folderId ∉ folder_ids (tree new)).
Proof.
  intros Hnd. eexists. split; [done|]. cbn [tree].
  destruct (removeFolder_ids folderId (tree old)) as [HF Hsub].
  split_and!; [|done|done]. by eapply sublist_NoDup.
Qed.

Lemma delete_keeps_ids_unique_witness :
  let old :=
    mkFolderTreeResponse
      [FolderNode (sample_folder (js "P") 1)
         [FolderNode (sample_folder (js "F") 1)
            [FolderNode (sample_folder (js "G") 0) []];
          SourceNode (sample_source (js "s"))]] 3 None in
  ∃ new,
    delete_tree_updater (js "F") (Some old) = Some new ∧
    NoDup (folder_ids (tree new)) ∧
    (folder_ids (tree new) `sublist_of` folder_ids (tree old)) ∧
    (js "F" ∉ folder_ids (tree new)).
Proof.
  intros old. apply (delete_keeps_ids_unique (js "F") old).
  apply (bool_decide_unpack _). vm_compute. exact I.
Defined.

End folder_tree_helper_results.

Section drag_and_drop_facts.
Import JS Folders FolderService DragAndDrop DragAndDropHook.

(** The selection as dragged items carries the selected identifiers. *)
Lemma drag_id_selection (selectedSourceIds : list js_string) :
  drag_id <$> ((λ id, mkDragItemData source_type id None Undefined)
                 <$> selectedSourceIds)
  = selectedSourceIds.
Proof.
  rewrite <- list_fmap_compose.
  induction selectedSourceIds as [|i l IH]; csimpl; [done|]. by rewrite IH.
Qed.

Lemma selection_all_sources (selectedSourceIds : list js_string) :
  Forall (λ i, drag_type i = source_type)
    ((λ id, mkDragItemData source_type id None Undefined) <$> selectedSourceIds).
Proof. apply Forall_fmap, Forall_forall. done. Qed.

Lemma some_not_source_false (items : list DragItemData) :
  Forall (λ i, drag_type i = source_type) items →
  existsb (λ item, bool_decide (drag_type item ≠ source_type)) items = false.
Proof.
  induction 1 as [|i items Hi _ IH]; simpl; [done|].
  by rewrite IH, bool_decide_eq_false_2 by (by intros []).
Qed.

(** The check on multi-select drags never fires on the items that
    [handleDragStart] sets up. *)
Lemma multi_select_check_false selectedSourceIds item :
  bool_decide (1 < length (draggedItems (handleDragStart selectedSourceIds item)))%nat
  && existsb (λ item, bool_decide (drag_type item ≠ source_type))
       (draggedItems (handleDragStart selectedSourceIds item))
  = false.
Proof.
  unfold handleDragStart. cbn [draggedItems].
  destruct (bool_decide (drag_type item = source_type)
            && bool_decide (drag_id item ∈ selectedSourceIds)).
  - rewrite some_not_source_false by apply selection_all_sources.
    apply andb_false_r.
  - done.
Qed.

Lemma validateDrop_ignores_selection_aux selectedSourceIds item dropZone
    folderTree :
  validateDrop item (draggedItems (handleDragStart selectedSourceIds item))
    dropZone folderTree
  = validateDrop item [item] dropZone folderTree.
Proof. unfold validateDrop. rewrite multi_select_check_false. done. Qed.





Lemma try_call_result {A} (cb : option (A → optional js_string → bool))
    (call : A → optional js_string → Effect) a target :
  try_call cb call a target =
  match (λ f, f a target) <$> cb with
  | None => []
  | Some true => [call a target]
  | Some false => [call a target; ConsoleError]
  end.
Proof. unfold try_call. destruct cb as [f|]; [|done]. csimpl. by destruct (f a target). Qed.

End drag_and_drop_facts.

Section drag_and_drop_results.
Import JS Folders FolderService DragAndDrop DragAndDropHook.


(** X14.  Whether a drop is valid does not depend on the selection: for
    the items that [handleDragStart] sets up, [validateDrop] answers as
    for the dragged item alone, so its check on multi-select drags never
    rejects a drag that the hook started. *)
Theorem validateDrop_ignores_selection (selectedSourceIds : list js_string)
    (item : DragItemData) (dropZone : DropZoneData)
    (folderTree : option FolderTreeResponse) :
  validateDrop item (draggedItems (handleDragStart selectedSourceIds item))
    dropZone folderTree
  = validateDrop item [item] dropZone folderTree.
Proof.
  apply validateDrop_ignores_selection_aux.
Qed.

(** X15.  For a dragged source, a drop is rejected exactly when the
    [folder_id] of the source is strictly equal to the target of the drop
    zone: null for the root zone, and for a folder zone its [folder_id],
    or null when that is empty or missing.  Neither the folder tree nor
    the selection matters. *)
Theorem source_drop_rejected_iff_same_folder
    (selectedSourceIds : list js_string) (item : DragItemData)
    (dropZone : DropZoneData) (folderTree : option FolderTreeResponse) :
  drag_type item = source_type →
  validateDrop item (draggedItems (handleDragStart selectedSourceIds item))
    dropZone folderTree
  = negb (strict_eq (drag_folder_id item) (drop_target_id dropZone)).
Proof.
  intros Hsrc. unfold validateDrop. rewrite multi_select_check_false.
  rewrite Hsrc. unfold drop_target_id.
  rewrite (bool_decide_eq_false_2 (source_type = folder_type)) by done.
  rewrite (bool_decide_eq_true_2 (source_type = source_type)) by done.
  cbn [andb]. destruct folderTree; by destruct (strict_eq _ _).
Qed.

(** A source in folder [A] with two sources selected, dropped on [A]. *)
Lemma source_drop_rejected_iff_same_folder_witness :
  let item := mkDragItemData source_type (js "s") None (Val (js "A")) in
  validateDrop item (draggedItems (handleDragStart [js "s"; js "t"] item))
    (mkDropZoneData drop_folder (Val (js "A"))) None
  = false.
Proof.
  intros item.
  apply (source_drop_rejected_iff_same_folder [js "s"; js "t"] item
           (mkDropZoneData drop_folder (Val (js "A"))) None).
  reflexivity.
Defined.

(** X16.  A whole gesture: after [handleDragStart] on an item and
    [handleDragOver] on a zone that [validateDrop] accepts, [handleDrop]
    turns to one callback, the one that the item and the selection stand
    for: the folder move for a folder, the batch move of the whole
    selection for a selected source when several are selected, the move
    of the source alone otherwise.  When this callback is absent nothing
    is called; when it is present it is called, once, with the target of
    the zone that [handleDrop] itself is given, and no other callback is
    called; when it rejects, the failure is logged after the call.  The
    drag is over in every case. *)
Theorem drop_after_valid_drag_over (folderTree : option FolderTreeResponse)
    (selectedSourceIds : list js_string) (cbs : Callbacks)
    (item : DragItemData) (over dropZone : DropZoneData) :
  validateDrop item [item] over folderTree = true →
  let st := handleDragOver folderTree (handleDragStart selectedSourceIds item) over in
  let target := drop_target_id dropZone in
  let call := move_call selectedSourceIds item target in
  handleDrop cbs st dropZone =
  (match move_result cbs selectedSourceIds item target with
   | None => []
   | Some true => [call]
   | Some false => [call; ConsoleError]
   end,
   initialDragState).
Proof.
  intros Hvalid st target call.
  rewrite <- (validateDrop_ignores_selection_aux selectedSourceIds) in Hvalid.
  unfold st, handleDragOver, handleDrop.
  cbn [handleDragStart isDragging draggedItem draggedItems isValidDrop negb orb].
  rewrite bool_decide_eq_true_2 by eauto. cbn [negb].
  cbn [isDragging draggedItem draggedItems isValidDrop negb orb].
  unfold handleDragStart in Hvalid. cbn [draggedItems] in Hvalid.
  rewrite Hvalid. rewrite bool_decide_eq_true_2 by eauto. cbn [negb orb].
  fold (drop_target_id dropZone). fold target.
  unfold handleDragEnd, initialDragState. f_equal.
  unfold call, move_call, move_result.
  destruct (bool_decide (drag_type item = folder_type)) eqn:Hfolder.
  { apply try_call_result. }
  assert (drag_type item = source_type) as Hsrc.
  { apply bool_decide_eq_false in Hfolder. by destruct (drag_type item). }
  rewrite (bool_decide_eq_true_2 (drag_type item = source_type)) by done.
  cbn [andb].
  destruct (bool_decide (drag_id item ∈ selectedSourceIds)); cbn [andb].
  - rewrite drag_id_selection, length_fmap.
    destruct (bool_decide (1 < length selectedSourceIds)%nat);
      apply try_call_result.
  - cbn [length]. rewrite bool_decide_eq_false_2 by lia. apply try_call_result.
Qed.

(** Two selected sources are dragged over folder [A] and dropped on the
    root zone; the batch move rejects: it is called with the whole
    selection and the root as target, and the failure is logged. *)
Lemma drop_after_valid_drag_over_witness :
  let cbs := mkCallbacks (Some (λ _ _, true)) (Some (λ _ _, true))
               (Some (λ _ _, false)) in
  let item := mkDragItemData source_type (js "s") None Null in
  let st := handleDragOver None (handleDragStart [js "s"; js "t"] item)
              (mkDropZoneData drop_folder (Val (js "A"))) in
  handleDrop cbs st (mkDropZoneData drop_root Undefined)
  = ([BatchMoveCall [js "s"; js "t"] Null; ConsoleError], initialDragState).
Proof.
  intros cbs item st.
  apply (drop_after_valid_drag_over None [js "s"; js "t"] cbs item
           (mkDropZoneData drop_folder (Val (js "A")))
           (mkDropZoneData drop_root Undefined)).
  reflexivity.
Defined.

End drag_and_drop_results.

Section query_client_helper_facts.
Import JS Folders FolderService FolderQueries.

Lemma matches_true filter key suffix :
  key = filter ++ suffix → matches filter key = true.
Proof. intros ->. apply bool_decide_eq_true_2. by exists suffix. Qed.

Lemma matches_false filter key :
  (∀ suffix, key ≠ filter ++ suffix) → matches filter key = false.
Proof.
  intros Hne. apply bool_decide_eq_false_2. intros [suffix ->].
  by apply (Hne suffix).
Qed.

Lemma list_queries_write_tree updater c :
  list_queries (write_tree updater c) = list_queries c ∧
  detail_queries (write_tree updater c) = detail_queries c.
Proof. unfold write_tree. by destruct (updater _). Qed.

Lemma tree_query_write_detail i updater c :
  tree_query (write_detail i updater c) = tree_query c ∧
  list_queries (write_detail i updater c) = list_queries c.
Proof. unfold write_detail. by destruct (updater _). Qed.

(** A fold of list writes over the entries of a map of list queries,
    looked up at one key. *)
Lemma foldl_write_list_lookup
    (g : optional js_string * option FolderListResponse →
         option FolderListResponse → option FolderListResponse)
    (m : gmap (optional js_string) (option FolderListResponse)) c k :
  list_queries (foldl (λ c x, write_list x.1 (g x) c) c (map_to_list m)) !! k =
  match m !! k with
  | Some v =>
      match g (k, v) (mjoin (list_queries c !! k)) with
      | Some d => Some (Some d)
      | None => list_queries c !! k
      end
  | None => list_queries c !! k
  end.
Proof.
  destruct (m !! k) as [v|] eqn:Hk.
  - apply elem_of_map_to_list in Hk.
    by rewrite (foldl_write_list_in fst g (map_to_list m) c (k, v))
      by (by apply NoDup_fst_map_to_list || done).
  - apply foldl_write_list_notin.
    intros ([k' v] & -> & Hin%elem_of_map_to_list)%list_elem_of_fmap.
    simpl in Hk. congruence.
Qed.

End query_client_helper_facts.

Section query_client_helper_results.
Import JS Folders FolderService FolderQueries.

(** X17.  The query keys of the factory form a hierarchy under prefix
    matching: the filter [folderKeys.all] covers every key; [lists]
    covers every list key and [details] every detail key, and neither
    covers a key of another kind; the tree key, the list keys, the detail
    keys and the contents keys do not cover one another, whichever of
    them is the filter; and a detail key covers a detail key, and a
    contents key a contents key, only when the identifiers are equal. *)
Theorem folderKeys_hierarchy :
  (∀ p, matches folderKeys.all (folderKeys.list p) = true ∧
        matches folderKeys.lists (folderKeys.list p) = true ∧
        matches folderKeys.details (folderKeys.list p) = false) ∧
  (matches folderKeys.all folderKeys.tree = true ∧
   matches folderKeys.lists folderKeys.tree = false ∧
   matches folderKeys.details folderKeys.tree = false) ∧
  (∀ i, matches folderKeys.all (folderKeys.detail i) = true ∧
        matches folderKeys.details (folderKeys.detail i) = true ∧
        matches folderKeys.lists (folderKeys.detail i) = false) ∧
  (∀ i, matches folderKeys.all (folderKeys.contents i) = true ∧
        matches folderKeys.lists (folderKeys.contents i) = false ∧
        matches folderKeys.details (folderKeys.contents i) = false) ∧
  (∀ p i, matches folderKeys.tree (folderKeys.list p) = false ∧
          matches folderKeys.tree (folderKeys.detail i) = false ∧
          matches folderKeys.tree (folderKeys.contents i) = false) ∧
  (∀ p i, matches (folderKeys.list p) folderKeys.tree = false ∧
          matches (folderKeys.list p) (folderKeys.detail i) = false ∧
          matches (folderKeys.list p) (folderKeys.contents i) = false) ∧
  (∀ i p j, matches (folderKeys.detail i) folderKeys.tree = false ∧
            matches (folderKeys.detail i) (folderKeys.list p) = false ∧
            matches (folderKeys.detail i) (folderKeys.contents j) = false) ∧
  (∀ i p j, matches (folderKeys.contents i) folderKeys.tree = false ∧
            matches (folderKeys.contents i) (folderKeys.list p) = false ∧
            matches (folderKeys.contents i) (folderKeys.detail j) = false) ∧
  (∀ i j, matches (folderKeys.detail i) (folderKeys.detail j) = true ↔ i = j) ∧
  (∀ i j, matches (folderKeys.contents i) (folderKeys.contents j) = true ↔ i = j).
Proof.
  split_and!; intros; split_and?;
    try (eapply matches_true; reflexivity);
    try (apply matches_false; intros suffix Hs; vm_compute in Hs; congruence).
  - split.
    + intros [suffix Hs]%bool_decide_eq_true. vm_compute in Hs. congruence.
    + intros ->. eapply matches_true. by rewrite app_nil_r.
  - split.
    + intros [suffix Hs]%bool_decide_eq_true. vm_compute in Hs. congruence.
    + intros ->. eapply matches_true. by rewrite app_nil_r.
Qed.

(** X18.  Whatever the cache has become since [onMutate] of
    [useCreateFolder] took its snapshot, [onError] with the context of
    that [onMutate] puts back the tree and every list that had data in the
    snapshot; a query without data in the snapshot, and every folder
    detail, stays as it is at the time of the error. *)
Theorem create_rollback_restores_snapshot (env : Env) (folderData : FolderCreate)
    (qc later : QueryClient) :
  let context := (useCreateFolder_onMutate env folderData qc).1 in
  let c' := cache (exec (useCreateFolder_onError (Some context)) later) in
  tree_query c' =
    match mjoin (tree_query (cache qc)) with
    | Some t => Some (Some t)
    | None => tree_query (cache later)
    end ∧
  (∀ k, list_queries c' !! k =
        match mjoin (list_queries (cache qc) !! k) with
        | Some l => Some (Some l)
        | None => list_queries (cache later) !! k
        end) ∧
  detail_queries c' = detail_queries (cache later).
Proof.
  intros context c'. unfold c', context, exec.
  rewrite useCreateFolder_onMutate_run. cbn zeta. cbn [fst].
  rewrite useCreateFolder_onError_run. cbn zeta.
  cbn [snd cache create_previousTree create_previousLists].
  set (restored := match mjoin (tree_query (cache qc)) with
                   | Some previousTree =>
                       write_tree (λ _, Some previousTree) (cache later)
                   | None => cache later
                   end).
  assert (tree_query restored =
          match mjoin (tree_query (cache qc)) with
          | Some t => Some (Some t)
          | None => tree_query (cache later)
          end ∧
          list_queries restored = list_queries (cache later) ∧
          detail_queries restored = detail_queries (cache later))
    as (Ht & Hl & Hd).
  { unfold restored. by destruct (mjoin (tree_query (cache qc))). }
  destruct (foldl_write_list_others fst (λ x _, x.2)
              (map_to_list (list_queries (cache qc))) restored) as [-> ->].
  split_and!; [done| |done].
  intros k.
  rewrite (foldl_write_list_lookup (λ x _, x.2)). cbn [snd]. rewrite Hl.
  by destruct (list_queries (cache qc) !! k) as [[l|]|].
Qed.

(** X19.  The same for the other two mutations.  [onError] of
    [useUpdateFolder] puts back the detail of the folder and the tree
    where the snapshot had data, although [onMutate] writes the detail
    only; the lists and the other details stay as they are.  [onError] of
    [useDeleteFolder] puts back the tree where the snapshot had data and
    touches nothing else. *)
Theorem update_delete_rollback_restores_snapshot (env : Env)
    (folderId : js_string) (updates : JSObject) (variables : DeleteVariables)
    (qc later : QueryClient) :
  (let context := (useUpdateFolder_onMutate env folderId updates qc).1 in
   let c' := cache (exec (useUpdateFolder_onError folderId (Some context)) later) in
   tree_query c' =
     match mjoin (tree_query (cache qc)) with
     | Some t => Some (Some t)
     | None => tree_query (cache later)
     end ∧
   (∀ i, detail_queries c' !! i =
         match mjoin (detail_queries (cache qc) !! folderId) with
         | Some d =>
             if decide (i = folderId) then Some (Some d)
             else detail_queries (cache later) !! i
         | None => detail_queries (cache later) !! i
         end) ∧
   list_queries c' = list_queries (cache later)) ∧
  (let context := (useDeleteFolder_onMutate variables qc).1 in
   let c' := cache (exec (useDeleteFolder_onError (Some context)) later) in
   tree_query c' =
     match mjoin (tree_query (cache qc)) with
     | Some t => Some (Some t)
     | None => tree_query (cache later)
     end ∧
   list_queries c' = list_queries (cache later) ∧
   detail_queries c' = detail_queries (cache later)).
Proof.
  split.
  - intros context c'. unfold c', context, exec.
    rewrite useUpdateFolder_onMutate_run. cbn zeta. cbn [fst].
    rewrite useUpdateFolder_onError_run. cbn zeta.
    cbn [snd cache update_previousFolder update_previousTree].
    destruct (mjoin (tree_query (cache qc))) as [t|];
      destruct (mjoin (detail_queries (cache qc) !! folderId)) as [d|];
      unfold write_tree, write_detail;
      cbn [tree_query list_queries detail_queries];
      (split_and!; [done| |done]); intros i; try done.
    + destruct (decide (i = folderId)) as [->|Hne];
        [by rewrite lookup_insert_eq|by rewrite lookup_insert_ne].
    + destruct (decide (i = folderId)) as [->|Hne];
        [by rewrite lookup_insert_eq|by rewrite lookup_insert_ne].
  - intros context c'. unfold c', context, exec.
    rewrite useDeleteFolder_onMutate_run. cbn zeta. cbn [fst].
    rewrite useDeleteFolder_onError_run.
    cbn [snd cache delete_previousTree].
    by destruct (mjoin (tree_query (cache qc))) as [t|].
Qed.

(** X20.  [onMutate] of [useCreateFolder] applies its updaters to exactly
    the queries that hold data: the tree and each list with data get the
    result of their updater, a query without data is left as it is, no
    query is created, and the folder details are not touched. *)
Theorem create_writes_only_queries_with_data (env : Env)
    (folderData : FolderCreate) (qc : QueryClient) :
  let opt := optimisticFolder env folderData in
  let c' := cache (exec (useCreateFolder_onMutate env folderData) qc) in
  tree_query c' =
    match mjoin (tree_query (cache qc)) with
    | Some t => Some (create_tree_updater folderData opt (Some t))
    | None => tree_query (cache qc)
    end ∧
  (∀ k, list_queries c' !! k =
        match mjoin (list_queries (cache qc) !! k) with
        | Some l => Some (create_list_updater folderData opt k (Some l))
        | None => list_queries (cache qc) !! k
        end) ∧
  detail_queries c' = detail_queries (cache qc).
Proof.
  intros opt c'. unfold c', exec.
  rewrite useCreateFolder_onMutate_run. cbn zeta. cbn [snd cache]. fold opt.
  set (c_tree := if bool_decide (is_Some (mjoin (tree_query (cache qc))))
                 then write_tree (create_tree_updater folderData opt) (cache qc)
                 else cache qc).
  assert (tree_query c_tree =
          match mjoin (tree_query (cache qc)) with
          | Some t => Some (create_tree_updater folderData opt (Some t))
          | None => tree_query (cache qc)
          end ∧
          list_queries c_tree = list_queries (cache qc) ∧
          detail_queries c_tree = detail_queries (cache qc))
    as (Ht & Hl & Hd).
  { unfold c_tree, write_tree.
    destruct (mjoin (tree_query (cache qc))) as [t|] eqn:Hq.
    - rewrite bool_decide_eq_true_2 by eauto.
      unfold create_tree_updater.
      by destruct (fc_parent_id folderData) as [| |[|c p]].
    - by rewrite bool_decide_eq_false_2 by (by intros []). }
  destruct (foldl_write_list_others fst
              (λ x, create_list_updater folderData opt x.1)
              (map_to_list (list_queries (cache qc))) c_tree) as [-> ->].
  split_and!; [done| |done].
  intros k.
  rewrite (foldl_write_list_lookup
             (λ x, create_list_updater folderData opt x.1)).
  cbn [fst]. rewrite Hl.
  destruct (list_queries (cache qc) !! k) as [[l|]|]; cbn [mjoin]; try done.
  unfold create_list_updater. by destruct (matchesParent _ _).
Qed.

End query_client_helper_results.

Section component_facts.
Import JS Folders FolderService CreateFolderDialog.

(** *** trim *)

Lemma trim_start_idem (s : js_string) : trim_start (trim_start s) = trim_start s.
Proof.
  induction s as [|c s IH]; simpl; [done|].
  destruct (is_white_space c) eqn:Hc; [done|]. simpl. by rewrite Hc.
Qed.

Lemma trim_start_app_non_white (l r : js_string) (c : N) :
  is_white_space c = false →
  trim_start (l ++ c :: r) = trim_start l ++ c :: r.
Proof.
  intros Hc. induction l as [|d l IH]; simpl; [by rewrite Hc|].
  by destruct (is_white_space d).
Qed.

Lemma trim_end_cons_non_white (c : N) (s : js_string) :
  is_white_space c = false →
  trim_end (c :: s) = c :: trim_end s.
Proof.
  intros Hc. unfold trim_end.
  rewrite reverse_cons, trim_start_app_non_white by done.
  by rewrite reverse_app.
Qed.

Lemma trim_idem (s : js_string) : trim (trim s) = trim s.
Proof.
  unfold trim.
  destruct (trim_start_cases s) as [->|(c & t & -> & Hc)]; [done|].
  rewrite trim_end_cons_non_white by done.
  simpl. rewrite Hc. rewrite trim_end_cons_non_white by done. f_equal.
  unfold trim_end. by rewrite reverse_involutive, trim_start_idem.
Qed.

Lemma trim_start_suffix (s : js_string) : ∃ k, s = k ++ trim_start s.
Proof.
  induction s as [|c s [k IH]]; simpl; [by exists []|].
  destruct (is_white_space c); [|by exists []].
  exists (c :: k). simpl. by rewrite <- IH.
Qed.

Lemma trim_decompose (s : js_string) : ∃ k1 k2, s = k1 ++ trim s ++ k2.
Proof.
  unfold trim, trim_end.
  destruct (trim_start_suffix s) as [k1 Hk1].
  destruct (trim_start_suffix (reverse (trim_start s))) as [k2 Hk2].
  exists k1, (reverse k2).
  rewrite <- reverse_app, <- Hk2, reverse_involutive. done.
Qed.

Lemma invalidChars_test_app (s1 s2 : js_string) :
  invalidChars_test (s1 ++ s2) = invalidChars_test s1 || invalidChars_test s2.
Proof. apply existsb_app. Qed.

Lemma validateFolderName_valid (name : js_string) :
  valid (validateFolderName name) = true ↔
  trim name ≠ [] ∧ (length name ≤ 255)%nat ∧ invalidChars_test name = false.
Proof.
  unfold validateFolderName.
  destruct (decide (trim name = [])) as [Ht|Ht].
  - rewrite Ht. cbn [length]. rewrite (bool_decide_eq_true_2 (0%nat = 0%nat)) by done.
    rewrite orb_true_r. cbn [valid]. split; [done|]. by intros [? _].
  - rewrite (bool_decide_eq_false_2 (name = [])) by (by intros ->).
    rewrite (bool_decide_eq_false_2 (length (trim name) = 0%nat))
      by (by destruct (trim name)).
    cbn [orb]. case_bool_decide as Hlen; cbn [valid].
    { split; [done|]. intros (_ & ? & _). lia. }
    destruct (invalidChars_test name); cbn [valid].
    { split; [done|]. by intros (_ & _ & ?). }
    split; [|done]. intros _. split_and!; [done|lia|done].
Qed.

Lemma validateFolderName_trim (name : js_string) :
  valid (validateFolderName name) = true →
  valid (validateFolderName (trim name)) = true.
Proof.
  rewrite !validateFolderName_valid, trim_idem.
  intros (Ht & Hlen & Hchars). destruct (trim_decompose name) as (k1 & k2 & Hname).
  split_and!; [done| |].
  - apply (f_equal length) in Hname. rewrite !length_app in Hname. lia.
  - rewrite Hname, !invalidChars_test_app in Hchars.
    apply orb_false_elim in Hchars as [_ Hchars].
    by apply orb_false_elim in Hchars as [Hchars _].
Qed.

Lemma trim_or_undefined_cases (s : js_string) :
  trim_or_undefined s = Undefined ∨
  ∃ c t, trim_or_undefined s = Val (c :: t).
Proof. unfold trim_or_undefined. destruct (trim s); [by left|right; eauto]. Qed.

Lemma or_null_cases (o : optional js_string) :
  or_null o = Null ∨ ∃ c t, or_null o = Val (c :: t).
Proof. destruct o as [| |[|c t]]; [by left..|right; eauto]. Qed.

(** What [handleSubmit] does, by the validity of the name and the
    outcome of the mutation. *)
Lemma handleSubmit_invalid parentId onSuccess mutateAsync st :
  valid (validateFolderName (dlg_name st)) = false →
  handleSubmit parentId onSuccess mutateAsync st =
  ([], mkDialogState (dlg_name st) (dlg_description st)
         (Some (error_or_default (error (validateFolderName (dlg_name st)))))).
Proof. intros Hvalid. unfold handleSubmit. cbn [dlg_name]. by rewrite Hvalid. Qed.

Lemma handleSubmit_valid parentId onSuccess mutateAsync st :
  valid (validateFolderName (dlg_name st)) = true →
  let folderData := folderData_of parentId st in
  let cleared := mkDialogState (dlg_name st) (dlg_description st) None in
  handleSubmit parentId onSuccess mutateAsync st =
  match mutateAsync folderData with
  | Resolved true (Some folder) =>
      match onSuccess with
      | Some cb =>
          match cb (id folder) with
          | Returns =>
              ([MutateAsync folderData; OnSuccess (id folder); OnOpenChange false],
               mkDialogState [] [] None)
          | Throws message =>
              ([MutateAsync folderData; OnSuccess (id folder)],
               caught message cleared)
          end
      | None =>
          ([MutateAsync folderData; OnOpenChange false], mkDialogState [] [] None)
      end
  | Resolved _ _ => ([MutateAsync folderData], cleared)
  | Rejected message => ([MutateAsync folderData], caught message cleared)
  end.
Proof.
  intros Hvalid folderData cleared. unfold handleSubmit. cbn [dlg_name].
  rewrite Hvalid. cbn [negb].
  change (folderData_of parentId
            (mkDialogState (dlg_name st) (dlg_description st) None))
    with folderData.
  by destruct (mutateAsync folderData) as [[] [folder|]|message].
Qed.

(** Only the object built from the form is ever sent, and only for a
    valid name. *)
Lemma handleSubmit_sent parentId onSuccess mutateAsync st folderData :
  MutateAsync folderData ∈ (handleSubmit parentId onSuccess mutateAsync st).1 ↔
  valid (validateFolderName (dlg_name st)) = true ∧
  folderData = folderData_of parentId st.
Proof.
  destruct (valid (validateFolderName (dlg_name st))) eqn:Hvalid.
  - rewrite handleSubmit_valid by done. cbn zeta.
    destruct (mutateAsync _) as [[] [folder|]|message];
      [destruct onSuccess as [cb|]; [destruct (cb (id folder))|]| | | |];
      cbn [fst]; rewrite ?elem_of_cons, elem_of_nil;
      (split; [intros Hin; split; [done|];
               repeat destruct Hin as [Hin|Hin]; by simplify_eq
              |intros [_ ->]; by left]).
  - rewrite handleSubmit_invalid by done. cbn [fst].
    rewrite elem_of_nil. split; [done|]. by intros [? _].
Qed.

End component_facts.

Section component_results.
Import JS Folders FolderService SelectedProject FolderTreeComponent
  CreateFolderDialog.

(** X21.  [updateSelectedProjectId] always sets the React state to its
    argument.  When the storage works, a later [getInitialValue] returns
    the identifier that was stored, and null after null or the empty
    string was set; the other items of the storage are not touched.  When
    the storage throws, it is left alone and [getInitialValue] returns
    null. *)
Theorem selected_project_round_trip (projectId : option js_string)
    (localStorage : Storage) :
  let r := updateSelectedProjectId projectId localStorage in
  r.1 = projectId ∧
  if throws localStorage then
    r.2 = localStorage ∧ getInitialValue r.2 = None
  else
    getInitialValue r.2 = (if truthy_id projectId then projectId else None) ∧
    ∀ k, k ≠ STORAGE_KEY → items r.2 !! k = items localStorage !! k.
Proof.
  intros r. unfold r, updateSelectedProjectId, getInitialValue. cbn [fst snd].
  split; [done|]. destruct (throws localStorage) eqn:Hthrows.
  - by rewrite Hthrows.
  - destruct projectId as [[|c p]|]; cbn [throws items truthy_id].
    + rewrite lookup_delete_eq. split; [done|].
      intros k Hk. by rewrite lookup_delete_ne.
    + rewrite lookup_insert_eq. split; [done|].
      intros k Hk. by rewrite lookup_insert_ne.
    + rewrite lookup_delete_eq. split; [done|].
      intros k Hk. by rewrite lookup_delete_ne.
Qed.

(** X22.  [handleToggleExpand] flips the folder it is given and no other:
    afterwards the folder is expanded exactly when it was not before,
    every other folder is as it was, and toggling twice gives the set of
    expanded folders back. *)
Theorem handleToggleExpand_flips (folderId : js_string) (prev : gset js_string) :
  (folderId ∈ handleToggleExpand folderId prev ↔ folderId ∉ prev) ∧
  (∀ other, other ≠ folderId →
            (other ∈ handleToggleExpand folderId prev ↔ other ∈ prev)) ∧
  handleToggleExpand folderId (handleToggleExpand folderId prev) = prev.
Proof.
  assert (∀ s x, x ∈ handleToggleExpand folderId s ↔
                 if decide (x = folderId) then x ∉ s else x ∈ s) as Hin.
  { intros s x. unfold handleToggleExpand.
    case_bool_decide as Hf.
    - rewrite elem_of_difference, elem_of_singleton.
      destruct (decide (x = folderId)) as [->|Hne]; tauto.
    - rewrite elem_of_union, elem_of_singleton.
      destruct (decide (x = folderId)) as [->|Hne]; tauto. }
  split_and!.
  - rewrite Hin. by rewrite decide_True.
  - intros other Hne. rewrite Hin. by rewrite decide_False.
  - apply set_eq. intros x. rewrite Hin.
    destruct (decide (x = folderId)) as [->|Hne].
    + rewrite Hin, decide_True by done.
      destruct (decide (folderId ∈ prev)); tauto.
    + rewrite Hin. by rewrite decide_False.
Qed.

(** X23.  Whatever [handleSubmit] sends to the create mutation has a
    name that is the typed name without the white space around it, and
    that [validateFolderName] accepts as it is; the description is absent
    or a non-empty trimmed string, and the parent is null or a non-empty
    identifier. *)
Theorem handleSubmit_sends_valid_trimmed_name (parentId : optional js_string)
    (onSuccess : option (js_string → CallOutcome))
    (mutateAsync : FolderCreate → MutationOutcome)
    (st : DialogState) (folderData : FolderCreate) :
  MutateAsync folderData ∈ (handleSubmit parentId onSuccess mutateAsync st).1 →
  fc_name folderData = trim (dlg_name st) ∧
  trim (fc_name folderData) = fc_name folderData ∧
  valid (validateFolderName (fc_name folderData)) = true ∧
  (fc_description folderData = Undefined ∨
   ∃ c t, fc_description folderData = Val (c :: t) ∧
          trim (dlg_description st) = c :: t) ∧
  (fc_parent_id folderData = Null ∨
   ∃ c t, fc_parent_id folderData = Val (c :: t) ∧ parentId = Val (c :: t)).
Proof.
  intros [Hvalid ->]%handleSubmit_sent.
  unfold folderData_of. cbn [fc_name fc_description fc_parent_id].
  split_and!.
  - done.
  - apply trim_idem.
  - by apply validateFolderName_trim.
  - unfold trim_or_undefined.
    destruct (trim (dlg_description st)) as [|c t]; [by left|right; eauto].
  - destruct parentId as [| |[|c t]]; [by left..|right; eauto].
Qed.

(** The name has spaces around it and the mutation fails. *)
Lemma handleSubmit_sends_valid_trimmed_name_witness :
  let st := mkDialogState (js "  Docs ") (js " ") None in
  let folderData := mkFolderCreate (js "Docs") Undefined Undefined Undefined 0 []
                      (Val (js "P")) in
  fc_name folderData = trim (dlg_name st) ∧
  trim (fc_name folderData) = fc_name folderData ∧
  valid (validateFolderName (fc_name folderData)) = true ∧
  (fc_description folderData = Undefined ∨
   ∃ c t, fc_description folderData = Val (c :: t) ∧
          trim (dlg_description st) = c :: t) ∧
  (fc_parent_id folderData = Null ∨
   ∃ c t, fc_parent_id folderData = Val (c :: t) ∧ Val (js "P") = Val (c :: t)).
Proof.
  intros st folderData.
  apply (handleSubmit_sends_valid_trimmed_name (Val (js "P"))
           (Some (λ _, Returns)) (λ _, Rejected None) st folderData).
  vm_compute. left.
Defined.


End component_results.

Section optimistic_path_facts.
Import JS Folders FolderService FolderServicePath FolderQueries.
Implicit Types (nodes ch : list TreeNode) (n : TreeNode)
  (path cp : list js_string).

Lemma first_true_app {A S} (f : A → S → bool * S) (l1 l2 : list A) (s : S) :
  first_true f (l1 ++ l2) s =
  if (first_true f l1 s).1 then (true, (first_true f l1 s).2)
  else first_true f l2 (first_true f l1 s).2.
Proof.
  revert s. induction l1 as [|x l1 IH]; intros s; cbn [app first_true]; [done|].
  destruct (f x s) as [[] s']; [done|]. apply IH.
Qed.

Lemma findPath_node_absent T cp n path :
  T ∉ node_folder_ids n → findPath_node T cp n path = (false, path).
Proof.
  intros HT. pose proof (searches_agree_node T n cp [] path) as H.
  destruct (search_node T n) as [m|] eqn:Hs.
  - by apply search_node_in in Hs.
  - by destruct H as [_ ->].
Qed.

Lemma findPath_absent T cp nodes path :
  T ∉ folder_ids nodes → first_true (findPath_node T cp) nodes path = (false, path).
Proof.
  induction nodes as [|c nodes IH]; [done|].
  rewrite folder_ids_cons. intros [Hc Hn]%not_elem_of_app.
  cbn [first_true]. rewrite findPath_node_absent by done. by apply IH.
Qed.

Lemma findPath_node_false p cp n path r :
  findPath_node p cp n path = (false, r) →
  r = path ∧ p ∉ node_folder_ids n.
Proof.
  intros Hf. pose proof (searches_agree_node p n cp [] path) as H.
  destruct (search_node p n) as [m|] eqn:Hs.
  - destruct H as (f & ch & ids & names & _ & _ & _ & _ & Hr & _). congruence.
  - destruct H as [_ Hr]. split; [congruence|]. by apply search_node_None.
Qed.

Lemma findPath_addToParent_list p T tn_f cp ch path r :
  Forall (λ n, ∀ cp path r,
            T ∉ node_folder_ids n →
            findPath_node p cp n path = (true, r) →
            findPath_node T cp (addToParent_node p (FolderNode tn_f []) n) path
            = (true, r ++ [name tn_f])) ch →
  T ∉ folder_ids ch →
  first_true (findPath_node p cp) ch path = (true, r) →
  first_true (findPath_node T cp) (addToParent p (FolderNode tn_f []) ch) path
  = (true, r ++ [name tn_f]).
Proof.
  induction 1 as [|c ch Hc _ IH]; [done|].
  rewrite folder_ids_cons. intros [HTc HT]%not_elem_of_app.
  change (addToParent p (FolderNode tn_f []) (c :: ch))
    with (addToParent_node p (FolderNode tn_f []) c
            :: addToParent p (FolderNode tn_f []) ch).
  cbn [first_true].
  destruct (findPath_node p cp c path) as [[] s'] eqn:Hp.
  - intros [= ->]. by rewrite (Hc cp path r HTc Hp).
  - apply findPath_node_false in Hp as [-> Hp].
    rewrite addToParent_node_absent by done.
    rewrite findPath_node_absent by done. by apply IH.
Qed.

Lemma findPath_addToParent_node p T tn_f n :
  id tn_f = T →
  ∀ cp path r,
    T ∉ node_folder_ids n →
    findPath_node p cp n path = (true, r) →
    findPath_node T cp (addToParent_node p (FolderNode tn_f []) n) path
    = (true, r ++ [name tn_f]).
Proof.
  intros Hid. induction n as [f ch IH|s] using TreeNode_ind;
    intros cp path r HT; [|done].
  cbn [node_folder_ids] in HT. apply not_elem_of_cons in HT as [Hne HT].
  fold (folder_ids ch) in HT.
  cbn [findPath_node addToParent_node].
  destruct (decide (id f = p)) as [Hp|Hp].
  - intros [= <-]. cbn [findPath_node with_subfolder_count id name].
    rewrite decide_False by done.
    rewrite first_true_app, findPath_absent by done. cbn [fst snd first_true].
    cbn [findPath_node]. rewrite decide_True by done.
    by rewrite <- !app_assoc.
  - intros Hfound. cbn [findPath_node]. rewrite decide_False by done.
    by apply findPath_addToParent_list.
Qed.

End optimistic_path_facts.

Section optimistic_path_results.
Import JS Folders FolderService FolderServicePath FolderQueries.

(** X25.  The optimistic create and [getFolderPath] fit together: when
    the generated identifier is not yet in the tree, the path of the new
    folder in the new tree is its name alone when it has no parent, the
    path of the parent in the old tree followed by its name when the
    parent is in the tree, and empty when the parent is not in the tree,
    as the folder is then not in the new tree either. *)
Theorem optimistic_folder_path (env : Env) (folderData : FolderCreate)
    (old : FolderTreeResponse) :
  entity_id env ∉ folder_ids (tree old) →
  ∃ new,
    create_tree_updater folderData (optimisticFolder env folderData) (Some old)
    = Some new ∧
    getFolderPath (entity_id env) new =
    match fc_parent_id folderData with
    | Val (c :: p) =>
        if decide (c :: p ∈ folder_ids (tree old))
        then getFolderPath (c :: p) old ++ [fc_name folderData]
        else []
    | _ => [fc_name folderData]
    end.
Proof.
  intros Hfresh. unfold create_tree_updater, getFolderPath, findPath.
  set (opt := optimisticFolder env folderData).
  assert (first_true (findPath_node (entity_id env) [])
            (tree old ++ [FolderNode opt []]) []
          = (true, [fc_name folderData])) as Hroot.
  { rewrite first_true_app, findPath_absent by done. cbn [fst snd first_true].
    cbn [findPath_node]. by rewrite decide_True by done. }
  destruct (fc_parent_id folderData) as [| |[|c p]];
    try (eexists; split; [done|]; cbn [tree]; by rewrite Hroot).
  eexists. split; [done|]. cbn [tree].
  destruct (decide (c :: p ∈ folder_ids (tree old))) as [Hp|Hp].
  - destruct (findFolderInTree_found _ _ Hp) as (pf & ch & Hfind & _).
    pose proof (searches_agree_tree (c :: p) (tree old) [] [] []) as H.
    unfold findFolderInTree in Hfind. rewrite Hfind in H.
    destruct H as (f & ch' & ids & names & _ & _ & _ & _ & Hpath & _).
    unfold findPath in Hpath.
    assert (Forall (λ n, ∀ cp path r,
                      entity_id env ∉ node_folder_ids n →
                      findPath_node (c :: p) cp n path = (true, r) →
                      findPath_node (entity_id env) cp
                        (addToParent_node (c :: p) (FolderNode opt []) n) path
                      = (true, r ++ [name opt])) (tree old)) as Hnodes.
    { apply Forall_forall. intros n _. by apply findPath_addToParent_node. }
    rewrite (findPath_addToParent_list (c :: p) (entity_id env) opt []
               (tree old) [] _ Hnodes Hfresh Hpath).
    by rewrite Hpath.
  - rewrite addToParent_absent by done. by rewrite findPath_absent.
Qed.

(** The tree is [A > P]; a folder named [New] is created under [P]. *)
Lemma optimistic_folder_path_witness :
  let env := mkEnv (js "temp-1") (js "temp-2") (js "now") (js "now") in
  let folderData := mkFolderCreate (js "New") Undefined Undefined Undefined 0 []
                      (Val (js "P")) in
  let old :=
    mkFolderTreeResponse
      [FolderNode (sample_folder (js "A") 1)
         [FolderNode (sample_folder (js "P") 0) []]] 2 None in
  ∃ new,
    create_tree_updater folderData (optimisticFolder env folderData) (Some old)
    = Some new ∧
    getFolderPath (js "temp-2") new = [js "Folder"; js "Folder"; js "New"].
Proof.
  intros env folderData old.
  apply (optimistic_folder_path env folderData old).
  apply (bool_decide_unpack _). vm_compute. exact I.
Defined.

End optimistic_path_results.
